(** * Directory-tree reconstruction and rendering

    A shallow embedding of the two tree formatters of the repository:
    [services/tree-formatter.ts] (the plain renderer, [formatTree]) and
    [services/enhanced-tree-formatter.ts] (the annotated renderer,
    [formatSubTree]), together with [utils/path-utils.ts].

    Modelling conventions.
    - JavaScript strings are modelled by [string] (byte strings holding the
      UTF-8 encoding of the source literals).  The operations used by the
      formatters ([===], [startsWith], [endsWith], [substring] after a
      matched prefix, [split('/')], [join]) act on ASCII separators and
      commute with the encoding.
    - [Array.prototype.sort] is a stable sort; it is modelled by a stable
      insertion sort driven by the comparator of the source.
    - [String.prototype.localeCompare] is a built-in whose collation is not
      part of the repository: the builders take it as a section variable
      [localeCompare], and [codepointCompare] is the instance used for the
      concrete runs.
    - The in-place mutations of the builders ([node.isDirectory = true],
      [parent.children.push], [parent.children.sort]) are modelled by
      functional update of the node the mutated reference points to.
    - [number] is modelled by [Z]: sizes and depths are integers, and
      [toFixed(1)] of an integer divided by a power of two is exact. *)

From Stdlib Require Import List String Ascii ZArith Bool Lia.
From Stdlib Require Import Permutation Sorted DecimalString.
Import ListNotations.
Local Open Scope string_scope.
Local Open Scope Z_scope.

(** ** Strings *)

Definition slash : ascii := "/"%char.
Definition backslash : ascii := "\"%char.

(** The one-character string ['\n']. *)
Definition nl : string := String (ascii_of_nat 10) EmptyString.

(** [lines.join(sep)]. *)
Definition join (sep : string) (parts : list string) : string :=
  String.concat sep parts.

(** [s.split('/')]: never empty, [''.split('/')] is [['']]. *)
Fixpoint split (sep : ascii) (s : string) : list string :=
  match s with
  | EmptyString => [EmptyString]
  | String c rest =>
      if Ascii.eqb c sep then EmptyString :: split sep rest
      else match split sep rest with
           | [] => [String c EmptyString]
           | hd :: tl => String c hd :: tl
           end
  end.

(** [s.startsWith(p)]. *)
Definition startsWith (s p : string) : bool := String.prefix p s.

(** [s.substring(n)]. *)
Fixpoint substringFrom (n : nat) (s : string) : string :=
  match n, s with
  | O, _ => s
  | S n', String _ rest => substringFrom n' rest
  | S _, EmptyString => EmptyString
  end.

Fixpoint rev_string_onto (s acc : string) : string :=
  match s with
  | EmptyString => acc
  | String c rest => rev_string_onto rest (String c acc)
  end.

Definition rev_string (s : string) : string := rev_string_onto s EmptyString.

(** [s.endsWith(p)]. *)
Definition endsWith (s p : string) : bool :=
  String.prefix (rev_string p) (rev_string s).

(** Decimal rendering of an integral [number], as template literals do. *)
Definition showZ (n : Z) : string := NilEmpty.string_of_int (Z.to_int n).

(** ** utils/path-utils.ts *)

(** [.replace(/\\/g, '/')] *)
Fixpoint backslashesToSlashes (s : string) : string :=
  match s with
  | EmptyString => EmptyString
  | String c rest =>
      String (if Ascii.eqb c backslash then slash else c) (backslashesToSlashes rest)
  end.

(** [.replace(/^\/+/, '')] *)
Fixpoint stripLeadingSlashes (s : string) : string :=
  match s with
  | EmptyString => EmptyString
  | String c rest => if Ascii.eqb c slash then stripLeadingSlashes rest else s
  end.

(** [.replace(/\/+$/, '')] *)
Fixpoint stripTrailingSlashes (s : string) : string :=
  match s with
  | EmptyString => EmptyString
  | String c rest =>
      match stripTrailingSlashes rest with
      | EmptyString => if Ascii.eqb c slash then EmptyString else String c EmptyString
      | rest' => String c rest'
      end
  end.

(** [.replace(/\/+/g, '/')]: every maximal run of slashes becomes one slash. *)
Fixpoint collapseSlashesFrom (afterSlash : bool) (s : string) : string :=
  match s with
  | EmptyString => EmptyString
  | String c rest =>
      if Ascii.eqb c slash
      then if afterSlash then collapseSlashesFrom true rest
           else String slash (collapseSlashesFrom true rest)
      else String c (collapseSlashesFrom false rest)
  end.

Definition normalizePath (path : string) : string :=
  collapseSlashesFrom false
    (stripTrailingSlashes (stripLeadingSlashes (backslashesToSlashes path))).

(** ** types/index.ts *)

(** [GitHubTreeItem.type]. *)
Inductive ItemType : Set := blob | tree.

Definition ItemType_eqb (a b : ItemType) : bool :=
  match a, b with
  | blob, blob | tree, tree => true
  | _, _ => false
  end.

(** [GitHubTreeItem]; the fields [mode], [sha] and [url] are never read by
    the formatters and are left out. *)
Record GitHubTreeItem : Set := mkItem {
  path : string;
  type : ItemType;
  size : option Z
}.

(** [SubTreeOptions]: every field is optional. *)
Record SubTreeOptions : Set := mkOptions {
  showSize : option bool;
  maxDepth : option Z;
  showStats : option bool;
  fileExtFilter : option (list string)
}.

(** [TreeStats]. *)
Record TreeStats : Set := mkStats {
  totalFiles : Z;
  totalDirs : Z;
  totalSize : Z;
  filteredExtensions : option (list string);
  depthLimited : option Z
}.

(** ** The part shared by both builders *)

(** The filter of [filteredItems] followed by the prefix removal at the head
    of the loop body: [None] when the item is filtered out or is the
    directory itself, otherwise the relative path. *)
Definition relativePath (normalizedDirPath : string) (item : GitHubTreeItem)
  : option string :=
  if String.eqb normalizedDirPath ""
  then Some (path item)
  else if startsWith (path item) (normalizedDirPath ++ "/")
            || String.eqb (path item) normalizedDirPath
       then if String.eqb (path item) normalizedDirPath
            then None
            else Some (substringFrom (String.length normalizedDirPath + 1) (path item))
       else None.

(** [Array.prototype.sort(compare)]: a stable sort.  When [compare] is a
    total preorder every stable sort returns the same array; insertion
    sort stands for all of them. *)
Section Sort.
Context {A : Type} (compare : A -> A -> Z).

Fixpoint insertSorted (x : A) (l : list A) : list A :=
  match l with
  | [] => [x]
  | y :: l' => if compare x y <=? 0 then x :: l else y :: insertSorted x l'
  end.

Fixpoint sort (l : list A) : list A :=
  match l with
  | [] => []
  | x :: l' => insertSorted x (sort l')
  end.
End Sort.

(** [x] may come before [y] in an array sorted by [compare]. *)
Definition precedes {A : Type} (compare : A -> A -> Z) (x y : A) : Prop :=
  compare x y <= 0.

(** Lists of named nodes: [l.find((c) => c.name === k)] and the in-place
    update of the element it returns. *)
Section NamedList.
Context {A : Type} (nameOf : A -> string).

Definition findNamed (k : string) (l : list A) : option A :=
  find (fun c => String.eqb (nameOf c) k) l.

Fixpoint updateNamed (k : string) (f : A -> A) (l : list A) : list A :=
  match l with
  | [] => []
  | c :: l' =>
      if String.eqb (nameOf c) k then f c :: l' else c :: updateNamed k f l'
  end.
End NamedList.

(** [Map<string, V>] in insertion order. *)
Section JsMap.
Context {V : Type}.

Fixpoint Map_get (k : string) (m : list (string * V)) : option V :=
  match m with
  | [] => None
  | (k', v) :: m' => if String.eqb k' k then Some v else Map_get k m'
  end.

Definition Map_has (k : string) (m : list (string * V)) : bool :=
  match Map_get k m with Some _ => true | None => false end.

(** [set] keeps the position of an existing key and appends a new one. *)
Fixpoint Map_set (k : string) (v : V) (m : list (string * V)) : list (string * V) :=
  match m with
  | [] => [(k, v)]
  | (k', v') :: m' =>
      if String.eqb k' k then (k, v) :: m' else (k', v') :: Map_set k v m'
  end.

Definition Map_values (m : list (string * V)) : list V := map snd m.
End JsMap.

(** The model of [localeCompare] used for concrete runs: code-unit order. *)
Definition codepointCompare (a b : string) : Z :=
  match String.compare a b with
  | Lt => -1
  | Eq => 0
  | Gt => 1
  end.

(** ** services/tree-formatter.ts *)

(** [interface TreeNode]. *)
Module TreeNode.
#[local] Unset Elimination Schemes.
Inductive t : Type :=
  mk (name : string) (isDirectory : bool) (children : list t).
#[local] Set Elimination Schemes.

Definition name (n : t) : string := let 'mk x _ _ := n in x.
Definition isDirectory (n : t) : bool := let 'mk _ d _ := n in d.
Definition children (n : t) : list t := let 'mk _ _ cs := n in cs.

(** [node.isDirectory = true] *)
Definition setDirectory (n : t) : t := mk (name n) true (children n).
(** [node.children = cs] *)
Definition setChildren (n : t) (cs : list t) : t := mk (name n) (isDirectory n) cs.
End TreeNode.

Section PlainFormatter.
Variable localeCompare : string -> string -> Z.

(** The comparator of both [sort] calls: files first, then directories. *)
Definition compareNodes (a b : TreeNode.t) : Z :=
  if negb (Bool.eqb (TreeNode.isDirectory a) (TreeNode.isDirectory b))
  then if TreeNode.isDirectory a then 1 else -1
  else localeCompare (TreeNode.name a) (TreeNode.name b).

(** [parent.children.find((c) => c.name === childName)] *)
Definition findChild (childName : string) (cs : list TreeNode.t) : option TreeNode.t :=
  findNamed TreeNode.name childName cs.

(** In-place update of the node [findChild] returns. *)
Definition updateChild (childName : string) (f : TreeNode.t -> TreeNode.t)
  (cs : list TreeNode.t) : list TreeNode.t :=
  updateNamed TreeNode.name childName f cs.

(** [addNestedNode(parent, path, isTree)], returning the mutated parent.
    [path] is carried as [parts = path.split('/')]: the recursive call
    passes [parts.slice(1).join('/')], which splits back into
    [parts.slice(1)] (lemma [split_join]). *)
Fixpoint addNestedNode (parent : TreeNode.t) (parts : list string) (isTree : bool)
  : TreeNode.t :=
  match parts with
  | [] => parent
  | childName :: rest =>
      let more := match rest with [] => false | _ :: _ => true end in
      let cs := TreeNode.children parent in
      let cs1 :=
        match findChild childName cs with
        | Some _ => cs
        | None => (cs ++ [TreeNode.mk childName (more || isTree) []])%list
        end in
      let cs2 :=
        if more
        then updateChild childName
               (fun child => addNestedNode (TreeNode.setDirectory child) rest isTree) cs1
        else cs1 in
      TreeNode.setChildren parent (sort compareNodes cs2)
  end.

(** One iteration of the [for (const item of filteredItems)] loop of
    [buildTree] on the [childrenMap]. *)
Definition buildTreeStep (normalizedDirPath : string)
  (childrenMap : list (string * TreeNode.t)) (item : GitHubTreeItem)
  : list (string * TreeNode.t) :=
  match relativePath normalizedDirPath item with
  | None => childrenMap
  | Some relPath =>
      match split slash relPath with
      | [] => childrenMap
      | childName :: rest =>
          let more := match rest with [] => false | _ :: _ => true end in
          let isTree := ItemType_eqb (type item) tree in
          let m1 :=
            if Map_has childName childrenMap then childrenMap
            else Map_set childName (TreeNode.mk childName (more || isTree) []) childrenMap in
          if more
          then match Map_get childName m1 with
               | Some node =>
                   Map_set childName
                     (addNestedNode (TreeNode.setDirectory node) rest isTree) m1
               | None => m1
               end
          else m1
      end
  end.

Definition buildTree (items : list GitHubTreeItem) (dirPath : string) : TreeNode.t :=
  let normalizedDirPath := normalizePath dirPath in
  let childrenMap := fold_left (buildTreeStep normalizedDirPath) items [] in
  TreeNode.mk "" true (sort compareNodes (Map_values childrenMap)).

Definition displayName (child : TreeNode.t) : string :=
  if TreeNode.isDirectory child then TreeNode.name child ++ "/" else TreeNode.name child.

(** [formatNode(node, prefix)]; [formatNodeLines] is the array [lines]. *)
Fixpoint formatNode (node : TreeNode.t) (prefix : string) : string :=
  match node with
  | TreeNode.mk _ _ cs =>
      let fix formatNodeLines (cs : list TreeNode.t) : list string :=
        match cs with
        | [] => []
        | child :: rest =>
            let isLastChild := match rest with [] => true | _ :: _ => false end in
            let connector := if isLastChild then "└── " else "├── " in
            let childPrefix := if isLastChild then "    " else "│   " in
            let line := prefix ++ connector ++ displayName child in
            match TreeNode.children child with
            | [] => line :: formatNodeLines rest
            | _ :: _ =>
                line :: formatNode child (prefix ++ childPrefix) :: formatNodeLines rest
            end
        end in
      join nl (formatNodeLines cs)
  end.

(** The root-level loop of [formatTree]. *)
Fixpoint formatTreeLines (cs : list TreeNode.t) : list string :=
  match cs with
  | [] => []
  | child :: rest =>
      match TreeNode.children child with
      | [] => displayName child :: formatTreeLines rest
      | _ :: _ => displayName child :: formatNode child "" :: formatTreeLines rest
      end
  end.

Definition formatTree (items : list GitHubTreeItem) (dirPath : string) : string :=
  match items with
  | [] => "(empty directory)"
  | _ :: _ =>
      let t := buildTree items dirPath in
      match TreeNode.children t with
      | [] => "(empty directory)"
      | _ :: _ => join nl (formatTreeLines (TreeNode.children t))
      end
  end.
End PlainFormatter.

(** ** services/enhanced-tree-formatter.ts *)

(** [interface EnhancedTreeNode]. *)
Module EnhancedTreeNode.
#[local] Unset Elimination Schemes.
Inductive t : Type :=
  mk (name : string) (isDirectory : bool) (size : option Z)
     (children : list t) (depth : Z).
#[local] Set Elimination Schemes.

Definition name (n : t) : string := let 'mk x _ _ _ _ := n in x.
Definition isDirectory (n : t) : bool := let 'mk _ d _ _ _ := n in d.
Definition size (n : t) : option Z := let 'mk _ _ s _ _ := n in s.
Definition children (n : t) : list t := let 'mk _ _ _ cs _ := n in cs.
Definition depth (n : t) : Z := let 'mk _ _ _ _ d := n in d.

(** [node.isDirectory = true] *)
Definition setDirectory (n : t) : t :=
  mk (name n) true (size n) (children n) (depth n).
(** [node.children = cs] *)
Definition setChildren (n : t) (cs : list t) : t :=
  mk (name n) (isDirectory n) (size n) cs (depth n).
End EnhancedTreeNode.

(** [x.toFixed(1)] for [x = num / den] with [den] a power of two and
    [0 <= num]: the quotient is exact, and [toFixed] picks the larger
    neighbour on a tie. *)
Definition toFixed1 (num den : Z) : string :=
  let n := (20 * num + den) / (2 * den) in
  showZ (n / 10) ++ "." ++ showZ (n mod 10).

Definition formatSize (bytes : Z) : string :=
  if bytes =? 0 then "0B"
  else if bytes <? 1024 then showZ bytes ++ "B"
  else if bytes <? 1024 * 1024 then toFixed1 bytes 1024 ++ "KB"
  else if bytes <? 1024 * 1024 * 1024 then toFixed1 bytes (1024 * 1024) ++ "MB"
  else toFixed1 bytes (1024 * 1024 * 1024) ++ "GB".

Definition matchesExtFilter (fileName : string) (extFilter : option (list string)) : bool :=
  match extFilter with
  | None | Some [] => true
  | Some exts => existsb (fun ext => endsWith fileName ext) exts
  end.

(** [depth > maxDepth] where [maxDepth] is [options.maxDepth ?? Infinity]
    ([None] stands for [Infinity]). *)
Definition depthExceeds (depth : Z) (maxDepth : option Z) : bool :=
  match maxDepth with
  | None => false
  | Some m => m <? depth
  end.

(** [depth < maxDepth], same convention. *)
Definition depthBelow (depth : Z) (maxDepth : option Z) : bool :=
  match maxDepth with
  | None => true
  | Some m => depth <? m
  end.

(** The literals of [formatEnhancedNode] and [formatStats], as they stand
    in the source file. *)
Definition connectorLast : string := "â””â”€â”€ ".
Definition connectorMiddle : string := "â”œâ”€â”€ ".
Definition childPrefixLast : string := "    ".
Definition childPrefixMiddle : string := "â”‚   ".
Definition summaryIcon : string := "ðŸ“Š".

Section EnhancedFormatter.
Variable localeCompare : string -> string -> Z.

(** The comparator of both [sort] calls: directories first, then files. *)
Definition compareEnhancedNodes (a b : EnhancedTreeNode.t) : Z :=
  if negb (Bool.eqb (EnhancedTreeNode.isDirectory a) (EnhancedTreeNode.isDirectory b))
  then if EnhancedTreeNode.isDirectory a then -1 else 1
  else localeCompare (EnhancedTreeNode.name a) (EnhancedTreeNode.name b).

(** [parent.children.find((c) => c.name === childName)] *)
Definition findEnhancedChild (childName : string) (cs : list EnhancedTreeNode.t)
  : option EnhancedTreeNode.t :=
  findNamed EnhancedTreeNode.name childName cs.

(** In-place update of the node [findEnhancedChild] returns. *)
Definition updateEnhancedChild (childName : string)
  (f : EnhancedTreeNode.t -> EnhancedTreeNode.t)
  (cs : list EnhancedTreeNode.t) : list EnhancedTreeNode.t :=
  updateNamed EnhancedTreeNode.name childName f cs.

(** The node literal both builders create for a missing child. *)
Definition newEnhancedNode (childName : string) (more : bool) (item : GitHubTreeItem)
  (depth : Z) : EnhancedTreeNode.t :=
  let isDirectory := more || ItemType_eqb (type item) tree in
  EnhancedTreeNode.mk childName isDirectory
    (if isDirectory then None else size item) [] depth.

(** The guard [parts.length === 1 && item.type === 'blob' &&
    !matchesExtFilter(parts[0], options.fileExtFilter)]. *)
Definition filteredOut (childName : string) (more : bool) (item : GitHubTreeItem)
  (options : SubTreeOptions) : bool :=
  negb more && ItemType_eqb (type item) blob
  && negb (matchesExtFilter childName (fileExtFilter options)).

(** [addNestedEnhancedNode(parent, path, item, depth, options)], returning
    the mutated parent; [path] is carried as [parts = path.split('/')]. *)
Fixpoint addNestedEnhancedNode (parent : EnhancedTreeNode.t) (parts : list string)
  (item : GitHubTreeItem) (depth : Z) (options : SubTreeOptions)
  : EnhancedTreeNode.t :=
  match parts with
  | [] => parent
  | childName :: rest =>
      let more := match rest with [] => false | _ :: _ => true end in
      if filteredOut childName more item options then parent
      else
        let cs := EnhancedTreeNode.children parent in
        let cs1 :=
          match findEnhancedChild childName cs with
          | Some _ => cs
          | None => (cs ++ [newEnhancedNode childName more item depth])%list
          end in
        let cs2 :=
          if more
          then updateEnhancedChild childName
                 (fun child =>
                    addNestedEnhancedNode (EnhancedTreeNode.setDirectory child)
                      rest item (depth + 1) options) cs1
          else cs1 in
        EnhancedTreeNode.setChildren parent (sort compareEnhancedNodes cs2)
  end.

(** One iteration of the loop of [buildEnhancedTree] on the [childrenMap]. *)
Definition buildEnhancedTreeStep (normalizedDirPath : string) (options : SubTreeOptions)
  (childrenMap : list (string * EnhancedTreeNode.t)) (item : GitHubTreeItem)
  : list (string * EnhancedTreeNode.t) :=
  match relativePath normalizedDirPath item with
  | None => childrenMap
  | Some relPath =>
      match split slash relPath with
      | [] => childrenMap
      | childName :: rest =>
          let more := match rest with [] => false | _ :: _ => true end in
          if filteredOut childName more item options then childrenMap
          else
            let m1 :=
              if Map_has childName childrenMap then childrenMap
              else Map_set childName (newEnhancedNode childName more item 1) childrenMap in
            if more
            then match Map_get childName m1 with
                 | Some node =>
                     Map_set childName
                       (addNestedEnhancedNode (EnhancedTreeNode.setDirectory node)
                          rest item 2 options) m1
                 | None => m1
                 end
            else m1
      end
  end.

Definition buildEnhancedTree (items : list GitHubTreeItem) (dirPath : string)
  (options : SubTreeOptions) : EnhancedTreeNode.t :=
  let normalizedDirPath := normalizePath dirPath in
  let childrenMap :=
    fold_left (buildEnhancedTreeStep normalizedDirPath options) items [] in
  EnhancedTreeNode.mk "" true None
    (sort compareEnhancedNodes (Map_values childrenMap)) 0.
End EnhancedFormatter.

(** [stats.totalDirs++] *)
Definition countDir (stats : TreeStats) : TreeStats :=
  mkStats (totalFiles stats) (totalDirs stats + 1) (totalSize stats)
    (filteredExtensions stats) (depthLimited stats).

(** [stats.totalFiles++; stats.totalSize += child.size ?? 0] *)
Definition countFile (size : option Z) (stats : TreeStats) : TreeStats :=
  mkStats (totalFiles stats + 1) (totalDirs stats)
    (totalSize stats + match size with Some s => s | None => 0 end)
    (filteredExtensions stats) (depthLimited stats).

(** The two echo assignments at the end of [calculateStats]. *)
Definition echoOptions (options : SubTreeOptions) (stats : TreeStats) : TreeStats :=
  let stats1 :=
    match fileExtFilter options with
    | Some (ext :: exts) =>
        mkStats (totalFiles stats) (totalDirs stats) (totalSize stats)
          (Some (ext :: exts)) (depthLimited stats)
    | _ => stats
    end in
  match maxDepth options with
  | Some m =>
      mkStats (totalFiles stats1) (totalDirs stats1) (totalSize stats1)
        (filteredExtensions stats1) (Some m)
  | None => stats1
  end.

(** [calculateStats(node, options, stats)]; the accumulator object is threaded. *)
Fixpoint calculateStats (node : EnhancedTreeNode.t) (options : SubTreeOptions)
  (stats : TreeStats) : TreeStats :=
  match node with
  | EnhancedTreeNode.mk _ _ _ cs _ =>
      let fix loop (cs : list EnhancedTreeNode.t) (stats : TreeStats) : TreeStats :=
        match cs with
        | [] => stats
        | child :: rest =>
            if depthExceeds (EnhancedTreeNode.depth child) (maxDepth options)
            then loop rest stats
            else if EnhancedTreeNode.isDirectory child
            then loop rest (calculateStats child options (countDir stats))
            else loop rest (countFile (EnhancedTreeNode.size child) stats)
        end in
      echoOptions options (loop cs stats)
  end.

Definition emptyStats : TreeStats := mkStats 0 0 0 None None.

Fixpoint calculateDirSize (node : EnhancedTreeNode.t) (maxDepth : option Z) : Z :=
  match node with
  | EnhancedTreeNode.mk _ _ _ cs _ =>
      let fix loop (cs : list EnhancedTreeNode.t) (totalSize : Z) : Z :=
        match cs with
        | [] => totalSize
        | child :: rest =>
            if depthExceeds (EnhancedTreeNode.depth child) maxDepth
            then loop rest totalSize
            else if EnhancedTreeNode.isDirectory child
            then loop rest (totalSize + calculateDirSize child maxDepth)
            else loop rest
                   (totalSize
                    + match EnhancedTreeNode.size child with Some s => s | None => 0 end)
        end in
      loop cs 0
  end.

Fixpoint countDirFiles (node : EnhancedTreeNode.t) (maxDepth : option Z) : Z :=
  match node with
  | EnhancedTreeNode.mk _ _ _ cs _ =>
      let fix loop (cs : list EnhancedTreeNode.t) (count : Z) : Z :=
        match cs with
        | [] => count
        | child :: rest =>
            if depthExceeds (EnhancedTreeNode.depth child) maxDepth
            then loop rest count
            else if EnhancedTreeNode.isDirectory child
            then loop rest (count + countDirFiles child maxDepth)
            else loop rest (count + 1)
        end in
      loop cs 0
  end.

(** The computation of [displayName], which [formatEnhancedNode] and
    [formatSubTree] both spell out. *)
Definition enhancedDisplayName (child : EnhancedTreeNode.t) (options : SubTreeOptions)
  (maxDepth : option Z) : string :=
  let displayName :=
    if EnhancedTreeNode.isDirectory child
    then EnhancedTreeNode.name child ++ "/" else EnhancedTreeNode.name child in
  match showSize options with
  | Some true =>
      if EnhancedTreeNode.isDirectory child
      then
        let dirSize := calculateDirSize child maxDepth in
        let fileCount := countDirFiles child maxDepth in
        if 0 <? fileCount
        then displayName ++ " (" ++ showZ fileCount ++ " "
               ++ (if fileCount =? 1 then "file" else "files") ++ ", "
               ++ formatSize dirSize ++ ")"
        else displayName
      else
        match EnhancedTreeNode.size child with
        | Some s => displayName ++ " (" ++ formatSize s ++ ")"
        | None => displayName
        end
  | _ => displayName
  end.

(** [formatEnhancedNode(node, prefix, options, maxDepth)];
    [formatEnhancedNodeLines] is the array [lines]. *)
Fixpoint formatEnhancedNode (node : EnhancedTreeNode.t) (prefix : string)
  (options : SubTreeOptions) (maxDepth : option Z) : string :=
  match node with
  | EnhancedTreeNode.mk _ _ _ cs _ =>
      let fix formatEnhancedNodeLines (cs : list EnhancedTreeNode.t) : list string :=
        match cs with
        | [] => []
        | child :: rest =>
            if depthExceeds (EnhancedTreeNode.depth child) maxDepth
            then formatEnhancedNodeLines rest
            else
              let isLastChild := match rest with [] => true | _ :: _ => false end in
              let connector := if isLastChild then connectorLast else connectorMiddle in
              let childPrefix :=
                if isLastChild then childPrefixLast else childPrefixMiddle in
              let line := prefix ++ connector ++ enhancedDisplayName child options maxDepth in
              match EnhancedTreeNode.children child with
              | [] => line :: formatEnhancedNodeLines rest
              | _ :: _ =>
                  if depthBelow (EnhancedTreeNode.depth child) maxDepth
                  then
                    match formatEnhancedNode child (prefix ++ childPrefix) options maxDepth with
                    | EmptyString => line :: formatEnhancedNodeLines rest
                    | childFormatted => line :: childFormatted :: formatEnhancedNodeLines rest
                    end
                  else line :: formatEnhancedNodeLines rest
              end
        end in
      join nl (formatEnhancedNodeLines cs)
  end.

Definition formatStats (stats : TreeStats) : string :=
  let dirsPart : string :=
    summaryIcon ++ " Summary: " ++ showZ (totalDirs stats) ++ " "
      ++ (if totalDirs stats =? 1 then "directory" else "directories") in
  let filesPart : string :=
    showZ (totalFiles stats) ++ " "
      ++ (if totalFiles stats =? 1 then "file" else "files") in
  let sizePart : list string :=
    if 0 <? totalSize stats
    then [(formatSize (totalSize stats) ++ " total")%string] else [] in
  let filterPart : list string :=
    match filteredExtensions stats with
    | Some (ext :: exts) => [("(filtered: " ++ join ", " (ext :: exts) ++ ")")%string]
    | _ => []
    end in
  let depthPart : list string :=
    match depthLimited stats with
    | Some d => [("(depth limited to " ++ showZ d ++ ")")%string]
    | None => []
    end in
  join ", " (dirsPart :: filesPart :: sizePart ++ filterPart ++ depthPart)%list.

(** The root-level loop of [formatSubTree]. *)
Fixpoint formatSubTreeLines (cs : list EnhancedTreeNode.t) (options : SubTreeOptions)
  (maxDepth : option Z) : list string :=
  match cs with
  | [] => []
  | child :: rest =>
      let displayName := enhancedDisplayName child options maxDepth in
      match EnhancedTreeNode.children child with
      | [] => displayName :: formatSubTreeLines rest options maxDepth
      | _ :: _ =>
          if depthBelow (EnhancedTreeNode.depth child) maxDepth
          then
            match formatEnhancedNode child "" options maxDepth with
            | EmptyString => displayName :: formatSubTreeLines rest options maxDepth
            | childFormatted =>
                displayName :: childFormatted :: formatSubTreeLines rest options maxDepth
            end
          else displayName :: formatSubTreeLines rest options maxDepth
      end
  end.

(** The part of [formatSubTree] that follows the construction of [tree]. *)
Definition renderEnhancedTree (t : EnhancedTreeNode.t) (options : SubTreeOptions) : string :=
  match EnhancedTreeNode.children t with
  | [] => "(empty directory)"
  | _ :: _ =>
      let result := join nl (formatSubTreeLines (EnhancedTreeNode.children t) options
                               (maxDepth options)) in
      match showStats options with
      | Some false => result
      | _ => result ++ nl ++ nl ++ formatStats (calculateStats t options emptyStats)
      end
  end.

Definition formatSubTree (localeCompare : string -> string -> Z)
  (items : list GitHubTreeItem) (dirPath : string) (options : SubTreeOptions) : string :=
  match items with
  | [] => "(empty directory)"
  | _ :: _ => renderEnhancedTree (buildEnhancedTree localeCompare items dirPath options) options
  end.

(** [options = {}] *)
Definition defaultOptions : SubTreeOptions := mkOptions None None None None.

Definition sampleItems : list GitHubTreeItem :=
  [ mkItem "src" tree None;
    mkItem "src/index.ts" blob (Some 100);
    mkItem "src/utils.ts" blob (Some 200);
    mkItem "README.md" blob (Some 50) ].

(** [hay.includes(needle)], the check behind the test suite's [toContain]. *)
Fixpoint includes (hay needle : string) : bool :=
  String.prefix needle hay
  || match hay with
     | EmptyString => false
     | String _ rest => includes rest needle
     end.

(** [{ showSize: true }] *)
Definition showSizeOptions : SubTreeOptions := mkOptions (Some true) None None None.


(** ** Paths into a built tree *)

(** [stripPrefix p parts] is [Some rest] when [parts = p ++ rest]. *)
Fixpoint stripPrefix (p parts : list string) : option (list string) :=
  match p, parts with
  | [], _ => Some parts
  | k :: p', k' :: parts' => if String.eqb k k' then stripPrefix p' parts' else None
  | _ :: _, [] => None
  end.

(** The node reached from the children list [cs] by following the segments
    of [p], looking each segment up the way the builders do. *)
Fixpoint lookupNode (cs : list TreeNode.t) (p : list string) : option TreeNode.t :=
  match p with
  | [] => None
  | k :: p' =>
      match findNamed TreeNode.name k cs with
      | None => None
      | Some c =>
          match p' with
          | [] => Some c
          | _ :: _ => lookupNode (TreeNode.children c) p'
          end
      end
  end.

Definition directoryFlag (cs : list TreeNode.t) (p : list string) : option bool :=
  option_map TreeNode.isDirectory (lookupNode cs p).

Fixpoint lookupEnhancedNode (cs : list EnhancedTreeNode.t) (p : list string)
  : option EnhancedTreeNode.t :=
  match p with
  | [] => None
  | k :: p' =>
      match findNamed EnhancedTreeNode.name k cs with
      | None => None
      | Some c =>
          match p' with
          | [] => Some c
          | _ :: _ => lookupEnhancedNode (EnhancedTreeNode.children c) p'
          end
      end
  end.

Definition enhancedDirectoryFlag (cs : list EnhancedTreeNode.t) (p : list string)
  : option bool :=
  option_map EnhancedTreeNode.isDirectory (lookupEnhancedNode cs p).

(** The segments of an item's path below the filter root, when selected. *)
Definition entryParts (normalizedDirPath : string) (item : GitHubTreeItem)
  : option (list string) :=
  option_map (split slash) (relativePath normalizedDirPath item).

(** What one entry does to the [isDirectory] flag found at path [p]:
    [rest] is [stripPrefix p parts] for the entry's segments, [keep] tells
    whether the entry's own leaf is inserted, [isTree] its type. *)
Definition flagAfter (old : option bool) (rest : option (list string))
  (keep isTree : bool) : option bool :=
  match rest with
  | None => old
  | Some [] =>
      match old with
      | Some d => Some d
      | None => if keep then Some isTree else None
      end
  | Some (_ :: _) => Some true
  end.

(** The flag at path [p] after the entries of [items], read off the list
    alone; [keeps parts item] tells whether the leaf of [item] is inserted. *)
Definition flagStep (normalizedDirPath : string)
  (keeps : list string -> GitHubTreeItem -> bool) (p : list string)
  (old : option bool) (item : GitHubTreeItem) : option bool :=
  match entryParts normalizedDirPath item with
  | None => old
  | Some parts =>
      flagAfter old (stripPrefix p parts) (keeps parts item)
        (ItemType_eqb (type item) tree)
  end.

Definition flagOf (normalizedDirPath : string)
  (keeps : list string -> GitHubTreeItem -> bool) (items : list GitHubTreeItem)
  (p : list string) : option bool :=
  fold_left (flagStep normalizedDirPath keeps p) items None.

(** The plain builder inserts every leaf. *)
Definition plainKeeps (parts : list string) (item : GitHubTreeItem) : bool := true.

(** The enhanced builder drops the leaf of a blob whose last segment fails
    the extension filter. *)
Definition enhancedKeeps (options : SubTreeOptions) (parts : list string)
  (item : GitHubTreeItem) : bool :=
  negb (filteredOut (last parts "") false item options).

(** Sibling names are pairwise distinct at every level. *)
#[local] Unset Elimination Schemes.
Inductive uniqueNames : TreeNode.t -> Prop :=
| uniqueNames_mk name isDirectory children :
    NoDup (map TreeNode.name children) ->
    Forall uniqueNames children ->
    uniqueNames (TreeNode.mk name isDirectory children).

Inductive uniqueEnhancedNames : EnhancedTreeNode.t -> Prop :=
| uniqueEnhancedNames_mk name isDirectory size children depth :
    NoDup (map EnhancedTreeNode.name children) ->
    Forall uniqueEnhancedNames children ->
    uniqueEnhancedNames (EnhancedTreeNode.mk name isDirectory size children depth).
#[local] Set Elimination Schemes.

(** The children list of [addNestedNode] just before its final [sort]:
    the found-or-pushed child, then the recursive call on it. *)
Definition insertChild (localeCompare : string -> string -> Z)
  (cs : list TreeNode.t) (parts : list string) (isTree : bool) : list TreeNode.t :=
  match parts with
  | [] => cs
  | childName :: rest =>
      let more := match rest with [] => false | _ :: _ => true end in
      let cs1 :=
        match findChild childName cs with
        | Some _ => cs
        | None => (cs ++ [TreeNode.mk childName (more || isTree) []])%list
        end in
      if more
      then updateChild childName
             (fun child =>
                addNestedNode localeCompare (TreeNode.setDirectory child) rest isTree) cs1
      else cs1
  end.

(** The values of [childrenMap] after one iteration of [buildTree]'s loop,
    as a function of the values before it. *)
Definition insertItem (localeCompare : string -> string -> Z)
  (normalizedDirPath : string) (cs : list TreeNode.t) (item : GitHubTreeItem)
  : list TreeNode.t :=
  match entryParts normalizedDirPath item with
  | None => cs
  | Some parts => insertChild localeCompare cs parts (ItemType_eqb (type item) tree)
  end.

(** Every binding of a [childrenMap] maps a name to a node of that name. *)
Definition keyedByName {V : Type} (nameOf : V -> string) (m : list (string * V)) : Prop :=
  Forall (fun kv => nameOf (snd kv) = fst kv) m.

(** The children list of [addNestedEnhancedNode] just before its final
    [sort] (unchanged when the leaf is filtered out). *)
Definition insertEnhancedChild (localeCompare : string -> string -> Z)
  (cs : list EnhancedTreeNode.t) (parts : list string) (item : GitHubTreeItem)
  (depth : Z) (options : SubTreeOptions) : list EnhancedTreeNode.t :=
  match parts with
  | [] => cs
  | childName :: rest =>
      let more := match rest with [] => false | _ :: _ => true end in
      if filteredOut childName more item options then cs
      else
        let cs1 :=
          match findEnhancedChild childName cs with
          | Some _ => cs
          | None => (cs ++ [newEnhancedNode childName more item depth])%list
          end in
        if more
        then updateEnhancedChild childName
               (fun child =>
                  addNestedEnhancedNode localeCompare (EnhancedTreeNode.setDirectory child)
                    rest item (depth + 1) options) cs1
        else cs1
  end.

(** The values of [childrenMap] after one iteration of
    [buildEnhancedTree]'s loop, as a function of the values before it. *)
Definition insertEnhancedItem (localeCompare : string -> string -> Z)
  (normalizedDirPath : string) (options : SubTreeOptions)
  (cs : list EnhancedTreeNode.t) (item : GitHubTreeItem) : list EnhancedTreeNode.t :=
  match entryParts normalizedDirPath item with
  | None => cs
  | Some parts => insertEnhancedChild localeCompare cs parts item 1 options
  end.

(** ** The ordering invariant, in the words of the data model *)

(** Files before directories, names ascending inside each group. *)
Definition filesFirst (localeCompare : string -> string -> Z) (a b : TreeNode.t) : Prop :=
  (TreeNode.isDirectory a = false /\ TreeNode.isDirectory b = true)
  \/ (TreeNode.isDirectory a = TreeNode.isDirectory b
      /\ localeCompare (TreeNode.name a) (TreeNode.name b) <= 0).

(** Directories before files, names ascending inside each group. *)
Definition directoriesFirst (localeCompare : string -> string -> Z)
  (a b : EnhancedTreeNode.t) : Prop :=
  (EnhancedTreeNode.isDirectory a = true /\ EnhancedTreeNode.isDirectory b = false)
  \/ (EnhancedTreeNode.isDirectory a = EnhancedTreeNode.isDirectory b
      /\ localeCompare (EnhancedTreeNode.name a) (EnhancedTreeNode.name b) <= 0).

#[local] Unset Elimination Schemes.
(** Every children list of the tree is ordered by [before]. *)
Inductive sortedTree (before : TreeNode.t -> TreeNode.t -> Prop) : TreeNode.t -> Prop :=
| sortedTree_mk name isDirectory children :
    StronglySorted before children ->
    Forall (sortedTree before) children ->
    sortedTree before (TreeNode.mk name isDirectory children).

Inductive sortedEnhancedTree (before : EnhancedTreeNode.t -> EnhancedTreeNode.t -> Prop)
  : EnhancedTreeNode.t -> Prop :=
| sortedEnhancedTree_mk name isDirectory size children depth :
    StronglySorted before children ->
    Forall (sortedEnhancedTree before) children ->
    sortedEnhancedTree before (EnhancedTreeNode.mk name isDirectory size children depth).
#[local] Set Elimination Schemes.

(** An entry contributes a node at path [p] when it lies strictly below
    [p], or has exactly the path [p] and its leaf is inserted. *)
Definition contributes (normalizedDirPath : string)
  (keeps : list string -> GitHubTreeItem -> bool) (p : list string)
  (item : GitHubTreeItem) : Prop :=
  exists parts rest,
    entryParts normalizedDirPath item = Some parts
    /\ stripPrefix p parts = Some rest
    /\ (rest <> [] \/ keeps parts item = true).

(** [{ fileExtFilter: exts }] *)
Definition filterOptions (exts : list string) : SubTreeOptions :=
  mkOptions None None None (Some exts).

(** ** Rendered entries *)

(** The array [lines] of [formatNode], as a function of the children. *)
Definition formatNodeLines (prefix : string) : list TreeNode.t -> list string :=
  fix formatNodeLines (cs : list TreeNode.t) : list string :=
    match cs with
    | [] => []
    | child :: rest =>
        let isLastChild := match rest with [] => true | _ :: _ => false end in
        let connector := if isLastChild then "└── " else "├── " in
        let childPrefix := if isLastChild then "    " else "│   " in
        let line := prefix ++ connector ++ displayName child in
        match TreeNode.children child with
        | [] => line :: formatNodeLines rest
        | _ :: _ =>
            line :: formatNode child (prefix ++ childPrefix) :: formatNodeLines rest
        end
    end.

(** The nodes [formatNode] prints, in order, each with the prefix and
    connector printed before its name. *)
Fixpoint formatNodeEntries (node : TreeNode.t) (prefix : string)
  : list (string * TreeNode.t) :=
  match node with
  | TreeNode.mk _ _ cs =>
      let fix entries (cs : list TreeNode.t) : list (string * TreeNode.t) :=
        match cs with
        | [] => []
        | child :: rest =>
            let isLastChild := match rest with [] => true | _ :: _ => false end in
            let connector := if isLastChild then "└── " else "├── " in
            let childPrefix := if isLastChild then "    " else "│   " in
            ((prefix ++ connector)%string, child)
              :: (formatNodeEntries child (prefix ++ childPrefix) ++ entries rest)%list
        end in
      entries cs
  end.

Definition formatNodeEntriesOf (prefix : string)
  : list TreeNode.t -> list (string * TreeNode.t) :=
  fix entries (cs : list TreeNode.t) : list (string * TreeNode.t) :=
    match cs with
    | [] => []
    | child :: rest =>
        let isLastChild := match rest with [] => true | _ :: _ => false end in
        let connector := if isLastChild then "└── " else "├── " in
        let childPrefix := if isLastChild then "    " else "│   " in
        ((prefix ++ connector)%string, child)
          :: (formatNodeEntries child (prefix ++ childPrefix) ++ entries rest)%list
    end.

(** The nodes [formatTree] prints: the top-level children carry no
    connector. *)
Fixpoint formatTreeEntries (cs : list TreeNode.t) : list (string * TreeNode.t) :=
  match cs with
  | [] => []
  | child :: rest =>
      (EmptyString, child) :: (formatNodeEntries child "" ++ formatTreeEntries rest)%list
  end.

(** The array [lines] of [formatEnhancedNode], as a function of the children. *)
Definition formatEnhancedNodeLines (prefix : string) (options : SubTreeOptions)
  (maxDepth : option Z) : list EnhancedTreeNode.t -> list string :=
  fix formatEnhancedNodeLines (cs : list EnhancedTreeNode.t) : list string :=
    match cs with
    | [] => []
    | child :: rest =>
        if depthExceeds (EnhancedTreeNode.depth child) maxDepth
        then formatEnhancedNodeLines rest
        else
          let isLastChild := match rest with [] => true | _ :: _ => false end in
          let connector := if isLastChild then connectorLast else connectorMiddle in
          let childPrefix :=
            if isLastChild then childPrefixLast else childPrefixMiddle in
          let line := prefix ++ connector ++ enhancedDisplayName child options maxDepth in
          match EnhancedTreeNode.children child with
          | [] => line :: formatEnhancedNodeLines rest
          | _ :: _ =>
              if depthBelow (EnhancedTreeNode.depth child) maxDepth
              then
                match formatEnhancedNode child (prefix ++ childPrefix) options maxDepth with
                | EmptyString => line :: formatEnhancedNodeLines rest
                | childFormatted => line :: childFormatted :: formatEnhancedNodeLines rest
                end
              else line :: formatEnhancedNodeLines rest
          end
    end.

(** The nodes [formatEnhancedNode] prints, in order, each with the prefix
    and connector printed before its name. *)
Fixpoint formatEnhancedNodeEntries (node : EnhancedTreeNode.t) (prefix : string)
  (maxDepth : option Z) : list (string * EnhancedTreeNode.t) :=
  match node with
  | EnhancedTreeNode.mk _ _ _ cs _ =>
      let fix entries (cs : list EnhancedTreeNode.t) : list (string * EnhancedTreeNode.t) :=
        match cs with
        | [] => []
        | child :: rest =>
            if depthExceeds (EnhancedTreeNode.depth child) maxDepth
            then entries rest
            else
              let isLastChild := match rest with [] => true | _ :: _ => false end in
              let connector := if isLastChild then connectorLast else connectorMiddle in
              let childPrefix :=
                if isLastChild then childPrefixLast else childPrefixMiddle in
              ((prefix ++ connector)%string, child)
                :: ((if depthBelow (EnhancedTreeNode.depth child) maxDepth
                     then formatEnhancedNodeEntries child (prefix ++ childPrefix) maxDepth
                     else []) ++ entries rest)%list
        end in
      entries cs
  end.

Definition formatEnhancedNodeEntriesOf (prefix : string) (maxDepth : option Z)
  : list EnhancedTreeNode.t -> list (string * EnhancedTreeNode.t) :=
  fix entries (cs : list EnhancedTreeNode.t) : list (string * EnhancedTreeNode.t) :=
    match cs with
    | [] => []
    | child :: rest =>
        if depthExceeds (EnhancedTreeNode.depth child) maxDepth
        then entries rest
        else
          let isLastChild := match rest with [] => true | _ :: _ => false end in
          let connector := if isLastChild then connectorLast else connectorMiddle in
          let childPrefix :=
            if isLastChild then childPrefixLast else childPrefixMiddle in
          ((prefix ++ connector)%string, child)
            :: ((if depthBelow (EnhancedTreeNode.depth child) maxDepth
                 then formatEnhancedNodeEntries child (prefix ++ childPrefix) maxDepth
                 else []) ++ entries rest)%list
    end.

(** The nodes [formatSubTree] prints: every top-level child, without
    connector, then what [formatEnhancedNode] prints below it. *)
Fixpoint formatSubTreeEntries (cs : list EnhancedTreeNode.t) (maxDepth : option Z)
  : list (string * EnhancedTreeNode.t) :=
  match cs with
  | [] => []
  | child :: rest =>
      (EmptyString, child)
        :: ((if depthBelow (EnhancedTreeNode.depth child) maxDepth
             then formatEnhancedNodeEntries child "" maxDepth
             else []) ++ formatSubTreeEntries rest maxDepth)%list
  end.

(** [name/] for a directory, [name] for a file. *)
Definition enhancedBaseName (child : EnhancedTreeNode.t) : string :=
  if EnhancedTreeNode.isDirectory child
  then EnhancedTreeNode.name child ++ "/" else EnhancedTreeNode.name child.


(** What follows the tree body in the result of [formatSubTree]. *)
Definition summaryTail (t : EnhancedTreeNode.t) (options : SubTreeOptions) : string :=
  match showStats options with
  | Some false => ""
  | _ => nl ++ nl ++ formatStats (calculateStats t options emptyStats)
  end.

(** What [join] appends after the first element. *)
Definition joinTail (sep : string) (l : list string) : string :=
  match l with
  | [] => ""
  | _ :: _ => sep ++ join sep l
  end.

(** Two arrays of lines that [join] to the same text and are empty together. *)
Definition sameText (l l' : list string) : Prop :=
  join nl l = join nl l' /\ (l = [] <-> l' = []).

(** The text of a printed entry of the plain renderer. *)
Definition plainEntryLine (e : string * TreeNode.t) : string :=
  fst e ++ displayName (snd e).

(** The text of a printed entry of the enhanced renderer. *)
Definition enhancedEntryLine (options : SubTreeOptions) (maxDepth : option Z)
  (e : string * EnhancedTreeNode.t) : string :=
  fst e ++ enhancedDisplayName (snd e) options maxDepth.

(** ** Depth *)

(** The loops of [calculateDirSize], [countDirFiles] and [calculateStats],
    as functions of the children and of the running total. *)
Definition calculateDirSizeLoop (maxDepth : option Z)
  : list EnhancedTreeNode.t -> Z -> Z :=
  fix loop (cs : list EnhancedTreeNode.t) (totalSize : Z) : Z :=
    match cs with
    | [] => totalSize
    | child :: rest =>
        if depthExceeds (EnhancedTreeNode.depth child) maxDepth
        then loop rest totalSize
        else if EnhancedTreeNode.isDirectory child
        then loop rest (totalSize + calculateDirSize child maxDepth)
        else loop rest
               (totalSize
                + match EnhancedTreeNode.size child with Some s => s | None => 0 end)
    end.

Definition countDirFilesLoop (maxDepth : option Z)
  : list EnhancedTreeNode.t -> Z -> Z :=
  fix loop (cs : list EnhancedTreeNode.t) (count : Z) : Z :=
    match cs with
    | [] => count
    | child :: rest =>
        if depthExceeds (EnhancedTreeNode.depth child) maxDepth
        then loop rest count
        else if EnhancedTreeNode.isDirectory child
        then loop rest (count + countDirFiles child maxDepth)
        else loop rest (count + 1)
    end.

Definition calculateStatsLoop (options : SubTreeOptions)
  : list EnhancedTreeNode.t -> TreeStats -> TreeStats :=
  fix loop (cs : list EnhancedTreeNode.t) (stats : TreeStats) : TreeStats :=
    match cs with
    | [] => stats
    | child :: rest =>
        if depthExceeds (EnhancedTreeNode.depth child) (maxDepth options)
        then loop rest stats
        else if EnhancedTreeNode.isDirectory child
        then loop rest (calculateStats child options (countDir stats))
        else loop rest (countFile (EnhancedTreeNode.size child) stats)
    end.



#[local] Unset Elimination Schemes.
(** The node sits at depth [d] and every node below it one level deeper
    than its parent. *)
Inductive depthFrom : Z -> EnhancedTreeNode.t -> Prop :=
| depthFrom_mk d name isDirectory size children :
    Forall (depthFrom (d + 1)) children ->
    depthFrom d (EnhancedTreeNode.mk name isDirectory size children d).

#[local] Set Elimination Schemes.



(** [{ maxDepth: bound }] *)
Definition maxDepthOptions (bound : Z) : SubTreeOptions :=
  mkOptions None (Some bound) None None.



(** ** Names on display *)

(** [name/] for a directory, [name] for a file. *)
Definition shownName (name : string) (isDirectory : bool) : string :=
  if isDirectory then name ++ "/" else name.

(** The names the plain renderer prints, in order. *)
Definition plainNames (localeCompare : string -> string -> Z)
  (items : list GitHubTreeItem) (dirPath : string) : list string :=
  map (fun e => displayName (snd e))
    (formatTreeEntries (TreeNode.children (buildTree localeCompare items dirPath))).

(** The names the enhanced renderer prints, in order. *)
Definition enhancedNames (localeCompare : string -> string -> Z)
  (items : list GitHubTreeItem) (dirPath : string) (options : SubTreeOptions)
  : list string :=
  map (fun e => enhancedBaseName (snd e))
    (formatSubTreeEntries
       (EnhancedTreeNode.children (buildEnhancedTree localeCompare items dirPath options))
       (maxDepth options)).

(** The result of either renderer for a given array of lines. *)
Definition linesOrEmpty (lines : list string) : string :=
  match lines with
  | [] => "(empty directory)"
  | _ :: _ => join nl lines
  end.

(** [{ showStats: false, showSize: false }] *)
Definition bareOptions : SubTreeOptions := mkOptions (Some false) None (Some false) None.

(** ** The summary line, in the words of the renderer's contract *)

Definition summaryLine (icon : string) (dirs files size : Z)
  (filter : option (list string)) (depthBound : option Z) : string :=
  icon ++ " Summary: " ++ showZ dirs ++ " "
    ++ (if dirs =? 1 then "directory" else "directories")
    ++ ", " ++ showZ files ++ " " ++ (if files =? 1 then "file" else "files")
    ++ (if 0 <? size then ", " ++ formatSize size ++ " total" else "")
    ++ match filter with
       | Some (ext :: exts) => ", (filtered: " ++ join ", " (ext :: exts) ++ ")"
       | _ => ""
       end
    ++ match depthBound with
       | Some n => ", (depth limited to " ++ showZ n ++ ")"
       | None => ""
       end.

(** The entries of the service's unit test "should format tree with basic
    statistics". *)
Definition basicStatisticsItems : list GitHubTreeItem :=
  [ mkItem "file1.ts" blob (Some 1024); mkItem "file2.ts" blob (Some 2048) ].

(** ** Inputs of the test suites *)

(** "should format nested directories" and "should handle nested directories
    with all options". *)
Definition nestedItems : list GitHubTreeItem :=
  [ mkItem "src" tree None;
    mkItem "src/components" tree None;
    mkItem "src/components/Button.tsx" blob (Some 8192);
    mkItem "src/utils" tree None;
    mkItem "src/utils/helpers.ts" blob (Some 2048);
    mkItem "README.md" blob (Some 1024) ].

(** "should filter tree by directory path". *)
Definition twoDirectoriesItems : list GitHubTreeItem :=
  [ mkItem "src" tree None;
    mkItem "src/index.ts" blob (Some 100);
    mkItem "tests" tree None;
    mkItem "tests/test.ts" blob (Some 200) ].

(** "should limit depth when maxDepth is specified". *)
Definition depthItems : list GitHubTreeItem :=
  [ mkItem "src" tree None;
    mkItem "src/components" tree None;
    mkItem "src/components/Button.tsx" blob (Some 100);
    mkItem "src/utils.ts" blob (Some 200) ].

(** "should filter files by extension". *)
Definition extensionItems : list GitHubTreeItem :=
  [ mkItem "file1.ts" blob (Some 100);
    mkItem "file2.js" blob (Some 200);
    mkItem "file3.md" blob (Some 300) ].

(** ** config/arguments.ts *)

(** [interface RepoIdentifier]. *)
Record RepoIdentifier : Set := mkRepoIdentifier {
  owner : string;
  repo : string;
  branch : string
}.

(** The messages of the three [throw new Error(...)]. *)
Definition invalidFormatError : string :=
  "Invalid repoIdentifier format. Expected: ownerName/repoName/branchName".
Definition emptyPartError : string :=
  "Invalid repoIdentifier: owner, repo, and branch must not be empty".
Definition missingValueError : string :=
  "--repoIdentifier flag requires a value".

(** [parseRepoIdentifier(repoIdentifier)]: [inl message] stands for the
    thrown [Error]. *)
Definition parseRepoIdentifier (repoIdentifier : string) : string + RepoIdentifier :=
  match split slash repoIdentifier with
  | [owner; repo; branch] =>
      if String.eqb owner "" || String.eqb repo "" || String.eqb branch ""
      then inl emptyPartError
      else inr (mkRepoIdentifier owner repo branch)
  | _ => inl invalidFormatError
  end.

(** [args.findIndex(p)], with [None] for [-1]. *)
Fixpoint findIndex {A : Type} (p : A -> bool) (l : list A) : option nat :=
  match l with
  | [] => None
  | x :: l' =>
      if p x then Some O
      else match findIndex p l' with
           | Some i => Some (S i)
           | None => None
           end
  end.

(** [parseArgs(args)]: [inr None] stands for [undefined]. *)
Definition parseArgs (args : list string) : string + option RepoIdentifier :=
  match findIndex (fun arg => String.eqb arg "--repoIdentifier") args with
  | None => inr None
  | Some repoIdentifierIndex =>
      match nth_error args (repoIdentifierIndex + 1) with
      | None => inl missingValueError
      | Some repoIdentifierValue =>
          if String.eqb repoIdentifierValue "" || startsWith repoIdentifierValue "--"
          then inl missingValueError
          else match parseRepoIdentifier repoIdentifierValue with
               | inl message => inl message
               | inr parsed => inr (Some parsed)
               end
      end
  end.

(** The number of occurrences of a character. *)
Fixpoint countChar (c : ascii) (s : string) : nat :=
  match s with
  | EmptyString => O
  | String c' rest => if Ascii.eqb c' c then S (countChar c rest) else countChar c rest
  end.

(** The string holds nothing but slashes and backslashes. *)
Fixpoint onlySlashes (s : string) : bool :=
  match s with
  | EmptyString => true
  | String c rest => (Ascii.eqb c slash || Ascii.eqb c backslash) && onlySlashes rest
  end.

(** The last character of a string, if any. *)
Fixpoint lastChar (s : string) : option ascii :=
  match s with
  | EmptyString => None
  | String c EmptyString => Some c
  | String _ rest => lastChar rest
  end.

(** ** Further invariants of the built trees *)

#[local] Unset Elimination Schemes.
(** A node that is not a directory has no children, at every level. *)
Inductive filesAreLeaves : TreeNode.t -> Prop :=
| filesAreLeaves_mk name isDirectory children :
    (isDirectory = false -> children = []) ->
    Forall filesAreLeaves children ->
    filesAreLeaves (TreeNode.mk name isDirectory children).

Inductive enhancedFilesAreLeaves : EnhancedTreeNode.t -> Prop :=
| enhancedFilesAreLeaves_mk name isDirectory size children depth :
    (isDirectory = false -> children = []) ->
    Forall enhancedFilesAreLeaves children ->
    enhancedFilesAreLeaves (EnhancedTreeNode.mk name isDirectory size children depth).
#[local] Set Elimination Schemes.

(** ** Printed entries, counted *)

(** The sum of [f] over the nodes of a list of printed entries. *)
Definition tally (f : EnhancedTreeNode.t -> Z)
  (entries : list (string * EnhancedTreeNode.t)) : Z :=
  fold_right (fun e total => f (snd e) + total) 0 entries.

(** The number of directories among the printed entries. *)
Definition printedDirs : list (string * EnhancedTreeNode.t) -> Z :=
  tally (fun node => if EnhancedTreeNode.isDirectory node then 1 else 0).

(** The number of files among the printed entries. *)
Definition printedFiles : list (string * EnhancedTreeNode.t) -> Z :=
  tally (fun node => if EnhancedTreeNode.isDirectory node then 0 else 1).

(** The sizes of the printed files, summed; a file without size counts 0. *)
Definition printedSize : list (string * EnhancedTreeNode.t) -> Z :=
  tally (fun node =>
           if EnhancedTreeNode.isDirectory node then 0
           else match EnhancedTreeNode.size node with Some s => s | None => 0 end).

(** The counts of [stats] are those of [stats0] plus those of [entries]. *)
Definition countsAdd (stats0 : TreeStats) (entries : list (string * EnhancedTreeNode.t))
  (stats : TreeStats) : Prop :=
  totalDirs stats = totalDirs stats0 + printedDirs entries
  /\ totalFiles stats = totalFiles stats0 + printedFiles entries
  /\ totalSize stats = totalSize stats0 + printedSize entries.


(** The entries [formatSubTree] prints for [items] under [dirPath]. *)
Definition printedEntries (localeCompare : string -> string -> Z)
  (items : list GitHubTreeItem) (dirPath : string) (options : SubTreeOptions)
  : list (string * EnhancedTreeNode.t) :=
  formatSubTreeEntries
    (EnhancedTreeNode.children (buildEnhancedTree localeCompare items dirPath options))
    (maxDepth options).

(** The statistics [formatSubTree] computes for its summary. *)
Definition summaryStats (localeCompare : string -> string -> Z)
  (items : list GitHubTreeItem) (dirPath : string) (options : SubTreeOptions)
  : TreeStats :=
  calculateStats (buildEnhancedTree localeCompare items dirPath options) options emptyStats.

(** ** The filter path *)



(** ** The order of the entries *)

(** Entries of one path have one type. *)
Definition typedByPath (items : list GitHubTreeItem) : Prop :=
  forall a b, In a items -> In b items -> path a = path b -> type a = type b.

(** ** The extension filter *)

(** [{ ...options, fileExtFilter: exts }] *)
Definition withFileExtFilter (options : SubTreeOptions) (exts : option (list string))
  : SubTreeOptions :=
  mkOptions (showSize options) (maxDepth options) (showStats options) exts.

(** ** Sizes, path by path *)

(** The [size] field of the node at path [p], when there is one. *)
Definition enhancedSizeAt (cs : list EnhancedTreeNode.t) (p : list string)
  : option (option Z) :=
  option_map EnhancedTreeNode.size (lookupEnhancedNode cs p).

(** What one entry does to the [size] found at path [p]: a node keeps the
    size it was created with; it is created with the entry's size by a
    file entry of exactly that path, without size otherwise. *)
Definition sizeAfter (old : option (option Z)) (rest : option (list string))
  (keep isTree : bool) (size : option Z) : option (option Z) :=
  match rest with
  | None => old
  | Some [] =>
      match old with
      | Some s => Some s
      | None => if keep then Some (if isTree then None else size) else None
      end
  | Some (_ :: _) =>
      match old with
      | Some s => Some s
      | None => Some None
      end
  end.

Definition sizeStep (normalizedDirPath : string)
  (keeps : list string -> GitHubTreeItem -> bool) (p : list string)
  (old : option (option Z)) (item : GitHubTreeItem) : option (option Z) :=
  match entryParts normalizedDirPath item with
  | None => old
  | Some parts =>
      sizeAfter old (stripPrefix p parts) (keeps parts item)
        (ItemType_eqb (type item) tree) (size item)
  end.

Definition sizeOf (normalizedDirPath : string)
  (keeps : list string -> GitHubTreeItem -> bool) (items : list GitHubTreeItem)
  (p : list string) : option (option Z) :=
  fold_left (sizeStep normalizedDirPath keeps p) items None.

(** Entries of one path have one size. *)
Definition sizedByPath (items : list GitHubTreeItem) : Prop :=
  forall a b, In a items -> In b items -> path a = path b -> size a = size b.

(** No entry lies below a file entry. *)
Definition filesAreLeafEntries (items : list GitHubTreeItem) : Prop :=
  forall a b, In a items -> In b items -> type a = blob ->
              startsWith (path b) (path a ++ "/") = false.
(** * Properties *)

(** ** Strings and paths *)

Lemma split_not_nil (sep : ascii) (s : string) : split sep s <> [].
Proof.
  destruct s as [|c s]; simpl; [discriminate|].
  destruct (Ascii.eqb c sep); [discriminate|].
  destruct (split sep s); discriminate.
Qed.

Lemma split_parts_no_sep (sep : ascii) (s : string) :
  Forall (fun part => ~ In sep (list_ascii_of_string part)) (split sep s).
Proof.
  induction s as [|c s IH]; simpl.
  - repeat constructor. simpl. tauto.
  - destruct (Ascii.eqb c sep) eqn:E.
    + constructor; [simpl; tauto|exact IH].
    + apply Ascii.eqb_neq in E.
      destruct (split sep s) as [|hd tl].
      * repeat constructor. simpl. intros [H|[]]. congruence.
      * inversion IH as [|? ? Hhd Htl]; subst. constructor; [|exact Htl].
        simpl. intros [H|H]; [congruence|contradiction].
Qed.

Lemma split_app_sep (sep : ascii) (x s : string) :
  ~ In sep (list_ascii_of_string x) ->
  split sep (x ++ String sep s) = x :: split sep s.
Proof.
  induction x as [|c x IH]; simpl; intros Hx.
  - rewrite Ascii.eqb_refl. reflexivity.
  - destruct (Ascii.eqb c sep) eqn:E.
    + apply Ascii.eqb_eq in E. elim Hx. auto.
    + rewrite IH by tauto. reflexivity.
Qed.

Lemma split_no_sep (sep : ascii) (x : string) :
  ~ In sep (list_ascii_of_string x) -> split sep x = [x].
Proof.
  induction x as [|c x IH]; simpl; intros Hx; [reflexivity|].
  destruct (Ascii.eqb c sep) eqn:E.
  - apply Ascii.eqb_eq in E. elim Hx. auto.
  - rewrite IH by tauto. reflexivity.
Qed.

(** [parts.join('/').split('/')] gives [parts] back: this is what lets
    [addNestedNode] and [addNestedEnhancedNode] carry the split path. *)
Lemma split_join (parts : list string) :
  parts <> [] ->
  Forall (fun part => ~ In slash (list_ascii_of_string part)) parts ->
  split slash (join "/" parts) = parts.
Proof.
  induction parts as [|x parts IH]; intros Hne Hall; [congruence|].
  inversion Hall as [|? ? Hx Hparts]; subst.
  destruct parts as [|y parts].
  - simpl. apply split_no_sep, Hx.
  - change (join "/" (x :: y :: parts)) with (x ++ String slash (join "/" (y :: parts)))%string.
    rewrite split_app_sep by exact Hx. rewrite IH by (discriminate || assumption).
    reflexivity.
Qed.

Lemma split_slice_join (relPath childName : string) (rest : list string) :
  split slash relPath = childName :: rest -> rest <> [] ->
  split slash (join "/" rest) = rest.
Proof.
  intros Hsplit Hne. apply split_join; [exact Hne|].
  pose proof (split_parts_no_sep slash relPath) as Hall. rewrite Hsplit in Hall.
  inversion Hall; assumption.
Qed.

(** The cases of [tests/unit/utils/path-utils.test.ts]. *)
Example normalizePath_tests :
  normalizePath "/path/to/file.ts" = "path/to/file.ts"
  /\ normalizePath "path/to/dir/" = "path/to/dir"
  /\ normalizePath "/path/to/dir/" = "path/to/dir"
  /\ normalizePath "file.ts" = "file.ts"
  /\ normalizePath "" = ""
  /\ normalizePath "/" = ""
  /\ normalizePath "///path/to/file.ts" = "path/to/file.ts"
  /\ normalizePath "path/to/dir///" = "path/to/dir"
  /\ normalizePath "path\to\file.ts" = "path/to/file.ts"
  /\ normalizePath "path/to\file.ts" = "path/to/file.ts".
Proof. repeat split; reflexivity. Qed.

(** The sizes the test suite and the specification quote. *)
Example formatSize_tests :
  formatSize 0 = "0B" /\ formatSize 100 = "100B" /\ formatSize 1024 = "1.0KB"
  /\ formatSize 3072 = "3.0KB" /\ formatSize 8192 = "8.0KB"
  /\ formatSize 5242880 = "5.0MB" /\ formatSize 1073741824 = "1.0GB".
Proof. repeat split; vm_compute; reflexivity. Qed.

(** ** Sorting *)

Section SortFacts.
Context {A : Type} (compare : A -> A -> Z).

Lemma insertSorted_Permutation (x : A) (l : list A) :
  Permutation (insertSorted compare x l) (x :: l).
Proof.
  induction l as [|y l IH]; simpl.
  - apply Permutation_refl.
  - destruct (compare x y <=? 0).
    + apply Permutation_refl.
    + eapply perm_trans; [apply perm_skip, IH | apply perm_swap].
Qed.

Lemma sort_Permutation (l : list A) : Permutation (sort compare l) l.
Proof.
  induction l as [|x l IH]; simpl.
  - constructor.
  - eapply perm_trans; [apply insertSorted_Permutation | apply perm_skip, IH].
Qed.

Lemma sort_In (l : list A) (x : A) : In x (sort compare l) <-> In x l.
Proof.
  split; apply Permutation_in;
    [apply sort_Permutation | apply Permutation_sym, sort_Permutation].
Qed.

Lemma sort_Forall (P : A -> Prop) (l : list A) :
  Forall P l -> Forall P (sort compare l).
Proof.
  intros H. eapply Permutation_Forall; [|exact H].
  apply Permutation_sym, sort_Permutation.
Qed.

Lemma sort_nil_iff (l : list A) : sort compare l = [] <-> l = [].
Proof.
  split; intros H.
  - apply Permutation_nil. rewrite <- H. apply sort_Permutation.
  - subst. reflexivity.
Qed.

Section Ordered.
Hypothesis compare_total : forall x y, compare x y <= 0 \/ compare y x <= 0.
Hypothesis compare_trans :
  forall x y z, compare x y <= 0 -> compare y z <= 0 -> compare x z <= 0.

Lemma insertSorted_Sorted (x : A) (l : list A) :
  Sorted (precedes compare) l -> Sorted (precedes compare) (insertSorted compare x l).
Proof.
  induction l as [|y l IH]; simpl; intros Hs.
  - repeat constructor.
  - destruct (compare x y <=? 0) eqn:E.
    + constructor; [exact Hs|]. constructor. apply Z.leb_le, E.
    + apply Z.leb_gt in E.
      inversion Hs as [|? ? Hs' Hhd]; subst.
      constructor; [apply IH, Hs'|].
      assert (Hyx : precedes compare y x).
      { destruct (compare_total x y) as [H|H]; [lia|exact H]. }
      destruct l as [|z l]; simpl.
      * constructor. exact Hyx.
      * destruct (compare x z <=? 0); constructor; [exact Hyx|].
        inversion Hhd; assumption.
Qed.

Lemma sort_Sorted (l : list A) : Sorted (precedes compare) (sort compare l).
Proof.
  induction l as [|x l IH]; simpl.
  - constructor.
  - apply insertSorted_Sorted, IH.
Qed.

Lemma sort_StronglySorted (l : list A) : StronglySorted (precedes compare) (sort compare l).
Proof.
  apply Sorted_StronglySorted; [|apply sort_Sorted].
  intros x y z. apply compare_trans.
Qed.
End Ordered.
End SortFacts.

(** ** Lists of named nodes *)

Section NamedListFacts.
Context {A : Type} (nameOf : A -> string).

Lemma findNamed_Some (k : string) (l : list A) (c : A) :
  findNamed nameOf k l = Some c -> In c l /\ nameOf c = k.
Proof.
  unfold findNamed. intros H. apply find_some in H.
  destruct H as [Hin Heq]. apply String.eqb_eq in Heq. auto.
Qed.

Lemma findNamed_None (k : string) (l : list A) :
  findNamed nameOf k l = None <-> ~ In k (map nameOf l).
Proof.
  unfold findNamed. induction l as [|c l IH]; simpl.
  - tauto.
  - destruct (String.eqb (nameOf c) k) eqn:E.
    + apply String.eqb_eq in E. split; [discriminate|]. intros H. elim H. auto.
    + apply String.eqb_neq in E. rewrite IH. tauto.
Qed.

Lemma findNamed_unique (k : string) (l : list A) (c : A) :
  NoDup (map nameOf l) -> In c l -> nameOf c = k -> findNamed nameOf k l = Some c.
Proof.
  unfold findNamed. induction l as [|c' l IH]; simpl; intros Hnd Hin Hk.
  - contradiction.
  - inversion Hnd as [|? ? Hnotin Hnd']; subst.
    destruct Hin as [->|Hin].
    + rewrite String.eqb_refl. reflexivity.
    + destruct (String.eqb (nameOf c') (nameOf c)) eqn:E.
      * apply String.eqb_eq in E. elim Hnotin. rewrite E. apply in_map, Hin.
      * apply IH; auto.
Qed.

Lemma findNamed_Permutation (k : string) (l l' : list A) :
  NoDup (map nameOf l) -> Permutation l l' ->
  findNamed nameOf k l' = findNamed nameOf k l.
Proof.
  intros Hnd Hperm.
  destruct (findNamed nameOf k l) as [c|] eqn:E.
  - apply findNamed_Some in E. destruct E as [Hin Hk].
    apply findNamed_unique; auto.
    + eapply Permutation_NoDup; [apply Permutation_map, Hperm | exact Hnd].
    + eapply Permutation_in; eauto.
  - apply findNamed_None. apply findNamed_None in E.
    intros Hin. apply E.
    eapply Permutation_in; [apply Permutation_sym, Permutation_map, Hperm | exact Hin].
Qed.

Lemma findNamed_sort (compare : A -> A -> Z) (k : string) (l : list A) :
  NoDup (map nameOf l) ->
  findNamed nameOf k (sort compare l) = findNamed nameOf k l.
Proof.
  intros Hnd. apply findNamed_Permutation; [exact Hnd|].
  apply Permutation_sym, sort_Permutation.
Qed.

Lemma findNamed_app (k : string) (l l' : list A) :
  findNamed nameOf k (l ++ l')
  = match findNamed nameOf k l with
    | Some c => Some c
    | None => findNamed nameOf k l'
    end.
Proof.
  unfold findNamed. induction l as [|c l IH]; simpl; [reflexivity|].
  destruct (String.eqb (nameOf c) k); [reflexivity|exact IH].
Qed.

Lemma updateNamed_names (k : string) (f : A -> A) (l : list A) :
  (forall c, nameOf (f c) = nameOf c) ->
  map nameOf (updateNamed nameOf k f l) = map nameOf l.
Proof.
  intros Hf. induction l as [|c l IH]; simpl; [reflexivity|].
  destruct (String.eqb (nameOf c) k); simpl; [rewrite Hf|rewrite IH]; reflexivity.
Qed.

Lemma findNamed_updateNamed_same (k : string) (f : A -> A) (l : list A) :
  (forall c, nameOf (f c) = nameOf c) ->
  findNamed nameOf k (updateNamed nameOf k f l) = option_map f (findNamed nameOf k l).
Proof.
  intros Hf. unfold findNamed. induction l as [|c l IH]; simpl; [reflexivity|].
  destruct (String.eqb (nameOf c) k) eqn:E; simpl.
  - rewrite Hf, E. reflexivity.
  - rewrite E. exact IH.
Qed.

Lemma findNamed_updateNamed_other (k k' : string) (f : A -> A) (l : list A) :
  (forall c, nameOf (f c) = nameOf c) -> k' <> k ->
  findNamed nameOf k' (updateNamed nameOf k f l) = findNamed nameOf k' l.
Proof.
  intros Hf Hne. unfold findNamed. induction l as [|c l IH]; simpl; [reflexivity|].
  destruct (String.eqb (nameOf c) k) eqn:E; simpl.
  - rewrite Hf. apply String.eqb_eq in E. subst k.
    apply String.eqb_neq in Hne. rewrite String.eqb_sym, Hne. reflexivity.
  - destruct (String.eqb (nameOf c) k'); [reflexivity|exact IH].
Qed.

Lemma updateNamed_Forall (P : A -> Prop) (k : string) (f : A -> A) (l : list A) :
  Forall P l -> (forall c, P c -> P (f c)) -> Forall P (updateNamed nameOf k f l).
Proof.
  intros Hl Hf. induction Hl as [|c l Hc Hl IH]; simpl; [constructor|].
  destruct (String.eqb (nameOf c) k); constructor; auto.
Qed.

Lemma NoDup_names_snoc (l : list A) (c : A) :
  NoDup (map nameOf l) -> findNamed nameOf (nameOf c) l = None ->
  NoDup (map nameOf (l ++ [c])).
Proof.
  intros Hnd Hnone. apply findNamed_None in Hnone.
  rewrite map_app. simpl.
  apply NoDup_app; [exact Hnd | repeat constructor; simpl; tauto |].
  intros x Hx [<-|[]]. contradiction.
Qed.
End NamedListFacts.

(** ** Concrete runs *)

(** C5: on the four sample entries, with the empty filter path, the plain
    renderer returns exactly the lines [README.md], [src/], [├── index.ts],
    [└── utils.ts] joined by newlines, whatever collation [localeCompare]
    implements as long as it puts [index.ts] before [utils.ts]. *)
Theorem formatTree_sample (localeCompare : string -> string -> Z) :
  localeCompare "index.ts" "utils.ts" <= 0 ->
  formatTree localeCompare sampleItems ""
  = join nl ["README.md"; "src/"; "├── index.ts"; "└── utils.ts"].
Proof.
  intros H. apply Z.leb_le in H.
  lazy -[Z.leb]. rewrite H. reflexivity.
Qed.

Lemma formatTree_sample_witness :
  codepointCompare "index.ts" "utils.ts" <= 0
  /\ formatTree codepointCompare sampleItems ""
     = join nl ["README.md"; "src/"; "├── index.ts"; "└── utils.ts"].
Proof.
  split.
  - vm_compute. discriminate.
  - apply formatTree_sample. vm_compute. discriminate.
Defined.

(** C2 (as stated, refuted): the enhanced rendering of the sample entries
    with [showSize] contains no annotation [(2 files, 3.0KB)]: the two files
    under [src] weigh 300 bytes together. *)
Lemma formatSubTree_sample_no_3KB :
  includes (formatSubTree codepointCompare sampleItems "" showSizeOptions)
    "(2 files, 3.0KB)" = false.
Proof. vm_compute. reflexivity. Qed.

(** C2 (amended): on the sample entries with [showSize: true] the enhanced
    renderer returns the line [src/ (2 files, 300B)], the two lines of its
    files ending in [index.ts (100B)] and [utils.ts (200B)], the line
    [README.md (50B)], a blank line and the summary. *)
Theorem formatSubTree_sample (localeCompare : string -> string -> Z) :
  localeCompare "index.ts" "utils.ts" <= 0 ->
  formatSubTree localeCompare sampleItems "" showSizeOptions
  = join nl [ "src/ (2 files, 300B)";
              connectorMiddle ++ "index.ts (100B)";
              connectorLast ++ "utils.ts (200B)";
              "README.md (50B)";
              "";
              summaryIcon ++ " Summary: 1 directory, 3 files, 350B total" ].
Proof.
  intros H. apply Z.leb_le in H.
  assert (E : buildEnhancedTree localeCompare sampleItems "" showSizeOptions
              = EnhancedTreeNode.mk "" true None
                  [ EnhancedTreeNode.mk "src" true None
                      [ EnhancedTreeNode.mk "index.ts" false (Some 100) [] 2;
                        EnhancedTreeNode.mk "utils.ts" false (Some 200) [] 2 ] 1;
                    EnhancedTreeNode.mk "README.md" false (Some 50) [] 1 ] 0).
  { lazy -[Z.leb]. rewrite H. reflexivity. }
  change (formatSubTree localeCompare sampleItems "" showSizeOptions)
    with (renderEnhancedTree
            (buildEnhancedTree localeCompare sampleItems "" showSizeOptions)
            showSizeOptions).
  rewrite E. vm_compute. reflexivity.
Qed.

Lemma formatSubTree_sample_witness :
  codepointCompare "index.ts" "utils.ts" <= 0
  /\ formatSubTree codepointCompare sampleItems "" showSizeOptions
     = join nl [ "src/ (2 files, 300B)";
                 connectorMiddle ++ "index.ts (100B)";
                 connectorLast ++ "utils.ts (200B)";
                 "README.md (50B)";
                 "";
                 summaryIcon ++ " Summary: 1 directory, 3 files, 350B total" ].
Proof.
  split.
  - vm_compute. discriminate.
  - apply formatSubTree_sample. vm_compute. discriminate.
Defined.

(** Cases of [tests/unit/services/tree-formatter.test.ts]. *)
Example formatTree_tests :
  formatTree codepointCompare [] "" = "(empty directory)"
  /\ formatTree codepointCompare basicStatisticsItems "" = join nl ["file1.ts"; "file2.ts"]
  /\ formatTree codepointCompare (removelast nestedItems) ""
     = join nl [ "src/";
                 "├── components/";
                 "│   └── Button.tsx";
                 "└── utils/";
                 "    └── helpers.ts" ]
  /\ formatTree codepointCompare twoDirectoriesItems "src" = "index.ts".
Proof. repeat split; vm_compute; reflexivity. Qed.

(** Cases of [tests/unit/services/enhanced-tree-formatter.test.ts]. *)
Example formatSubTree_tests :
  formatSubTree codepointCompare [] "" defaultOptions = "(empty directory)"
  /\ includes (formatSubTree codepointCompare basicStatisticsItems "" showSizeOptions)
       "file1.ts (1.0KB)" = true
  /\ includes (formatSubTree codepointCompare depthItems "" (maxDepthOptions 1)) "src/" = true
  /\ includes (formatSubTree codepointCompare depthItems "" (maxDepthOptions 1))
       "components/" = false
  /\ includes (formatSubTree codepointCompare depthItems "" (maxDepthOptions 1))
       "utils.ts" = false
  /\ includes (formatSubTree codepointCompare depthItems "" (maxDepthOptions 1))
       "(depth limited to 1)" = true
  /\ includes (formatSubTree codepointCompare extensionItems ""
                 (filterOptions [".ts"; ".js"])) "file3.md" = false
  /\ includes (formatSubTree codepointCompare extensionItems ""
                 (filterOptions [".ts"; ".js"])) "(filtered: .ts, .js)" = true
  /\ includes (formatSubTree codepointCompare nestedItems ""
                 (mkOptions (Some true) (Some 2) (Some true) None))
       "README.md (1.0KB)" = true
  /\ includes (formatSubTree codepointCompare twoDirectoriesItems "src" defaultOptions)
       "tests" = false.
Proof. repeat split; vm_compute; reflexivity. Qed.

(** ** Insertion-ordered maps *)

Section JsMapFacts.
Context {V : Type} (nameOf : V -> string).

Lemma Map_get_values (k : string) (m : list (string * V)) :
  keyedByName nameOf m -> Map_get k m = findNamed nameOf k (Map_values m).
Proof.
  unfold findNamed, Map_values. induction 1 as [|[k' v] m Hk Hm IH]; simpl.
  - reflexivity.
  - simpl in Hk. rewrite Hk. destruct (String.eqb k' k); [reflexivity|exact IH].
Qed.

Lemma Map_values_set_new (k : string) (v : V) (m : list (string * V)) :
  Map_get k m = None -> Map_values (Map_set k v m) = (Map_values m ++ [v])%list.
Proof.
  unfold Map_values. induction m as [|[k' v'] m IH]; simpl; intros H.
  - reflexivity.
  - destruct (String.eqb k' k); [discriminate|]. simpl. rewrite IH; auto.
Qed.

Lemma Map_values_set_old (k : string) (f : V -> V) (node : V) (m : list (string * V)) :
  keyedByName nameOf m -> Map_get k m = Some node ->
  Map_values (Map_set k (f node) m) = updateNamed nameOf k f (Map_values m).
Proof.
  unfold Map_values. induction 1 as [|[k' v'] m Hk Hm IH]; simpl; intros H.
  - discriminate.
  - simpl in Hk. rewrite Hk. destruct (String.eqb k' k).
    + injection H as ->. reflexivity.
    + simpl. rewrite IH; auto.
Qed.

Lemma Map_get_set_same (k : string) (v : V) (m : list (string * V)) :
  Map_get k (Map_set k v m) = Some v.
Proof.
  induction m as [|[k' v'] m IH]; simpl.
  - rewrite String.eqb_refl. reflexivity.
  - destruct (String.eqb k' k) eqn:E; simpl.
    + rewrite String.eqb_refl. reflexivity.
    + rewrite E. exact IH.
Qed.

Lemma Map_set_keyed (k : string) (v : V) (m : list (string * V)) :
  keyedByName nameOf m -> nameOf v = k -> keyedByName nameOf (Map_set k v m).
Proof.
  unfold keyedByName. induction 1 as [|[k' v'] m Hk Hm IH]; simpl; intros Hv.
  - repeat constructor. exact Hv.
  - destruct (String.eqb k' k); constructor; auto.
Qed.
End JsMapFacts.

(** ** The plain builder, path by path *)

Section PlainBuilderFacts.
Variable localeCompare : string -> string -> Z.

Lemma addNestedNode_insertChild (parent : TreeNode.t) (parts : list string)
  (isTree : bool) :
  addNestedNode localeCompare parent parts isTree
  = match parts with
    | [] => parent
    | _ :: _ =>
        TreeNode.setChildren parent
          (sort (compareNodes localeCompare)
             (insertChild localeCompare (TreeNode.children parent) parts isTree))
    end.
Proof. destruct parts; reflexivity. Qed.

Lemma addNestedNode_name (parent : TreeNode.t) (parts : list string) (isTree : bool) :
  TreeNode.name (addNestedNode localeCompare parent parts isTree) = TreeNode.name parent.
Proof. destruct parts; reflexivity. Qed.

Lemma addNestedNode_isDirectory (parent : TreeNode.t) (parts : list string)
  (isTree : bool) :
  TreeNode.isDirectory (addNestedNode localeCompare parent parts isTree)
  = TreeNode.isDirectory parent.
Proof. destruct parts; reflexivity. Qed.

Lemma uniqueNames_children (n : TreeNode.t) :
  uniqueNames n ->
  NoDup (map TreeNode.name (TreeNode.children n))
  /\ Forall uniqueNames (TreeNode.children n).
Proof. intros H. inversion H; subst. simpl. auto. Qed.

Lemma uniqueNames_sorted (compare : TreeNode.t -> TreeNode.t -> Z)
  (name : string) (isDirectory : bool) (cs : list TreeNode.t) :
  NoDup (map TreeNode.name cs) -> Forall uniqueNames cs ->
  uniqueNames (TreeNode.mk name isDirectory (sort compare cs)).
Proof.
  intros Hnd Hall. constructor.
  - eapply Permutation_NoDup; [|exact Hnd].
    apply Permutation_map, Permutation_sym, sort_Permutation.
  - apply sort_Forall, Hall.
Qed.

Lemma insertChild_unique (isTree : bool) (parts : list string) :
  forall cs,
    NoDup (map TreeNode.name cs) -> Forall uniqueNames cs ->
    NoDup (map TreeNode.name (insertChild localeCompare cs parts isTree))
    /\ Forall uniqueNames (insertChild localeCompare cs parts isTree).
Proof.
  induction parts as [|k rest IH]; intros cs Hnd Hall; simpl; [auto|].
  set (new := TreeNode.mk k ((match rest with [] => false | _ :: _ => true end) || isTree) []).
  assert (H1 : NoDup (map TreeNode.name
                        (match findChild k cs with Some _ => cs | None => cs ++ [new] end)%list)
               /\ Forall uniqueNames
                    (match findChild k cs with Some _ => cs | None => cs ++ [new] end)%list).
  { destruct (findChild k cs) eqn:E; [auto|]. split.
    - apply NoDup_names_snoc; [exact Hnd|exact E].
    - apply Forall_app. split; [exact Hall|]. repeat constructor. }
  destruct H1 as [Hnd1 Hall1].
  destruct rest as [|k2 rest2]; [auto|].
  unfold updateChild. split.
  - rewrite updateNamed_names; [exact Hnd1|].
    intros c. rewrite addNestedNode_name. reflexivity.
  - apply updateNamed_Forall; [exact Hall1|].
    intros c Hc. rewrite addNestedNode_insertChild.
    apply uniqueNames_children in Hc. destruct Hc as [Hc1 Hc2].
    destruct (IH (TreeNode.children c) Hc1 Hc2) as [Hi1 Hi2].
    apply uniqueNames_sorted; assumption.
Qed.

Lemma lookupNode_sort (compare : TreeNode.t -> TreeNode.t -> Z)
  (cs : list TreeNode.t) (p : list string) :
  NoDup (map TreeNode.name cs) -> lookupNode (sort compare cs) p = lookupNode cs p.
Proof.
  intros Hnd. destruct p as [|k p']; simpl; [reflexivity|].
  rewrite findNamed_sort; [reflexivity|exact Hnd].
Qed.

Lemma directoryFlag_sort (compare : TreeNode.t -> TreeNode.t -> Z)
  (cs : list TreeNode.t) (p : list string) :
  NoDup (map TreeNode.name cs) -> directoryFlag (sort compare cs) p = directoryFlag cs p.
Proof. intros Hnd. unfold directoryFlag. rewrite lookupNode_sort; auto. Qed.

Lemma directoryFlag_cons (cs : list TreeNode.t) (k : string) (p : list string) :
  directoryFlag cs (k :: p)
  = match findNamed TreeNode.name k cs with
    | None => None
    | Some c =>
        match p with
        | [] => Some (TreeNode.isDirectory c)
        | _ :: _ => directoryFlag (TreeNode.children c) p
        end
    end.
Proof.
  unfold directoryFlag. simpl.
  destruct (findNamed TreeNode.name k cs); [|reflexivity].
  destruct p; reflexivity.
Qed.

Lemma directoryFlag_nil (p : list string) : directoryFlag [] p = None.
Proof. destruct p; reflexivity. Qed.

(** The child [addNestedNode] works on: the one found, or the one pushed. *)
Lemma findNamed_pushed (k k' : string) (cs : list TreeNode.t) (new : TreeNode.t) :
  TreeNode.name new = k ->
  findNamed TreeNode.name k'
    (match findChild k cs with Some _ => cs | None => cs ++ [new] end)%list
  = if String.eqb k' k
    then Some (match findChild k cs with Some c => c | None => new end)
    else findNamed TreeNode.name k' cs.
Proof.
  intros Hnew. unfold findChild.
  destruct (String.eqb k' k) eqn:E.
  - apply String.eqb_eq in E. subst k'.
    destruct (findNamed TreeNode.name k cs) eqn:F; [exact F|].
    rewrite findNamed_app, F. unfold findNamed. simpl.
    rewrite Hnew, String.eqb_refl. reflexivity.
  - destruct (findNamed TreeNode.name k cs) eqn:F; [reflexivity|].
    rewrite findNamed_app.
    destruct (findNamed TreeNode.name k' cs); [reflexivity|].
    unfold findNamed. simpl. rewrite Hnew, String.eqb_sym, E. reflexivity.
Qed.

(** The flag at any path after one insertion. *)
Lemma directoryFlag_insertChild (isTree : bool) (parts : list string) :
  forall cs p,
    NoDup (map TreeNode.name cs) -> Forall uniqueNames cs -> p <> [] ->
    directoryFlag (insertChild localeCompare cs parts isTree) p
    = flagAfter (directoryFlag cs p) (stripPrefix p parts) true isTree.
Proof.
  induction parts as [|k rest IH]; intros cs p Hnd Hall Hp;
    destruct p as [|k' p']; try congruence.
  - reflexivity.
  - cbn [insertChild stripPrefix].
    set (new := TreeNode.mk k ((match rest with [] => false | _ :: _ => true end) || isTree) []).
    assert (Hnew : TreeNode.name new = k) by reflexivity.
    pose proof (findNamed_pushed k k' cs new Hnew) as Hpush.
    assert (Hf : forall c, TreeNode.name
                   (addNestedNode localeCompare (TreeNode.setDirectory c) rest isTree)
                 = TreeNode.name c).
    { intros c. rewrite addNestedNode_name. reflexivity. }
    rewrite !directoryFlag_cons.
    destruct (String.eqb k' k) eqn:E.
    + (* the path enters the child being inserted *)
      apply String.eqb_eq in E. subst k'.
      destruct rest as [|k3 rest3].
      * (* the entry ends here *)
        rewrite Hpush. subst new. unfold findChild.
        destruct (findNamed TreeNode.name k cs) as [c|] eqn:F.
        -- destruct p' as [|k2 p2]; reflexivity.
        -- destruct p' as [|k2 p2]; [reflexivity|].
           cbn [TreeNode.children]. rewrite directoryFlag_nil. reflexivity.
      * (* the entry goes deeper *)
        unfold updateChild. rewrite findNamed_updateNamed_same by exact Hf.
        rewrite Hpush. cbn [option_map].
        rewrite addNestedNode_insertChild.
        set (c1 := match findChild k cs with Some c => c | None => new end).
        assert (Hc1 : uniqueNames c1).
        { subst c1. unfold findChild.
          destruct (findNamed TreeNode.name k cs) as [c|] eqn:F.
          - apply findNamed_Some in F. destruct F as [Hin _].
            rewrite Forall_forall in Hall. apply Hall, Hin.
          - subst new. repeat constructor. }
        apply uniqueNames_children in Hc1. destruct Hc1 as [Hu1 Hu2].
        destruct p' as [|k2 p2]; [reflexivity|].
        cbn [TreeNode.children TreeNode.setChildren TreeNode.setDirectory].
        rewrite directoryFlag_sort
          by (apply insertChild_unique; assumption).
        rewrite IH by (assumption || discriminate).
        subst c1. unfold findChild.
        destruct (findNamed TreeNode.name k cs) as [c|] eqn:F; [reflexivity|].
        subst new. cbn [TreeNode.children]. rewrite directoryFlag_nil. reflexivity.
    + (* the path leaves through another child *)
      assert (Hother : findNamed TreeNode.name k'
                         (if match rest with [] => false | _ :: _ => true end
                          then updateChild k
                                 (fun child => addNestedNode localeCompare
                                    (TreeNode.setDirectory child) rest isTree)
                                 (match findChild k cs with
                                  | Some _ => cs | None => cs ++ [new] end)%list
                          else (match findChild k cs with
                                | Some _ => cs | None => cs ++ [new] end)%list)
                       = findNamed TreeNode.name k' cs).
      { destruct rest as [|k3 rest3]; [exact Hpush|].
        unfold updateChild. rewrite findNamed_updateNamed_other; [exact Hpush|exact Hf|].
        apply String.eqb_neq, E. }
      rewrite Hother. reflexivity.
Qed.

Lemma buildTreeStep_values (nd : string) (m : list (string * TreeNode.t))
  (item : GitHubTreeItem) :
  keyedByName TreeNode.name m ->
  keyedByName TreeNode.name (buildTreeStep localeCompare nd m item)
  /\ Map_values (buildTreeStep localeCompare nd m item)
     = insertItem localeCompare nd (Map_values m) item.
Proof.
  intros Hk. unfold buildTreeStep, insertItem, entryParts.
  destruct (relativePath nd item) as [relPath|]; cbn [option_map]; [|auto].
  destruct (split slash relPath) as [|k rest]; [auto|].
  cbn [insertChild]. unfold Map_has, findChild, updateChild.
  rewrite <- (Map_get_values TreeNode.name k m Hk).
  set (isTree := ItemType_eqb (type item) tree).
  set (more := match rest with [] => false | _ :: _ => true end).
  set (f := fun child => addNestedNode localeCompare (TreeNode.setDirectory child) rest isTree).
  assert (Hf : forall c, TreeNode.name (f c) = TreeNode.name c).
  { intros c. unfold f. rewrite addNestedNode_name. reflexivity. }
  destruct (Map_get k m) as [node|] eqn:G.
  - destruct more; [|auto]. rewrite G. split.
    + apply Map_set_keyed; [exact Hk|]. change (TreeNode.name (f node) = k).
      rewrite Hf. rewrite (Map_get_values TreeNode.name k m Hk) in G.
      apply findNamed_Some in G. tauto.
    + apply (Map_values_set_old TreeNode.name k f node m Hk G).
  - set (new := TreeNode.mk k (more || isTree) []).
    assert (Hk1 : keyedByName TreeNode.name (Map_set k new m)).
    { apply Map_set_keyed; [exact Hk|reflexivity]. }
    destruct more.
    + rewrite Map_get_set_same. split.
      * apply Map_set_keyed; [exact Hk1|]. change (TreeNode.name (f new) = k).
        rewrite Hf. reflexivity.
      * rewrite <- (Map_values_set_new k new m G).
        apply (Map_values_set_old TreeNode.name k f new _ Hk1 (Map_get_set_same k new m)).
    + split; [exact Hk1|]. apply (Map_values_set_new k new m G).
Qed.

Lemma buildTree_values (nd : string) (items : list GitHubTreeItem) :
  forall m,
    keyedByName TreeNode.name m ->
    Map_values (fold_left (buildTreeStep localeCompare nd) items m)
    = fold_left (insertItem localeCompare nd) items (Map_values m).
Proof.
  induction items as [|item items IH]; intros m Hk; simpl; [reflexivity|].
  destruct (buildTreeStep_values nd m item Hk) as [Hk' Hv].
  rewrite IH by exact Hk'. rewrite Hv. reflexivity.
Qed.

Lemma buildTree_children (items : list GitHubTreeItem) (dirPath : string) :
  TreeNode.children (buildTree localeCompare items dirPath)
  = sort (compareNodes localeCompare)
      (fold_left (insertItem localeCompare (normalizePath dirPath)) items []).
Proof.
  unfold buildTree. cbn [TreeNode.children].
  rewrite buildTree_values by constructor. reflexivity.
Qed.

Lemma insertItem_unique (nd : string) (cs : list TreeNode.t) (item : GitHubTreeItem) :
  NoDup (map TreeNode.name cs) -> Forall uniqueNames cs ->
  NoDup (map TreeNode.name (insertItem localeCompare nd cs item))
  /\ Forall uniqueNames (insertItem localeCompare nd cs item).
Proof.
  intros Hnd Hall. unfold insertItem.
  destruct (entryParts nd item); [|auto].
  apply insertChild_unique; assumption.
Qed.

Lemma insertItems_unique (nd : string) (items : list GitHubTreeItem) :
  forall cs,
    NoDup (map TreeNode.name cs) -> Forall uniqueNames cs ->
    NoDup (map TreeNode.name (fold_left (insertItem localeCompare nd) items cs))
    /\ Forall uniqueNames (fold_left (insertItem localeCompare nd) items cs).
Proof.
  induction items as [|item items IH]; intros cs Hnd Hall; simpl; [auto|].
  destruct (insertItem_unique nd cs item Hnd Hall) as [H1 H2].
  apply IH; assumption.
Qed.

Lemma buildTree_uniqueNames (items : list GitHubTreeItem) (dirPath : string) :
  uniqueNames (buildTree localeCompare items dirPath).
Proof.
  unfold buildTree. rewrite buildTree_values by constructor.
  destruct (insertItems_unique (normalizePath dirPath) items [])
    as [H1 H2]; [constructor|constructor|].
  apply uniqueNames_sorted; assumption.
Qed.

Lemma directoryFlag_insertItems (nd : string) (p : list string)
  (items : list GitHubTreeItem) :
  p <> [] ->
  forall cs,
    NoDup (map TreeNode.name cs) -> Forall uniqueNames cs ->
    directoryFlag (fold_left (insertItem localeCompare nd) items cs) p
    = fold_left (flagStep nd plainKeeps p) items (directoryFlag cs p).
Proof.
  intros Hp. induction items as [|item items IH]; intros cs Hnd Hall; simpl;
    [reflexivity|].
  destruct (insertItem_unique nd cs item Hnd Hall) as [H1 H2].
  rewrite IH by assumption. f_equal.
  unfold insertItem, flagStep.
  destruct (entryParts nd item) as [parts|]; [|reflexivity].
  apply directoryFlag_insertChild; assumption.
Qed.

(** The flags of the tree [buildTree] returns are those read off the
    entry list. *)
Lemma directoryFlag_buildTree (items : list GitHubTreeItem) (dirPath : string)
  (p : list string) :
  p <> [] ->
  directoryFlag (TreeNode.children (buildTree localeCompare items dirPath)) p
  = flagOf (normalizePath dirPath) plainKeeps items p.
Proof.
  intros Hp. rewrite buildTree_children.
  destruct (insertItems_unique (normalizePath dirPath) items [])
    as [H1 H2]; [constructor|constructor|].
  rewrite directoryFlag_sort by exact H1.
  rewrite directoryFlag_insertItems by (assumption || constructor).
  rewrite directoryFlag_nil. reflexivity.
Qed.
End PlainBuilderFacts.

(** ** The enhanced builder, path by path *)

Section EnhancedBuilderFacts.
Variable localeCompare : string -> string -> Z.

Lemma addNestedEnhancedNode_insertEnhancedChild (parent : EnhancedTreeNode.t)
  (parts : list string) (item : GitHubTreeItem) (depth : Z) (options : SubTreeOptions) :
  addNestedEnhancedNode localeCompare parent parts item depth options
  = match parts with
    | [] => parent
    | childName :: rest =>
        if filteredOut childName (match rest with [] => false | _ :: _ => true end)
             item options
        then parent
        else EnhancedTreeNode.setChildren parent
               (sort (compareEnhancedNodes localeCompare)
                  (insertEnhancedChild localeCompare (EnhancedTreeNode.children parent)
                     parts item depth options))
    end.
Proof.
  destruct parts as [|k rest]; [reflexivity|]. simpl.
  destruct (filteredOut k _ item options); reflexivity.
Qed.

Lemma addNestedEnhancedNode_name parent parts item depth options :
  EnhancedTreeNode.name (addNestedEnhancedNode localeCompare parent parts item depth options)
  = EnhancedTreeNode.name parent.
Proof.
  rewrite addNestedEnhancedNode_insertEnhancedChild.
  destruct parts as [|k rest]; [reflexivity|].
  destruct (filteredOut k _ item options); reflexivity.
Qed.

Lemma addNestedEnhancedNode_isDirectory parent parts item depth options :
  EnhancedTreeNode.isDirectory
    (addNestedEnhancedNode localeCompare parent parts item depth options)
  = EnhancedTreeNode.isDirectory parent.
Proof.
  rewrite addNestedEnhancedNode_insertEnhancedChild.
  destruct parts as [|k rest]; [reflexivity|].
  destruct (filteredOut k _ item options); reflexivity.
Qed.

Lemma addNestedEnhancedNode_depth parent parts item depth options :
  EnhancedTreeNode.depth
    (addNestedEnhancedNode localeCompare parent parts item depth options)
  = EnhancedTreeNode.depth parent.
Proof.
  rewrite addNestedEnhancedNode_insertEnhancedChild.
  destruct parts as [|k rest]; [reflexivity|].
  destruct (filteredOut k _ item options); reflexivity.
Qed.

Lemma filteredOut_more (k : string) (item : GitHubTreeItem) (options : SubTreeOptions) :
  filteredOut k true item options = false.
Proof. reflexivity. Qed.

Lemma uniqueEnhancedNames_children (n : EnhancedTreeNode.t) :
  uniqueEnhancedNames n ->
  NoDup (map EnhancedTreeNode.name (EnhancedTreeNode.children n))
  /\ Forall uniqueEnhancedNames (EnhancedTreeNode.children n).
Proof. intros H. inversion H; subst. simpl. auto. Qed.

Lemma uniqueEnhancedNames_sorted (compare : EnhancedTreeNode.t -> EnhancedTreeNode.t -> Z)
  name isDirectory size (cs : list EnhancedTreeNode.t) depth :
  NoDup (map EnhancedTreeNode.name cs) -> Forall uniqueEnhancedNames cs ->
  uniqueEnhancedNames (EnhancedTreeNode.mk name isDirectory size (sort compare cs) depth).
Proof.
  intros Hnd Hall. constructor.
  - eapply Permutation_NoDup; [|exact Hnd].
    apply Permutation_map, Permutation_sym, sort_Permutation.
  - apply sort_Forall, Hall.
Qed.

Lemma insertEnhancedChild_unique (item : GitHubTreeItem) (options : SubTreeOptions)
  (parts : list string) :
  forall cs depth,
    NoDup (map EnhancedTreeNode.name cs) -> Forall uniqueEnhancedNames cs ->
    NoDup (map EnhancedTreeNode.name
             (insertEnhancedChild localeCompare cs parts item depth options))
    /\ Forall uniqueEnhancedNames
         (insertEnhancedChild localeCompare cs parts item depth options).
Proof.
  induction parts as [|k rest IH]; intros cs depth Hnd Hall; simpl; [auto|].
  destruct (filteredOut k _ item options); [auto|].
  set (new := newEnhancedNode k (match rest with [] => false | _ :: _ => true end)
                item depth).
  assert (H1 : NoDup (map EnhancedTreeNode.name
                        (match findEnhancedChild k cs with
                         | Some _ => cs | None => cs ++ [new] end)%list)
               /\ Forall uniqueEnhancedNames
                    (match findEnhancedChild k cs with
                     | Some _ => cs | None => cs ++ [new] end)%list).
  { destruct (findEnhancedChild k cs) eqn:E; [auto|]. split.
    - apply NoDup_names_snoc; [exact Hnd|exact E].
    - apply Forall_app. split; [exact Hall|]. repeat constructor. }
  destruct H1 as [Hnd1 Hall1].
  destruct rest as [|k2 rest2]; [auto|].
  unfold updateEnhancedChild. split.
  - rewrite updateNamed_names; [exact Hnd1|].
    intros c. rewrite addNestedEnhancedNode_name. reflexivity.
  - apply updateNamed_Forall; [exact Hall1|].
    intros c Hc. rewrite addNestedEnhancedNode_insertEnhancedChild.
    destruct (filteredOut k2 _ item options).
    + inversion Hc; subst. constructor; assumption.
    + apply uniqueEnhancedNames_children in Hc. destruct Hc as [Hc1 Hc2].
      destruct (IH (EnhancedTreeNode.children c) (depth + 1) Hc1 Hc2) as [Hi1 Hi2].
      apply uniqueEnhancedNames_sorted; assumption.
Qed.

Lemma lookupEnhancedNode_sort (compare : EnhancedTreeNode.t -> EnhancedTreeNode.t -> Z)
  (cs : list EnhancedTreeNode.t) (p : list string) :
  NoDup (map EnhancedTreeNode.name cs) ->
  lookupEnhancedNode (sort compare cs) p = lookupEnhancedNode cs p.
Proof.
  intros Hnd. destruct p as [|k p']; simpl; [reflexivity|].
  rewrite findNamed_sort; [reflexivity|exact Hnd].
Qed.

Lemma enhancedDirectoryFlag_sort (compare : EnhancedTreeNode.t -> EnhancedTreeNode.t -> Z)
  (cs : list EnhancedTreeNode.t) (p : list string) :
  NoDup (map EnhancedTreeNode.name cs) ->
  enhancedDirectoryFlag (sort compare cs) p = enhancedDirectoryFlag cs p.
Proof. intros Hnd. unfold enhancedDirectoryFlag. rewrite lookupEnhancedNode_sort; auto. Qed.

Lemma enhancedDirectoryFlag_cons (cs : list EnhancedTreeNode.t) (k : string)
  (p : list string) :
  enhancedDirectoryFlag cs (k :: p)
  = match findNamed EnhancedTreeNode.name k cs with
    | None => None
    | Some c =>
        match p with
        | [] => Some (EnhancedTreeNode.isDirectory c)
        | _ :: _ => enhancedDirectoryFlag (EnhancedTreeNode.children c) p
        end
    end.
Proof.
  unfold enhancedDirectoryFlag. simpl.
  destruct (findNamed EnhancedTreeNode.name k cs); [|reflexivity].
  destruct p; reflexivity.
Qed.

Lemma enhancedDirectoryFlag_nil (p : list string) : enhancedDirectoryFlag [] p = None.
Proof. destruct p; reflexivity. Qed.

Lemma findNamed_pushed_enhanced (k k' : string) (cs : list EnhancedTreeNode.t)
  (new : EnhancedTreeNode.t) :
  EnhancedTreeNode.name new = k ->
  findNamed EnhancedTreeNode.name k'
    (match findEnhancedChild k cs with Some _ => cs | None => cs ++ [new] end)%list
  = if String.eqb k' k
    then Some (match findEnhancedChild k cs with Some c => c | None => new end)
    else findNamed EnhancedTreeNode.name k' cs.
Proof.
  intros Hnew. unfold findEnhancedChild.
  destruct (String.eqb k' k) eqn:E.
  - apply String.eqb_eq in E. subst k'.
    destruct (findNamed EnhancedTreeNode.name k cs) eqn:F; [exact F|].
    rewrite findNamed_app, F. unfold findNamed. simpl.
    rewrite Hnew, String.eqb_refl. reflexivity.
  - destruct (findNamed EnhancedTreeNode.name k cs) eqn:F; [reflexivity|].
    rewrite findNamed_app.
    destruct (findNamed EnhancedTreeNode.name k' cs); [reflexivity|].
    unfold findNamed. simpl. rewrite Hnew, String.eqb_sym, E. reflexivity.
Qed.

Lemma flagAfter_dropped (old : option bool) (rest : option (list string)) (isTree : bool) :
  match rest with Some (_ :: _) => False | _ => True end ->
  flagAfter old rest false isTree = old.
Proof.
  destruct rest as [[|? ?]|]; simpl; try tauto.
  destruct old; reflexivity.
Qed.

Lemma enhancedDirectoryFlag_addNested parent parts item depth options p :
  NoDup (map EnhancedTreeNode.name (EnhancedTreeNode.children parent)) ->
  Forall uniqueEnhancedNames (EnhancedTreeNode.children parent) ->
  enhancedDirectoryFlag
    (EnhancedTreeNode.children
       (addNestedEnhancedNode localeCompare parent parts item depth options)) p
  = enhancedDirectoryFlag
      (insertEnhancedChild localeCompare (EnhancedTreeNode.children parent)
         parts item depth options) p.
Proof.
  intros Hnd Hall. rewrite addNestedEnhancedNode_insertEnhancedChild.
  destruct parts as [|k rest]; [reflexivity|].
  destruct (filteredOut k _ item options) eqn:E.
  - cbn [insertEnhancedChild]. rewrite E. reflexivity.
  - cbn [EnhancedTreeNode.children EnhancedTreeNode.setChildren].
    apply enhancedDirectoryFlag_sort.
    apply insertEnhancedChild_unique; assumption.
Qed.

(** The flag at any path after one insertion. *)
Lemma enhancedDirectoryFlag_insertEnhancedChild (item : GitHubTreeItem)
  (options : SubTreeOptions) (parts : list string) :
  forall cs depth p,
    NoDup (map EnhancedTreeNode.name cs) -> Forall uniqueEnhancedNames cs -> p <> [] ->
    enhancedDirectoryFlag (insertEnhancedChild localeCompare cs parts item depth options) p
    = flagAfter (enhancedDirectoryFlag cs p) (stripPrefix p parts)
        (enhancedKeeps options parts item) (ItemType_eqb (type item) tree).
Proof.
  induction parts as [|k rest IH]; intros cs depth p Hnd Hall Hp;
    destruct p as [|k' p']; try congruence.
  - reflexivity.
  - cbn [insertEnhancedChild stripPrefix].
    destruct (filteredOut k (match rest with [] => false | _ :: _ => true end)
                item options) eqn:Hfilt.
    { (* the leaf is dropped: nothing changes *)
      destruct rest as [|k3 rest3]; [|discriminate].
      unfold enhancedKeeps. cbn [last]. rewrite Hfilt. cbn [negb].
      symmetry. apply flagAfter_dropped.
      destruct (String.eqb k' k); [|exact I].
      destruct p'; exact I. }
    set (more := match rest with [] => false | _ :: _ => true end) in *.
    set (new := newEnhancedNode k more item depth).
    assert (Hnew : EnhancedTreeNode.name new = k) by reflexivity.
    pose proof (findNamed_pushed_enhanced k k' cs new Hnew) as Hpush.
    assert (Hf : forall c, EnhancedTreeNode.name
                   (addNestedEnhancedNode localeCompare (EnhancedTreeNode.setDirectory c)
                      rest item (depth + 1) options)
                 = EnhancedTreeNode.name c).
    { intros c. rewrite addNestedEnhancedNode_name. reflexivity. }
    rewrite !enhancedDirectoryFlag_cons.
    destruct (String.eqb k' k) eqn:E.
    + apply String.eqb_eq in E. subst k'.
      destruct rest as [|k3 rest3].
      * (* the entry ends here and its leaf is kept *)
        subst more. cbv iota. rewrite Hpush.
        unfold enhancedKeeps. cbn [last]. rewrite Hfilt. cbn [negb].
        subst new. unfold findEnhancedChild, newEnhancedNode.
        destruct (findNamed EnhancedTreeNode.name k cs) as [c|] eqn:F.
        -- destruct p' as [|k2 p2]; reflexivity.
        -- destruct p' as [|k2 p2]; [reflexivity|].
           cbn [EnhancedTreeNode.children]. rewrite enhancedDirectoryFlag_nil.
           reflexivity.
      * (* the entry goes deeper *)
        subst more. cbv iota.
        unfold updateEnhancedChild. rewrite findNamed_updateNamed_same by exact Hf.
        rewrite Hpush. cbn [option_map].
        set (c1 := match findEnhancedChild k cs with Some c => c | None => new end).
        assert (Hc1 : uniqueEnhancedNames c1).
        { subst c1. unfold findEnhancedChild.
          destruct (findNamed EnhancedTreeNode.name k cs) as [c|] eqn:F.
          - apply findNamed_Some in F. destruct F as [Hin _].
            rewrite Forall_forall in Hall. apply Hall, Hin.
          - subst new. repeat constructor. }
        apply uniqueEnhancedNames_children in Hc1. destruct Hc1 as [Hu1 Hu2].
        destruct p' as [|k2 p2].
        -- rewrite addNestedEnhancedNode_isDirectory. reflexivity.
        -- rewrite enhancedDirectoryFlag_addNested by assumption.
           cbn [EnhancedTreeNode.children EnhancedTreeNode.setDirectory].
           rewrite IH by (assumption || discriminate).
           change (enhancedKeeps options (k :: k3 :: rest3) item)
             with (enhancedKeeps options (k3 :: rest3) item).
           subst c1. unfold findEnhancedChild.
           destruct (findNamed EnhancedTreeNode.name k cs) as [c|] eqn:F; [reflexivity|].
           subst new. cbn [EnhancedTreeNode.children newEnhancedNode].
           rewrite enhancedDirectoryFlag_nil. reflexivity.
    + assert (Hother : findNamed EnhancedTreeNode.name k'
                         (if more
                          then updateEnhancedChild k
                                 (fun child => addNestedEnhancedNode localeCompare
                                    (EnhancedTreeNode.setDirectory child) rest item
                                    (depth + 1) options)
                                 (match findEnhancedChild k cs with
                                  | Some _ => cs | None => cs ++ [new] end)%list
                          else (match findEnhancedChild k cs with
                                | Some _ => cs | None => cs ++ [new] end)%list)
                       = findNamed EnhancedTreeNode.name k' cs).
      { destruct more; [|exact Hpush].
        unfold updateEnhancedChild.
        rewrite findNamed_updateNamed_other; [exact Hpush|exact Hf|].
        apply String.eqb_neq, E. }
      rewrite Hother. reflexivity.
Qed.

Lemma buildEnhancedTreeStep_values (nd : string) (options : SubTreeOptions)
  (m : list (string * EnhancedTreeNode.t)) (item : GitHubTreeItem) :
  keyedByName EnhancedTreeNode.name m ->
  keyedByName EnhancedTreeNode.name (buildEnhancedTreeStep localeCompare nd options m item)
  /\ Map_values (buildEnhancedTreeStep localeCompare nd options m item)
     = insertEnhancedItem localeCompare nd options (Map_values m) item.
Proof.
  intros Hk. unfold buildEnhancedTreeStep, insertEnhancedItem, entryParts.
  destruct (relativePath nd item) as [relPath|]; cbn [option_map]; [|auto].
  destruct (split slash relPath) as [|k rest]; [auto|].
  cbn [insertEnhancedChild]. unfold Map_has, findEnhancedChild, updateEnhancedChild.
  rewrite <- (Map_get_values EnhancedTreeNode.name k m Hk).
  set (more := match rest with [] => false | _ :: _ => true end).
  destruct (filteredOut k more item options); [auto|].
  change (1 + 1) with 2.
  set (f := fun child => addNestedEnhancedNode localeCompare
              (EnhancedTreeNode.setDirectory child) rest item 2 options).
  assert (Hf : forall c, EnhancedTreeNode.name (f c) = EnhancedTreeNode.name c).
  { intros c. unfold f. rewrite addNestedEnhancedNode_name. reflexivity. }
  destruct (Map_get k m) as [node|] eqn:G.
  - destruct more; [|auto]. rewrite G. split.
    + apply Map_set_keyed; [exact Hk|]. change (EnhancedTreeNode.name (f node) = k).
      rewrite Hf. rewrite (Map_get_values EnhancedTreeNode.name k m Hk) in G.
      apply findNamed_Some in G. tauto.
    + apply (Map_values_set_old EnhancedTreeNode.name k f node m Hk G).
  - set (new := newEnhancedNode k more item 1).
    assert (Hk1 : keyedByName EnhancedTreeNode.name (Map_set k new m)).
    { apply Map_set_keyed; [exact Hk|reflexivity]. }
    destruct more.
    + rewrite Map_get_set_same. split.
      * apply Map_set_keyed; [exact Hk1|]. change (EnhancedTreeNode.name (f new) = k).
        rewrite Hf. reflexivity.
      * rewrite <- (Map_values_set_new k new m G).
        apply (Map_values_set_old EnhancedTreeNode.name k f new _ Hk1
                 (Map_get_set_same k new m)).
    + split; [exact Hk1|]. apply (Map_values_set_new k new m G).
Qed.

Lemma buildEnhancedTree_values (nd : string) (options : SubTreeOptions)
  (items : list GitHubTreeItem) :
  forall m,
    keyedByName EnhancedTreeNode.name m ->
    Map_values (fold_left (buildEnhancedTreeStep localeCompare nd options) items m)
    = fold_left (insertEnhancedItem localeCompare nd options) items (Map_values m).
Proof.
  induction items as [|item items IH]; intros m Hk; simpl; [reflexivity|].
  destruct (buildEnhancedTreeStep_values nd options m item Hk) as [Hk' Hv].
  rewrite IH by exact Hk'. rewrite Hv. reflexivity.
Qed.

Lemma buildEnhancedTree_children items dirPath options :
  EnhancedTreeNode.children (buildEnhancedTree localeCompare items dirPath options)
  = sort (compareEnhancedNodes localeCompare)
      (fold_left (insertEnhancedItem localeCompare (normalizePath dirPath) options)
         items []).
Proof.
  unfold buildEnhancedTree. cbn [EnhancedTreeNode.children].
  rewrite buildEnhancedTree_values by constructor. reflexivity.
Qed.

Lemma insertEnhancedItem_unique nd options (cs : list EnhancedTreeNode.t) item :
  NoDup (map EnhancedTreeNode.name cs) -> Forall uniqueEnhancedNames cs ->
  NoDup (map EnhancedTreeNode.name (insertEnhancedItem localeCompare nd options cs item))
  /\ Forall uniqueEnhancedNames (insertEnhancedItem localeCompare nd options cs item).
Proof.
  intros Hnd Hall. unfold insertEnhancedItem.
  destruct (entryParts nd item); [|auto].
  apply insertEnhancedChild_unique; assumption.
Qed.

Lemma insertEnhancedItems_unique nd options (items : list GitHubTreeItem) :
  forall cs,
    NoDup (map EnhancedTreeNode.name cs) -> Forall uniqueEnhancedNames cs ->
    NoDup (map EnhancedTreeNode.name
             (fold_left (insertEnhancedItem localeCompare nd options) items cs))
    /\ Forall uniqueEnhancedNames
         (fold_left (insertEnhancedItem localeCompare nd options) items cs).
Proof.
  induction items as [|item items IH]; intros cs Hnd Hall; simpl; [auto|].
  destruct (insertEnhancedItem_unique nd options cs item Hnd Hall) as [H1 H2].
  apply IH; assumption.
Qed.

Lemma buildEnhancedTree_uniqueNames items dirPath options :
  uniqueEnhancedNames (buildEnhancedTree localeCompare items dirPath options).
Proof.
  unfold buildEnhancedTree. rewrite buildEnhancedTree_values by constructor.
  destruct (insertEnhancedItems_unique (normalizePath dirPath) options items [])
    as [H1 H2]; [constructor|constructor|].
  apply uniqueEnhancedNames_sorted; assumption.
Qed.

Lemma enhancedDirectoryFlag_insertItems nd options (p : list string)
  (items : list GitHubTreeItem) :
  p <> [] ->
  forall cs,
    NoDup (map EnhancedTreeNode.name cs) -> Forall uniqueEnhancedNames cs ->
    enhancedDirectoryFlag
      (fold_left (insertEnhancedItem localeCompare nd options) items cs) p
    = fold_left (flagStep nd (enhancedKeeps options) p) items
        (enhancedDirectoryFlag cs p).
Proof.
  intros Hp. induction items as [|item items IH]; intros cs Hnd Hall; simpl;
    [reflexivity|].
  destruct (insertEnhancedItem_unique nd options cs item Hnd Hall) as [H1 H2].
  rewrite IH by assumption. f_equal.
  unfold insertEnhancedItem, flagStep.
  destruct (entryParts nd item) as [parts|]; [|reflexivity].
  apply enhancedDirectoryFlag_insertEnhancedChild; assumption.
Qed.

(** The flags of the tree [buildEnhancedTree] returns are those read off
    the entry list. *)
Lemma enhancedDirectoryFlag_buildEnhancedTree items dirPath options (p : list string) :
  p <> [] ->
  enhancedDirectoryFlag
    (EnhancedTreeNode.children (buildEnhancedTree localeCompare items dirPath options)) p
  = flagOf (normalizePath dirPath) (enhancedKeeps options) items p.
Proof.
  intros Hp. rewrite buildEnhancedTree_children.
  destruct (insertEnhancedItems_unique (normalizePath dirPath) options items [])
    as [H1 H2]; [constructor|constructor|].
  rewrite enhancedDirectoryFlag_sort by exact H1.
  rewrite enhancedDirectoryFlag_insertItems by (assumption || constructor).
  rewrite enhancedDirectoryFlag_nil. reflexivity.
Qed.
End EnhancedBuilderFacts.

(** ** Flags read off the entry list *)

Section FlagFacts.
Variable nd : string.
Variable keeps : list string -> GitHubTreeItem -> bool.
Variable p : list string.

Lemma stripPrefix_app (q : list string) : stripPrefix p (p ++ q) = Some q.
Proof.
  induction p as [|k p' IH]; simpl; [reflexivity|].
  rewrite String.eqb_refl. exact IH.
Qed.

Lemma stripPrefix_Some (parts rest : list string) :
  stripPrefix p parts = Some rest -> parts = (p ++ rest)%list.
Proof.
  revert parts. induction p as [|k p' IH]; intros parts; simpl.
  - intros H. injection H as ->. reflexivity.
  - destruct parts as [|k' parts']; [discriminate|].
    destruct (String.eqb k k') eqn:E; [|discriminate].
    apply String.eqb_eq in E. subst k'. intros H. f_equal. apply IH, H.
Qed.

Lemma flagStep_true (item : GitHubTreeItem) :
  flagStep nd keeps p (Some true) item = Some true.
Proof.
  unfold flagStep. destruct (entryParts nd item) as [parts|]; [|reflexivity].
  destruct (stripPrefix p parts) as [[|? ?]|]; reflexivity.
Qed.

Lemma flagSteps_true (items : list GitHubTreeItem) :
  fold_left (flagStep nd keeps p) items (Some true) = Some true.
Proof.
  induction items as [|item items IH]; simpl; [reflexivity|].
  rewrite flagStep_true. exact IH.
Qed.

Lemma flagOf_app (items more : list GitHubTreeItem) :
  flagOf nd keeps (items ++ more) p
  = fold_left (flagStep nd keeps p) more (flagOf nd keeps items p).
Proof. unfold flagOf. apply fold_left_app. Qed.

(** Once a directory, always a directory. *)
Lemma flagOf_never_demoted (items more : list GitHubTreeItem) :
  flagOf nd keeps items p = Some true -> flagOf nd keeps (items ++ more) p = Some true.
Proof. intros H. rewrite flagOf_app, H. apply flagSteps_true. Qed.

Lemma flagStep_below (old : option bool) (item : GitHubTreeItem) (q : list string) :
  entryParts nd item = Some (p ++ q)%list -> q <> [] ->
  flagStep nd keeps p old item = Some true.
Proof.
  intros He Hq. unfold flagStep. rewrite He, stripPrefix_app.
  destruct q; [congruence|reflexivity].
Qed.

(** An entry strictly below [p] makes [p] a directory. *)
Lemma flagOf_below (items : list GitHubTreeItem) (item : GitHubTreeItem)
  (q : list string) :
  In item items -> entryParts nd item = Some (p ++ q)%list -> q <> [] ->
  flagOf nd keeps items p = Some true.
Proof.
  intros Hin He Hq. apply in_split in Hin. destruct Hin as [l1 [l2 ->]].
  change (l1 ++ item :: l2)%list with (l1 ++ [item] ++ l2)%list.
  rewrite app_assoc. apply flagOf_never_demoted.
  rewrite flagOf_app. simpl. apply (flagStep_below _ item q He Hq).
Qed.

Lemma flagSteps_not_file (items : list GitHubTreeItem) (old : option bool) :
  old <> Some false ->
  (forall b, In b items -> entryParts nd b = Some p -> type b = tree) ->
  fold_left (flagStep nd keeps p) items old <> Some false.
Proof.
  revert old. induction items as [|item items IH]; intros old Hold Hall; simpl;
    [exact Hold|].
  apply IH; [|intros b Hb; apply Hall; right; exact Hb].
  unfold flagStep. destruct (entryParts nd item) as [parts|] eqn:He; [|exact Hold].
  destruct (stripPrefix p parts) as [[|? ?]|] eqn:Hs; simpl;
    [|discriminate|exact Hold].
  destruct old as [d|]; [exact Hold|].
  destruct (keeps parts item); [|discriminate].
  apply stripPrefix_Some in Hs. rewrite app_nil_r in Hs. subst parts.
  rewrite (Hall item (or_introl eq_refl) He). discriminate.
Qed.

(** A directory entry listed before any file entry of the same path makes
    [p] a directory. *)
Lemma flagOf_first_tree (before after : list GitHubTreeItem) (item : GitHubTreeItem) :
  entryParts nd item = Some p -> type item = tree -> keeps p item = true ->
  (forall b, In b before -> entryParts nd b = Some p -> type b = tree) ->
  flagOf nd keeps (before ++ item :: after) p = Some true.
Proof.
  intros He Ht Hk Hall.
  change (before ++ item :: after)%list with (before ++ [item] ++ after)%list.
  rewrite app_assoc. apply flagOf_never_demoted.
  rewrite flagOf_app. simpl.
  pose proof (flagSteps_not_file before None (fun H => ltac:(discriminate)) Hall) as Hb.
  fold (flagOf nd keeps before p) in Hb.
  unfold flagStep. rewrite He.
  replace (stripPrefix p p) with (Some (@nil string))
    by (symmetry; rewrite <- (app_nil_r p) at 2; apply stripPrefix_app).
  simpl. rewrite Hk, Ht.
  destruct (flagOf nd keeps before p) as [[|]|]; [reflexivity|congruence|reflexivity].
Qed.

Lemma flagStep_present (old : option bool) (item : GitHubTreeItem) :
  flagStep nd keeps p old item <> None <-> old <> None \/ contributes nd keeps p item.
Proof.
  unfold flagStep, contributes.
  destruct (entryParts nd item) as [parts|] eqn:He.
  - destruct (stripPrefix p parts) as [[|k rest]|] eqn:Hs; simpl.
    + destruct old as [d|].
      * split; [left; discriminate|discriminate].
      * destruct (keeps parts item) eqn:K.
        -- split; [|discriminate]. intros _. right. exists parts, [].
           split; [reflexivity|]. split; [exact Hs|]. right. exact K.
        -- split; [congruence|]. intros [H|[parts' [rest' [H1 [H2 H3]]]]]; [exact H|].
           injection H1 as <-. rewrite Hs in H2. injection H2 as <-.
           destruct H3 as [H3|H3]; congruence.
    + split; [|discriminate]. intros _. right. exists parts, (k :: rest).
      split; [reflexivity|]. split; [exact Hs|]. left. discriminate.
    + split; [tauto|]. intros [H|[parts' [rest' [H1 [H2 H3]]]]]; [exact H|].
      injection H1 as <-. congruence.
  - split; [tauto|]. intros [H|[parts' [rest' [H1 _]]]]; [exact H|discriminate].
Qed.

Lemma flagSteps_present (items : list GitHubTreeItem) (old : option bool) :
  fold_left (flagStep nd keeps p) items old <> None
  <-> old <> None \/ exists item, In item items /\ contributes nd keeps p item.
Proof.
  revert old. induction items as [|item items IH]; intros old; simpl.
  - split; [tauto|]. intros [H|[item [[] _]]]. exact H.
  - rewrite IH, flagStep_present. split.
    + intros [[H|H]|[item' [Hin Hc]]]; eauto.
    + intros [H|[item' [[<-|Hin] Hc]]]; eauto.
Qed.

(** A node exists at [p] exactly when some entry contributes one. *)
Lemma flagOf_present (items : list GitHubTreeItem) :
  flagOf nd keeps items p <> None
  <-> exists item, In item items /\ contributes nd keeps p item.
Proof.
  unfold flagOf. rewrite flagSteps_present. split; [|auto].
  intros [H|H]; [congruence|exact H].
Qed.
End FlagFacts.

(** ** The ordering of children *)

Lemma StronglySorted_impl {A : Type} (R R' : A -> A -> Prop) (l : list A) :
  (forall x y, R x y -> R' x y) -> StronglySorted R l -> StronglySorted R' l.
Proof.
  intros Himpl. induction 1 as [|x l Hs IH Hall]; constructor; [exact IH|].
  eapply Forall_impl; [|exact Hall]. intros y. apply Himpl.
Qed.

Section OrderingFacts.
Variable localeCompare : string -> string -> Z.

Lemma precedes_filesFirst (a b : TreeNode.t) :
  precedes (compareNodes localeCompare) a b <-> filesFirst localeCompare a b.
Proof.
  unfold precedes, compareNodes, filesFirst.
  destruct (TreeNode.isDirectory a), (TreeNode.isDirectory b); simpl;
    intuition (try lia; try discriminate).
Qed.

Lemma precedes_directoriesFirst (a b : EnhancedTreeNode.t) :
  precedes (compareEnhancedNodes localeCompare) a b <-> directoriesFirst localeCompare a b.
Proof.
  unfold precedes, compareEnhancedNodes, directoriesFirst.
  destruct (EnhancedTreeNode.isDirectory a), (EnhancedTreeNode.isDirectory b); simpl;
    intuition (try lia; try discriminate).
Qed.

Hypothesis localeCompare_total :
  forall a b, localeCompare a b <= 0 \/ localeCompare b a <= 0.
Hypothesis localeCompare_trans :
  forall a b c, localeCompare a b <= 0 -> localeCompare b c <= 0 -> localeCompare a c <= 0.

Lemma compareNodes_total (a b : TreeNode.t) :
  compareNodes localeCompare a b <= 0 \/ compareNodes localeCompare b a <= 0.
Proof.
  unfold compareNodes.
  destruct (TreeNode.isDirectory a), (TreeNode.isDirectory b); simpl;
    try (apply localeCompare_total); lia.
Qed.

Lemma compareNodes_trans (a b c : TreeNode.t) :
  compareNodes localeCompare a b <= 0 -> compareNodes localeCompare b c <= 0 ->
  compareNodes localeCompare a c <= 0.
Proof.
  unfold compareNodes.
  destruct (TreeNode.isDirectory a), (TreeNode.isDirectory b), (TreeNode.isDirectory c);
    simpl; try lia; apply localeCompare_trans.
Qed.

Lemma compareEnhancedNodes_total (a b : EnhancedTreeNode.t) :
  compareEnhancedNodes localeCompare a b <= 0 \/ compareEnhancedNodes localeCompare b a <= 0.
Proof.
  unfold compareEnhancedNodes.
  destruct (EnhancedTreeNode.isDirectory a), (EnhancedTreeNode.isDirectory b); simpl;
    try (apply localeCompare_total); lia.
Qed.

Lemma compareEnhancedNodes_trans (a b c : EnhancedTreeNode.t) :
  compareEnhancedNodes localeCompare a b <= 0 ->
  compareEnhancedNodes localeCompare b c <= 0 ->
  compareEnhancedNodes localeCompare a c <= 0.
Proof.
  unfold compareEnhancedNodes.
  destruct (EnhancedTreeNode.isDirectory a), (EnhancedTreeNode.isDirectory b),
    (EnhancedTreeNode.isDirectory c); simpl; try lia; apply localeCompare_trans.
Qed.

Lemma sort_filesFirst (cs : list TreeNode.t) :
  StronglySorted (filesFirst localeCompare) (sort (compareNodes localeCompare) cs).
Proof.
  eapply StronglySorted_impl; [intros x y; apply precedes_filesFirst|].
  apply sort_StronglySorted; [apply compareNodes_total|apply compareNodes_trans].
Qed.

Lemma sort_directoriesFirst (cs : list EnhancedTreeNode.t) :
  StronglySorted (directoriesFirst localeCompare)
    (sort (compareEnhancedNodes localeCompare) cs).
Proof.
  eapply StronglySorted_impl; [intros x y; apply precedes_directoriesFirst|].
  apply sort_StronglySorted;
    [apply compareEnhancedNodes_total|apply compareEnhancedNodes_trans].
Qed.

Lemma sortedTree_children (n : TreeNode.t) :
  sortedTree (filesFirst localeCompare) n ->
  Forall (sortedTree (filesFirst localeCompare)) (TreeNode.children n).
Proof. intros H. inversion H; subst. assumption. Qed.

Lemma insertChild_sorted (isTree : bool) (parts : list string) :
  forall cs,
    Forall (sortedTree (filesFirst localeCompare)) cs ->
    Forall (sortedTree (filesFirst localeCompare))
      (insertChild localeCompare cs parts isTree).
Proof.
  induction parts as [|k rest IH]; intros cs Hall; simpl; [exact Hall|].
  assert (H1 : Forall (sortedTree (filesFirst localeCompare))
                 (match findChild k cs with
                  | Some _ => cs
                  | None => cs ++ [TreeNode.mk k
                              (match rest with [] => false | _ :: _ => true end || isTree) []]
                  end)%list).
  { destruct (findChild k cs); [exact Hall|].
    apply Forall_app. split; [exact Hall|]. repeat constructor. }
  destruct rest as [|k2 rest2]; [exact H1|].
  apply updateNamed_Forall; [exact H1|].
  intros c Hc. rewrite addNestedNode_insertChild.
  constructor; [apply sort_filesFirst|].
  apply sort_Forall, IH. apply sortedTree_children in Hc. exact Hc.
Qed.

Lemma buildTree_sorted (items : list GitHubTreeItem) (dirPath : string) :
  sortedTree (filesFirst localeCompare) (buildTree localeCompare items dirPath).
Proof.
  unfold buildTree. rewrite buildTree_values by constructor.
  constructor; [apply sort_filesFirst|]. apply sort_Forall.
  simpl. generalize (@nil TreeNode.t) (Forall_nil (sortedTree (filesFirst localeCompare))).
  induction items as [|item items IH]; intros cs Hall; simpl; [exact Hall|].
  apply IH. unfold insertItem.
  destruct (entryParts (normalizePath dirPath) item); [|exact Hall].
  apply insertChild_sorted, Hall.
Qed.

Lemma sortedEnhancedTree_children (n : EnhancedTreeNode.t) :
  sortedEnhancedTree (directoriesFirst localeCompare) n ->
  Forall (sortedEnhancedTree (directoriesFirst localeCompare)) (EnhancedTreeNode.children n).
Proof. intros H. inversion H; subst. assumption. Qed.

Lemma insertEnhancedChild_sorted (item : GitHubTreeItem) (options : SubTreeOptions)
  (parts : list string) :
  forall cs depth,
    Forall (sortedEnhancedTree (directoriesFirst localeCompare)) cs ->
    Forall (sortedEnhancedTree (directoriesFirst localeCompare))
      (insertEnhancedChild localeCompare cs parts item depth options).
Proof.
  induction parts as [|k rest IH]; intros cs depth Hall; simpl; [exact Hall|].
  destruct (filteredOut k _ item options); [exact Hall|].
  assert (H1 : Forall (sortedEnhancedTree (directoriesFirst localeCompare))
                 (match findEnhancedChild k cs with
                  | Some _ => cs
                  | None => cs ++ [newEnhancedNode k
                              (match rest with [] => false | _ :: _ => true end)
                              item depth]
                  end)%list).
  { destruct (findEnhancedChild k cs); [exact Hall|].
    apply Forall_app. split; [exact Hall|]. repeat constructor. }
  destruct rest as [|k2 rest2]; [exact H1|].
  apply updateNamed_Forall; [exact H1|].
  intros c Hc. rewrite addNestedEnhancedNode_insertEnhancedChild.
  destruct (filteredOut k2 _ item options).
  - inversion Hc; subst. constructor; assumption.
  - constructor; [apply sort_directoriesFirst|].
    apply sort_Forall, IH. apply sortedEnhancedTree_children in Hc. exact Hc.
Qed.

Lemma buildEnhancedTree_sorted items dirPath options :
  sortedEnhancedTree (directoriesFirst localeCompare)
    (buildEnhancedTree localeCompare items dirPath options).
Proof.
  unfold buildEnhancedTree. rewrite buildEnhancedTree_values by constructor.
  constructor; [apply sort_directoriesFirst|]. apply sort_Forall.
  simpl. generalize (@nil EnhancedTreeNode.t)
           (Forall_nil (sortedEnhancedTree (directoriesFirst localeCompare))).
  induction items as [|item items IH]; intros cs Hall; simpl; [exact Hall|].
  apply IH. unfold insertEnhancedItem.
  destruct (entryParts (normalizePath dirPath) item); [|exact Hall].
  apply insertEnhancedChild_sorted, Hall.
Qed.
End OrderingFacts.

(** The code-unit collation is a total preorder. *)
Lemma codepointCompare_total (a b : string) :
  codepointCompare a b <= 0 \/ codepointCompare b a <= 0.
Proof.
  unfold codepointCompare. rewrite (String.compare_antisym a b).
  destruct (String.compare b a); simpl; lia.
Qed.

Lemma string_compare_refl (s : string) : String.compare s s = Eq.
Proof.
  induction s as [|x s IH]; simpl; [reflexivity|].
  replace (Ascii.compare x x) with Eq
    by (unfold Ascii.compare; symmetry; apply N.compare_refl).
  exact IH.
Qed.

Lemma string_compare_trans_lt :
  forall a b c, String.compare a b = Lt -> String.compare b c = Lt ->
                String.compare a c = Lt.
Proof.
  induction a as [|x a IH]; intros [|y b] [|z c]; simpl; try discriminate; auto.
  destruct (Ascii.compare x y) eqn:Exy; try discriminate;
    destruct (Ascii.compare y z) eqn:Eyz; try discriminate; intros H1 H2.
  - apply Ascii.compare_eq_iff in Exy, Eyz. subst.
    replace (Ascii.compare z z) with Eq
      by (unfold Ascii.compare; symmetry; apply N.compare_refl).
    eapply IH; eauto.
  - apply Ascii.compare_eq_iff in Exy. subst. rewrite Eyz. reflexivity.
  - apply Ascii.compare_eq_iff in Eyz. subst. rewrite Exy. reflexivity.
  - unfold Ascii.compare in *. rewrite N.compare_lt_iff in *.
    assert (H : (N_of_ascii x < N_of_ascii z)%N) by (eapply N.lt_trans; eauto).
    apply N.compare_lt_iff in H. rewrite H. reflexivity.
Qed.

Lemma codepointCompare_trans (a b c : string) :
  codepointCompare a b <= 0 -> codepointCompare b c <= 0 -> codepointCompare a c <= 0.
Proof.
  unfold codepointCompare.
  destruct (String.compare a b) eqn:Eab; try lia;
    destruct (String.compare b c) eqn:Ebc; try lia; intros _ _.
  - apply String.compare_eq_iff in Eab, Ebc. subst.
    rewrite string_compare_refl. lia.
  - apply String.compare_eq_iff in Eab. subst. rewrite Ebc. lia.
  - apply String.compare_eq_iff in Ebc. subst. rewrite Eab. lia.
  - rewrite (string_compare_trans_lt a b c Eab Ebc). lia.
Qed.

(** ** Directory wins *)

(** C1 (as stated, refuted): a directory entry that follows a file entry of
    the same path does not make the node a directory, in either builder. *)
Lemma file_entry_listed_first_stays_file :
  directoryFlag
    (TreeNode.children
       (buildTree codepointCompare [mkItem "a" blob (Some 1); mkItem "a" tree None] ""))
    ["a"] = Some false
  /\ enhancedDirectoryFlag
       (EnhancedTreeNode.children
          (buildEnhancedTree codepointCompare
             [mkItem "a" blob (Some 1); mkItem "a" tree None] "" defaultOptions))
       ["a"] = Some false.
Proof. split; vm_compute; reflexivity. Qed.

(** C1 (amended): in the tree built by either builder, for every entry list
    in every order, (1) a node that some entry has as a proper path prefix
    is a directory, even when another entry of the same path claims file
    type; (2) a node that is a directory stays one whatever entries follow;
    (3) a node whose path is listed by a directory entry is a directory
    provided no file entry of the same path is listed before it. *)
Theorem directory_wins (localeCompare : string -> string -> Z)
  (items : list GitHubTreeItem) (dirPath : string) (options : SubTreeOptions)
  (p : list string) :
  p <> [] ->
  (forall item q,
      In item items -> entryParts (normalizePath dirPath) item = Some (p ++ q)%list ->
      q <> [] ->
      directoryFlag (TreeNode.children (buildTree localeCompare items dirPath)) p
      = Some true
      /\ enhancedDirectoryFlag
           (EnhancedTreeNode.children
              (buildEnhancedTree localeCompare items dirPath options)) p
         = Some true)
  /\ (forall more,
         (directoryFlag (TreeNode.children (buildTree localeCompare items dirPath)) p
          = Some true ->
          directoryFlag
            (TreeNode.children (buildTree localeCompare (items ++ more) dirPath)) p
          = Some true)
         /\ (enhancedDirectoryFlag
               (EnhancedTreeNode.children
                  (buildEnhancedTree localeCompare items dirPath options)) p
             = Some true ->
             enhancedDirectoryFlag
               (EnhancedTreeNode.children
                  (buildEnhancedTree localeCompare (items ++ more) dirPath options)) p
             = Some true))
  /\ (forall before item after,
         items = (before ++ item :: after)%list ->
         entryParts (normalizePath dirPath) item = Some p -> type item = tree ->
         (forall b, In b before -> entryParts (normalizePath dirPath) b = Some p ->
                    type b = tree) ->
         directoryFlag (TreeNode.children (buildTree localeCompare items dirPath)) p
         = Some true
         /\ enhancedDirectoryFlag
              (EnhancedTreeNode.children
                 (buildEnhancedTree localeCompare items dirPath options)) p
            = Some true).
Proof.
  intros Hp. split; [|split].
  - intros item q Hin He Hq.
    rewrite directoryFlag_buildTree, enhancedDirectoryFlag_buildEnhancedTree by exact Hp.
    split; eapply flagOf_below; eauto.
  - intros more.
    rewrite !directoryFlag_buildTree, !enhancedDirectoryFlag_buildEnhancedTree by exact Hp.
    split; apply flagOf_never_demoted.
  - intros before item after -> He Ht Hall.
    rewrite directoryFlag_buildTree, enhancedDirectoryFlag_buildEnhancedTree by exact Hp.
    split; apply flagOf_first_tree; auto.
    unfold enhancedKeeps, filteredOut. rewrite Ht. reflexivity.
Qed.

Lemma directory_wins_witness :
  directoryFlag
    (TreeNode.children
       (buildTree codepointCompare
          [mkItem "a" blob (Some 5); mkItem "a/b.ts" blob (Some 1)] "")) ["a"]
  = Some true
  /\ enhancedDirectoryFlag
       (EnhancedTreeNode.children
          (buildEnhancedTree codepointCompare
             [mkItem "a" blob (Some 5); mkItem "a/b.ts" blob (Some 1)] ""
             defaultOptions)) ["a"]
     = Some true.
Proof.
  apply (proj1 (directory_wins codepointCompare
                  [mkItem "a" blob (Some 5); mkItem "a/b.ts" blob (Some 1)] ""
                  defaultOptions ["a"] ltac:(discriminate))
           (mkItem "a/b.ts" blob (Some 1)) ["b.ts"]).
  - simpl. auto.
  - reflexivity.
  - discriminate.
Defined.

(** ** Extension filtering *)




(** ** Ordering *)

(** C6: whenever [localeCompare] is a total preorder, at every level of the
    tree the plain builder returns the children are ordered files first,
    then directories, and at every level of the tree the enhanced builder
    returns they are ordered directories first, then files, by ascending
    name inside each group; on two nodes of different kinds the two
    orderings are opposite. *)
Theorem children_ordering (localeCompare : string -> string -> Z)
  (items : list GitHubTreeItem) (dirPath : string) (options : SubTreeOptions) :
  (forall a b, localeCompare a b <= 0 \/ localeCompare b a <= 0) ->
  (forall a b c, localeCompare a b <= 0 -> localeCompare b c <= 0 ->
                 localeCompare a c <= 0) ->
  sortedTree (filesFirst localeCompare) (buildTree localeCompare items dirPath)
  /\ sortedEnhancedTree (directoriesFirst localeCompare)
       (buildEnhancedTree localeCompare items dirPath options)
  /\ (forall (a b : TreeNode.t) (a' b' : EnhancedTreeNode.t),
         TreeNode.isDirectory a = EnhancedTreeNode.isDirectory a' ->
         TreeNode.isDirectory b = EnhancedTreeNode.isDirectory b' ->
         TreeNode.isDirectory a <> TreeNode.isDirectory b ->
         (filesFirst localeCompare a b <-> directoriesFirst localeCompare b' a')).
Proof.
  intros Htotal Htrans. split; [|split].
  - apply buildTree_sorted; assumption.
  - apply buildEnhancedTree_sorted; assumption.
  - intros a b a' b' Ha Hb Hne. unfold filesFirst, directoriesFirst.
    rewrite <- Ha, <- Hb.
    destruct (TreeNode.isDirectory a), (TreeNode.isDirectory b);
      intuition (try discriminate; try congruence).
Qed.

Lemma children_ordering_witness :
  sortedTree (filesFirst codepointCompare) (buildTree codepointCompare sampleItems "")
  /\ sortedEnhancedTree (directoriesFirst codepointCompare)
       (buildEnhancedTree codepointCompare sampleItems "" defaultOptions).
Proof.
  destruct (children_ordering codepointCompare sampleItems "" defaultOptions
              codepointCompare_total codepointCompare_trans) as [H1 [H2 _]].
  split; [exact H1|exact H2].
Defined.

(** ** The empty directory *)

Lemma no_selected_entry_no_child (localeCompare : string -> string -> Z)
  (items : list GitHubTreeItem) (dirPath : string) (options : SubTreeOptions) :
  (forall item, In item items -> relativePath (normalizePath dirPath) item = None) ->
  TreeNode.children (buildTree localeCompare items dirPath) = []
  /\ EnhancedTreeNode.children (buildEnhancedTree localeCompare items dirPath options) = [].
Proof.
  intros Hall. rewrite buildTree_children, buildEnhancedTree_children.
  assert (H1 : forall cs,
             fold_left (insertItem localeCompare (normalizePath dirPath)) items cs = cs).
  { induction items as [|item items IH]; intros cs; simpl; [reflexivity|].
    rewrite IH by (intros i Hi; apply Hall; right; exact Hi).
    unfold insertItem, entryParts. rewrite (Hall item (or_introl eq_refl)). reflexivity. }
  assert (H2 : forall cs,
             fold_left (insertEnhancedItem localeCompare (normalizePath dirPath) options)
               items cs = cs).
  { clear H1. induction items as [|item items IH]; intros cs; simpl; [reflexivity|].
    rewrite IH by (intros i Hi; apply Hall; right; exact Hi).
    unfold insertEnhancedItem, entryParts. rewrite (Hall item (or_introl eq_refl)).
    reflexivity. }
  rewrite H1, H2. split; reflexivity.
Qed.

(** C8: whenever the tree under the filter path has no children, the plain
    renderer and the enhanced renderer, under every options value, return
    exactly [(empty directory)]; this is the case in particular when no
    entry is selected by the filter path, hence for the empty entry list.
    Both renderers are total functions: no input makes them fail. *)
Theorem empty_directory_literal (localeCompare : string -> string -> Z)
  (items : list GitHubTreeItem) (dirPath : string) (options : SubTreeOptions) :
  (TreeNode.children (buildTree localeCompare items dirPath) = [] ->
   formatTree localeCompare items dirPath = "(empty directory)")
  /\ (EnhancedTreeNode.children (buildEnhancedTree localeCompare items dirPath options) = [] ->
      formatSubTree localeCompare items dirPath options = "(empty directory)")
  /\ ((forall item, In item items -> relativePath (normalizePath dirPath) item = None) ->
      formatTree localeCompare items dirPath = "(empty directory)"
      /\ formatSubTree localeCompare items dirPath options = "(empty directory)").
Proof.
  assert (Hplain : TreeNode.children (buildTree localeCompare items dirPath) = [] ->
                   formatTree localeCompare items dirPath = "(empty directory)").
  { intros H. unfold formatTree. destruct items; [reflexivity|]. rewrite H. reflexivity. }
  assert (Henh : EnhancedTreeNode.children
                   (buildEnhancedTree localeCompare items dirPath options) = [] ->
                 formatSubTree localeCompare items dirPath options = "(empty directory)").
  { intros H. unfold formatSubTree, renderEnhancedTree.
    destruct items; [reflexivity|]. rewrite H. reflexivity. }
  split; [exact Hplain|]. split; [exact Henh|].
  intros Hall.
  destruct (no_selected_entry_no_child localeCompare items dirPath options Hall) as [H1 H2].
  split; [apply Hplain, H1|apply Henh, H2].
Qed.

Lemma empty_directory_literal_witness :
  formatTree codepointCompare sampleItems "docs" = "(empty directory)"
  /\ formatSubTree codepointCompare sampleItems "docs" showSizeOptions = "(empty directory)".
Proof.
  apply (proj2 (proj2 (empty_directory_literal codepointCompare sampleItems "docs"
                         showSizeOptions))).
  intros item Hin. simpl in Hin.
  destruct Hin as [<-|[<-|[<-|[<-|[]]]]]; reflexivity.
Defined.

(** ** Joining lines *)

Lemma append_assoc (a b c : string) : ((a ++ b) ++ c = a ++ (b ++ c))%string.
Proof. induction a as [|x a IH]; simpl; [reflexivity|]. rewrite IH. reflexivity. Qed.

Lemma append_nil_r (a : string) : (a ++ "" = a)%string.
Proof. induction a as [|x a IH]; simpl; [reflexivity|]. rewrite IH. reflexivity. Qed.

Lemma append_eq_nil (a b : string) : (a ++ b = "")%string -> a = "" /\ b = "".
Proof. destruct a; simpl; [auto|discriminate]. Qed.

Lemma join_cons (sep x : string) (l : list string) :
  join sep (x :: l) = (x ++ joinTail sep l)%string.
Proof. destruct l; simpl; [rewrite append_nil_r|]; reflexivity. Qed.

Lemma join_app (sep : string) (l l' : list string) :
  l <> [] -> join sep (l ++ l') = (join sep l ++ joinTail sep l')%string.
Proof.
  induction l as [|x l IH]; intros Hne; [congruence|].
  destruct l as [|y l].
  - simpl app. rewrite join_cons. reflexivity.
  - change ((x :: y :: l) ++ l')%list with (x :: (y :: l) ++ l')%list.
    rewrite !join_cons. rewrite append_assoc. f_equal.
    change (joinTail sep ((y :: l) ++ l')) with (sep ++ join sep ((y :: l) ++ l'))%string.
    rewrite IH by discriminate.
    change (joinTail sep (y :: l)) with (sep ++ join sep (y :: l))%string.
    rewrite append_assoc. reflexivity.
Qed.

Lemma sameText_refl (l : list string) : sameText l l.
Proof. split; [reflexivity|tauto]. Qed.

Lemma sameText_joinTail (l l' : list string) :
  sameText l l' -> joinTail nl l = joinTail nl l'.
Proof.
  intros [Hj He]. destruct l as [|x l0]; destruct l' as [|x' l0'].
  - reflexivity.
  - assert (H : x' :: l0' = []) by (apply He; reflexivity). discriminate.
  - assert (H : x :: l0 = []) by (apply He; reflexivity). discriminate.
  - unfold joinTail. rewrite Hj. reflexivity.
Qed.

Lemma sameText_cons (a : string) (l l' : list string) :
  sameText l l' -> sameText (a :: l) (a :: l').
Proof.
  intros H. split; [|split; discriminate].
  rewrite !join_cons, (sameText_joinTail l l' H). reflexivity.
Qed.

(** A block pushed as one element reads like its lines pushed one by one. *)
Lemma sameText_block (a : string) (block l l' : list string) :
  block <> [] -> sameText l l' ->
  sameText (a :: join nl block :: l) (a :: block ++ l').
Proof.
  intros Hne H. split; [|split; discriminate].
  rewrite !join_cons. f_equal.
  destruct block as [|b block]; [congruence|].
  change (joinTail nl (join nl (b :: block) :: l))
    with (nl ++ join nl (join nl (b :: block) :: l))%string.
  change (joinTail nl ((b :: block) ++ l'))
    with (nl ++ join nl ((b :: block) ++ l'))%string.
  f_equal. rewrite join_cons, join_app by discriminate.
  rewrite (sameText_joinTail l l' H). reflexivity.
Qed.

(** ** Induction over a tree and its lists of children *)

Lemma TreeNode_forest_ind (P : TreeNode.t -> Prop) (Q : list TreeNode.t -> Prop) :
  Q [] ->
  (forall c cs, P c -> Q cs -> Q (c :: cs)) ->
  (forall name isDirectory cs, Q cs -> P (TreeNode.mk name isDirectory cs)) ->
  (forall n, P n) /\ (forall cs, Q cs).
Proof.
  intros Hnil Hcons Hmk.
  assert (H : forall n, P n).
  { fix IH 1. intros [name isDirectory cs]. apply Hmk.
    induction cs as [|c cs IHcs]; [exact Hnil|].
    apply Hcons; [apply IH|exact IHcs]. }
  split; [exact H|].
  induction cs as [|c cs IHcs]; [exact Hnil|]. apply Hcons; [apply H|exact IHcs].
Qed.

Lemma EnhancedTreeNode_forest_ind (P : EnhancedTreeNode.t -> Prop)
  (Q : list EnhancedTreeNode.t -> Prop) :
  Q [] ->
  (forall c cs, P c -> Q cs -> Q (c :: cs)) ->
  (forall name isDirectory size cs depth,
      Q cs -> P (EnhancedTreeNode.mk name isDirectory size cs depth)) ->
  (forall n, P n) /\ (forall cs, Q cs).
Proof.
  intros Hnil Hcons Hmk.
  assert (H : forall n, P n).
  { fix IH 1. intros [name isDirectory size cs depth]. apply Hmk.
    induction cs as [|c cs IHcs]; [exact Hnil|].
    apply Hcons; [apply IH|exact IHcs]. }
  split; [exact H|].
  induction cs as [|c cs IHcs]; [exact Hnil|]. apply Hcons; [apply H|exact IHcs].
Qed.

(** ** The plain renderer, line by line *)

Lemma formatNode_lines (node : TreeNode.t) (prefix : string) :
  formatNode node prefix = join nl (formatNodeLines prefix (TreeNode.children node)).
Proof. destruct node. reflexivity. Qed.

Lemma formatNodeEntries_of (node : TreeNode.t) (prefix : string) :
  formatNodeEntries node prefix = formatNodeEntriesOf prefix (TreeNode.children node).
Proof. destruct node. reflexivity. Qed.

Lemma formatNode_entries_both :
  (forall node prefix,
      formatNode node prefix
      = join nl (map plainEntryLine (formatNodeEntries node prefix)))
  /\ (forall cs prefix,
         sameText (formatNodeLines prefix cs)
           (map plainEntryLine (formatNodeEntriesOf prefix cs))).
Proof.
  apply TreeNode_forest_ind.
  - intros prefix. apply sameText_refl.
  - intros child rest IHc IHr prefix. simpl.
    set (isLastChild := match rest with [] => true | _ :: _ => false end).
    set (connector := if isLastChild then "└── " else "├── ").
    set (childPrefix := if isLastChild then "    " else "│   ").
    unfold plainEntryLine at 1. cbn [fst snd].
    rewrite <- append_assoc. rewrite map_app.
    destruct (TreeNode.children child) as [|c cs'] eqn:Hc.
    + rewrite formatNodeEntries_of, Hc. simpl. apply sameText_cons, IHr.
    + rewrite IHc. apply sameText_block; [|apply IHr].
      rewrite formatNodeEntries_of, Hc. discriminate.
  - intros name isDirectory cs IH prefix.
    rewrite formatNode_lines, formatNodeEntries_of. apply IH.
Qed.

Lemma formatTreeLines_entries (cs : list TreeNode.t) :
  sameText (formatTreeLines cs) (map plainEntryLine (formatTreeEntries cs)).
Proof.
  induction cs as [|child rest IH]; simpl; [apply sameText_refl|].
  rewrite map_app. unfold plainEntryLine at 1. cbn [fst snd]. simpl append.
  destruct (TreeNode.children child) as [|c cs'] eqn:Hc.
  - rewrite formatNodeEntries_of, Hc. simpl. apply sameText_cons, IH.
  - rewrite (proj1 formatNode_entries_both). apply sameText_block; [|apply IH].
    rewrite formatNodeEntries_of, Hc. discriminate.
Qed.

(** ** The enhanced renderer, line by line *)

Lemma formatEnhancedNode_lines node prefix options maxDepth :
  formatEnhancedNode node prefix options maxDepth
  = join nl (formatEnhancedNodeLines prefix options maxDepth (EnhancedTreeNode.children node)).
Proof. destruct node. reflexivity. Qed.

Lemma formatEnhancedNodeEntries_of node prefix maxDepth :
  formatEnhancedNodeEntries node prefix maxDepth
  = formatEnhancedNodeEntriesOf prefix maxDepth (EnhancedTreeNode.children node).
Proof. destruct node. reflexivity. Qed.

(** Below the top level every printed line starts with a connector. *)
Lemma formatEnhancedNodeEntriesOf_head prefix maxDepth (cs : list EnhancedTreeNode.t) e l :
  formatEnhancedNodeEntriesOf prefix maxDepth cs = e :: l ->
  fst e = (prefix ++ connectorLast)%string \/ fst e = (prefix ++ connectorMiddle)%string.
Proof.
  induction cs as [|child rest IH]; simpl; [discriminate|].
  destruct (depthExceeds (EnhancedTreeNode.depth child) maxDepth); [exact IH|].
  intros H. injection H as <- _. simpl. destruct rest; auto.
Qed.

Lemma enhancedEntries_text_nonempty prefix options maxDepth
  (cs : list EnhancedTreeNode.t) :
  join nl (map (enhancedEntryLine options maxDepth)
             (formatEnhancedNodeEntriesOf prefix maxDepth cs)) = ""%string ->
  formatEnhancedNodeEntriesOf prefix maxDepth cs = [].
Proof.
  destruct (formatEnhancedNodeEntriesOf prefix maxDepth cs) as [|e l] eqn:E;
    [reflexivity|].
  intros H. exfalso. simpl map in H. rewrite join_cons in H.
  apply append_eq_nil in H. destruct H as [H _].
  unfold enhancedEntryLine in H. apply append_eq_nil in H. destruct H as [H _].
  apply formatEnhancedNodeEntriesOf_head in E.
  destruct E as [E|E]; rewrite E in H; apply append_eq_nil in H;
    destruct H as [_ H]; discriminate.
Qed.

Lemma formatEnhancedNode_entries_both (options : SubTreeOptions) (maxDepth : option Z) :
  (forall node prefix,
      formatEnhancedNode node prefix options maxDepth
      = join nl (map (enhancedEntryLine options maxDepth)
                   (formatEnhancedNodeEntries node prefix maxDepth)))
  /\ (forall cs prefix,
         sameText (formatEnhancedNodeLines prefix options maxDepth cs)
           (map (enhancedEntryLine options maxDepth)
              (formatEnhancedNodeEntriesOf prefix maxDepth cs))).
Proof.
  apply EnhancedTreeNode_forest_ind.
  - intros prefix. apply sameText_refl.
  - intros child rest IHc IHr prefix. simpl.
    destruct (depthExceeds (EnhancedTreeNode.depth child) maxDepth); [apply IHr|].
    set (isLastChild := match rest with [] => true | _ :: _ => false end).
    set (connector := if isLastChild then connectorLast else connectorMiddle).
    set (childPrefix := if isLastChild then childPrefixLast else childPrefixMiddle).
    cbn [map]. unfold enhancedEntryLine at 1. cbn [fst snd].
    rewrite <- append_assoc. rewrite map_app.
    destruct (EnhancedTreeNode.children child) as [|c cs'] eqn:Hc.
    + replace (if depthBelow (EnhancedTreeNode.depth child) maxDepth
               then formatEnhancedNodeEntries child (prefix ++ childPrefix) maxDepth
               else [])
        with (@nil (string * EnhancedTreeNode.t))
        by (rewrite formatEnhancedNodeEntries_of, Hc; simpl;
            destruct (depthBelow _ maxDepth); reflexivity).
      simpl. apply sameText_cons, IHr.
    + destruct (depthBelow (EnhancedTreeNode.depth child) maxDepth);
        [|simpl; apply sameText_cons, IHr].
      pose proof (IHc (prefix ++ childPrefix)%string) as Hchild.
      destruct (formatEnhancedNode child (prefix ++ childPrefix) options maxDepth)
        as [|ch chs] eqn:Hfmt.
      * symmetry in Hchild. rewrite formatEnhancedNodeEntries_of in Hchild.
        apply enhancedEntries_text_nonempty in Hchild.
        rewrite formatEnhancedNodeEntries_of, Hchild. simpl.
        apply sameText_cons, IHr.
      * rewrite Hchild. apply sameText_block; [|apply IHr].
        intros Hnil. apply map_eq_nil in Hnil. rewrite Hnil in Hchild. discriminate.
  - intros name isDirectory size cs depth IH prefix.
    rewrite formatEnhancedNode_lines, formatEnhancedNodeEntries_of. apply IH.
Qed.

Lemma formatSubTreeLines_entries (cs : list EnhancedTreeNode.t) options maxDepth :
  sameText (formatSubTreeLines cs options maxDepth)
    (map (enhancedEntryLine options maxDepth) (formatSubTreeEntries cs maxDepth)).
Proof.
  induction cs as [|child rest IH]; simpl; [apply sameText_refl|].
  rewrite map_app. unfold enhancedEntryLine at 1. cbn [fst snd]. simpl append.
  destruct (EnhancedTreeNode.children child) as [|c cs'] eqn:Hc.
  - replace (if depthBelow (EnhancedTreeNode.depth child) maxDepth
             then formatEnhancedNodeEntries child "" maxDepth
             else [])
      with (@nil (string * EnhancedTreeNode.t))
      by (rewrite formatEnhancedNodeEntries_of, Hc; simpl;
          destruct (depthBelow _ maxDepth); reflexivity).
    simpl. apply sameText_cons, IH.
  - destruct (depthBelow (EnhancedTreeNode.depth child) maxDepth);
      [|simpl; apply sameText_cons, IH].
    pose proof (proj1 (formatEnhancedNode_entries_both options maxDepth) child ""%string)
      as Hchild.
    destruct (formatEnhancedNode child "" options maxDepth) as [|ch chs] eqn:Hfmt.
    + symmetry in Hchild. rewrite formatEnhancedNodeEntries_of in Hchild.
      apply enhancedEntries_text_nonempty in Hchild.
      rewrite formatEnhancedNodeEntries_of, Hchild. simpl.
      apply sameText_cons, IH.
    + rewrite Hchild. apply sameText_block; [|apply IH].
      intros Hnil. apply map_eq_nil in Hnil. rewrite Hnil in Hchild. discriminate.
Qed.


Lemma renderEnhancedTree_entries (t : EnhancedTreeNode.t) (options : SubTreeOptions) :
  EnhancedTreeNode.children t <> [] ->
  renderEnhancedTree t options
  = (join nl (map (enhancedEntryLine options (maxDepth options))
                (formatSubTreeEntries (EnhancedTreeNode.children t) (maxDepth options)))
     ++ summaryTail t options)%string.
Proof.
  intros Hne. unfold renderEnhancedTree, summaryTail.
  destruct (EnhancedTreeNode.children t) as [|c cs] eqn:Hc; [congruence|].
  rewrite (proj1 (formatSubTreeLines_entries (c :: cs) options (maxDepth options))).
  destruct (showStats options) as [[|]|]; try reflexivity.
  rewrite append_nil_r. reflexivity.
Qed.

(** ** Depth *)

Lemma calculateDirSize_loop node maxDepth :
  calculateDirSize node maxDepth
  = calculateDirSizeLoop maxDepth (EnhancedTreeNode.children node) 0.
Proof. destruct node. reflexivity. Qed.

Lemma countDirFiles_loop node maxDepth :
  countDirFiles node maxDepth
  = countDirFilesLoop maxDepth (EnhancedTreeNode.children node) 0.
Proof. destruct node. reflexivity. Qed.

Lemma calculateStats_loop node options stats :
  calculateStats node options stats
  = echoOptions options (calculateStatsLoop options (EnhancedTreeNode.children node) stats).
Proof. destruct node. reflexivity. Qed.






Lemma depthFrom_depth d node : depthFrom d node -> EnhancedTreeNode.depth node = d.
Proof. intros H. inversion H; subst. reflexivity. Qed.

Lemma depthFrom_children d node :
  depthFrom d node -> Forall (depthFrom (d + 1)) (EnhancedTreeNode.children node).
Proof. intros H. inversion H; subst. assumption. Qed.



(** *** The builder assigns depths level by level *)

Section DepthInvariant.
Variable localeCompare : string -> string -> Z.

Lemma insertEnhancedChild_depthFrom (item : GitHubTreeItem) (options : SubTreeOptions)
  (parts : list string) :
  forall cs depth,
    Forall (depthFrom depth) cs ->
    Forall (depthFrom depth) (insertEnhancedChild localeCompare cs parts item depth options).
Proof.
  induction parts as [|k rest IH]; intros cs depth Hall; simpl; [exact Hall|].
  destruct (filteredOut k _ item options); [exact Hall|].
  assert (H1 : Forall (depthFrom depth)
                 (match findEnhancedChild k cs with
                  | Some _ => cs
                  | None => cs ++ [newEnhancedNode k
                              (match rest with [] => false | _ :: _ => true end)
                              item depth]
                  end)%list).
  { destruct (findEnhancedChild k cs); [exact Hall|].
    apply Forall_app. split; [exact Hall|]. repeat constructor. }
  destruct rest as [|k2 rest2]; [exact H1|].
  apply updateNamed_Forall; [exact H1|].
  intros c Hc. rewrite addNestedEnhancedNode_insertEnhancedChild.
  inversion Hc as [? name isDirectory size children Hchildren]; subst.
  destruct (filteredOut k2 _ item options); [constructor; exact Hchildren|].
  constructor. apply sort_Forall, IH. exact Hchildren.
Qed.

Lemma buildEnhancedTree_depthFrom items dirPath options :
  depthFrom 0 (buildEnhancedTree localeCompare items dirPath options).
Proof.
  unfold buildEnhancedTree. rewrite buildEnhancedTree_values by constructor.
  constructor. apply sort_Forall. simpl.
  generalize (@nil EnhancedTreeNode.t) (Forall_nil (depthFrom 1)).
  induction items as [|item items IH]; intros cs Hall; simpl; [exact Hall|].
  apply IH. unfold insertEnhancedItem.
  destruct (entryParts (normalizePath dirPath) item); [|exact Hall].
  apply insertEnhancedChild_depthFrom, Hall.
Qed.
End DepthInvariant.

(** *** Rendering under a bound is rendering the pruned tree *)

Section Pruning.
Variable bound : Z.






Lemma depthLimited_unbounded_both (options : SubTreeOptions) :
  maxDepth options = None ->
  (forall node stats,
      depthLimited (calculateStats node options stats) = depthLimited stats)
  /\ (forall cs stats,
         depthLimited (calculateStatsLoop options cs stats) = depthLimited stats).
Proof.
  intros Hmax. apply EnhancedTreeNode_forest_ind.
  - intros stats. reflexivity.
  - intros c rest IHc IHr stats. cbn [calculateStatsLoop].
    destruct (depthExceeds _ _); [apply IHr|].
    destruct (EnhancedTreeNode.isDirectory c); rewrite IHr; [rewrite IHc|]; reflexivity.
  - intros name isDirectory size cs depth IH stats.
    rewrite calculateStats_loop. unfold echoOptions. rewrite Hmax.
    destruct (fileExtFilter options) as [[|ext exts]|]; simpl; apply IH.
Qed.



End Pruning.



(** ** Size annotations *)




(** ** The nodes on display are the nodes of the tree *)

Lemma lookupNode_nil (cs : list TreeNode.t) : lookupNode cs [] = None.
Proof. reflexivity. Qed.

Lemma lookupNode_cons (cs : list TreeNode.t) (k : string) (p : list string) :
  lookupNode cs (k :: p)
  = match findNamed TreeNode.name k cs with
    | None => None
    | Some c => match p with [] => Some c | _ :: _ => lookupNode (TreeNode.children c) p end
    end.
Proof. reflexivity. Qed.

Lemma lookupNode_name (p : list string) :
  forall cs c, lookupNode cs p = Some c -> TreeNode.name c = last p ""%string.
Proof.
  induction p as [|k p IH]; intros cs c; [discriminate|].
  rewrite lookupNode_cons.
  destruct (findNamed TreeNode.name k cs) as [c'|] eqn:F; [|discriminate].
  destruct p as [|k2 p2].
  - intros H. injection H as <-. apply findNamed_Some in F. simpl. tauto.
  - intros H. apply IH in H. exact H.
Qed.

Lemma findNamed_head {A : Type} (nameOf : A -> string) (k : string) (c : A) (cs : list A) :
  findNamed nameOf k (c :: cs)
  = if String.eqb (nameOf c) k then Some c else findNamed nameOf k cs.
Proof. reflexivity. Qed.

Lemma lookupNode_split (c : TreeNode.t) (rest : list TreeNode.t) (x : TreeNode.t) :
  ~ In (TreeNode.name c) (map TreeNode.name rest) ->
  (exists p, lookupNode (c :: rest) p = Some x)
  <-> x = c
      \/ (exists p, lookupNode (TreeNode.children c) p = Some x)
      \/ (exists p, lookupNode rest p = Some x).
Proof.
  intros Hnotin. split.
  - intros [[|k p'] Hp]; [discriminate|].
    rewrite lookupNode_cons, findNamed_head in Hp.
    destruct (String.eqb (TreeNode.name c) k) eqn:E.
    + destruct p' as [|k2 p2].
      * injection Hp as <-. left. reflexivity.
      * right. left. exists (k2 :: p2). exact Hp.
    + right. right. exists (k :: p'). rewrite lookupNode_cons. exact Hp.
  - intros [->|[[p Hp]|[p Hp]]].
    + exists [TreeNode.name c]. rewrite lookupNode_cons, findNamed_head.
      rewrite String.eqb_refl. reflexivity.
    + destruct p as [|k2 p2]; [discriminate|].
      exists (TreeNode.name c :: k2 :: p2). rewrite lookupNode_cons, findNamed_head.
      rewrite String.eqb_refl. exact Hp.
    + destruct p as [|k p']; [discriminate|].
      exists (k :: p'). rewrite lookupNode_cons, findNamed_head.
      rewrite lookupNode_cons in Hp.
      destruct (String.eqb (TreeNode.name c) k) eqn:E; [|exact Hp].
      apply String.eqb_eq in E. subst k.
      destruct (findNamed TreeNode.name (TreeNode.name c) rest) eqn:F; [|discriminate].
      apply findNamed_Some in F. destruct F as [Hin Hname].
      elim Hnotin. rewrite <- Hname. apply in_map, Hin.
Qed.

Lemma formatNodeEntriesOf_cons (prefix : string) (c : TreeNode.t) (rest : list TreeNode.t) :
  formatNodeEntriesOf prefix (c :: rest)
  = ((prefix ++ (if match rest with [] => true | _ :: _ => false end
                 then "└── " else "├── "))%string, c)
      :: (formatNodeEntries c
            (prefix ++ (if match rest with [] => true | _ :: _ => false end
                        then "    " else "│   "))
          ++ formatNodeEntriesOf prefix rest)%list.
Proof. reflexivity. Qed.

Lemma formatNodeEntries_nodes_both :
  (forall node,
      uniqueNames node ->
      forall prefix x,
        In x (map snd (formatNodeEntries node prefix))
        <-> exists p, lookupNode (TreeNode.children node) p = Some x)
  /\ (forall cs,
         NoDup (map TreeNode.name cs) -> Forall uniqueNames cs ->
         forall prefix x,
           In x (map snd (formatNodeEntriesOf prefix cs))
           <-> exists p, lookupNode cs p = Some x).
Proof.
  apply TreeNode_forest_ind.
  - intros _ _ prefix x. simpl. split; [tauto|]. intros [[|k p] H]; discriminate.
  - intros c rest IHc IHr Hnd Hall prefix x.
    inversion Hnd as [|? ? Hnotin Hnd']; subst.
    inversion Hall as [|? ? Hc Hrest]; subst.
    rewrite formatNodeEntriesOf_cons. cbn [map snd]. rewrite map_app.
    cbn [In]. rewrite in_app_iff.
    rewrite (IHc Hc), (IHr Hnd' Hrest), (lookupNode_split c rest x Hnotin).
    intuition congruence.
  - intros name isDirectory cs IH Hu prefix x.
    rewrite formatNodeEntries_of. apply uniqueNames_children in Hu.
    destruct Hu as [Hnd Hall]. apply (IH Hnd Hall).
Qed.

Lemma formatTreeEntries_nodes (cs : list TreeNode.t) :
  NoDup (map TreeNode.name cs) -> Forall uniqueNames cs ->
  forall x, In x (map snd (formatTreeEntries cs)) <-> exists p, lookupNode cs p = Some x.
Proof.
  induction cs as [|c rest IH]; intros Hnd Hall x.
  - simpl. split; [tauto|]. intros [[|k p] H]; discriminate.
  - inversion Hnd as [|? ? Hnotin Hnd']; subst.
    inversion Hall as [|? ? Hc Hrest]; subst.
    cbn [formatTreeEntries map snd]. rewrite map_app.
    cbn [In]. rewrite in_app_iff.
    rewrite (proj1 formatNodeEntries_nodes_both c Hc), (IH Hnd' Hrest),
      (lookupNode_split c rest x Hnotin).
    intuition congruence.
Qed.

Lemma lookupEnhancedNode_cons (cs : list EnhancedTreeNode.t) (k : string) (p : list string) :
  lookupEnhancedNode cs (k :: p)
  = match findNamed EnhancedTreeNode.name k cs with
    | None => None
    | Some c =>
        match p with
        | [] => Some c
        | _ :: _ => lookupEnhancedNode (EnhancedTreeNode.children c) p
        end
    end.
Proof. reflexivity. Qed.

Lemma lookupEnhancedNode_name (p : list string) :
  forall cs c, lookupEnhancedNode cs p = Some c -> EnhancedTreeNode.name c = last p ""%string.
Proof.
  induction p as [|k p IH]; intros cs c; [discriminate|].
  rewrite lookupEnhancedNode_cons.
  destruct (findNamed EnhancedTreeNode.name k cs) as [c'|] eqn:F; [|discriminate].
  destruct p as [|k2 p2].
  - intros H. injection H as <-. apply findNamed_Some in F. simpl. tauto.
  - intros H. apply IH in H. exact H.
Qed.

Lemma lookupEnhancedNode_split (c : EnhancedTreeNode.t) (rest : list EnhancedTreeNode.t)
  (x : EnhancedTreeNode.t) :
  ~ In (EnhancedTreeNode.name c) (map EnhancedTreeNode.name rest) ->
  (exists p, lookupEnhancedNode (c :: rest) p = Some x)
  <-> x = c
      \/ (exists p, lookupEnhancedNode (EnhancedTreeNode.children c) p = Some x)
      \/ (exists p, lookupEnhancedNode rest p = Some x).
Proof.
  intros Hnotin. split.
  - intros [[|k p'] Hp]; [discriminate|].
    rewrite lookupEnhancedNode_cons, findNamed_head in Hp.
    destruct (String.eqb (EnhancedTreeNode.name c) k) eqn:E.
    + destruct p' as [|k2 p2].
      * injection Hp as <-. left. reflexivity.
      * right. left. exists (k2 :: p2). exact Hp.
    + right. right. exists (k :: p'). rewrite lookupEnhancedNode_cons. exact Hp.
  - intros [->|[[p Hp]|[p Hp]]].
    + exists [EnhancedTreeNode.name c]. rewrite lookupEnhancedNode_cons, findNamed_head.
      rewrite String.eqb_refl. reflexivity.
    + destruct p as [|k2 p2]; [discriminate|].
      exists (EnhancedTreeNode.name c :: k2 :: p2).
      rewrite lookupEnhancedNode_cons, findNamed_head.
      rewrite String.eqb_refl. exact Hp.
    + destruct p as [|k p']; [discriminate|].
      exists (k :: p'). rewrite lookupEnhancedNode_cons, findNamed_head.
      rewrite lookupEnhancedNode_cons in Hp.
      destruct (String.eqb (EnhancedTreeNode.name c) k) eqn:E; [|exact Hp].
      apply String.eqb_eq in E. subst k.
      destruct (findNamed EnhancedTreeNode.name (EnhancedTreeNode.name c) rest) eqn:F;
        [|discriminate].
      apply findNamed_Some in F. destruct F as [Hin Hname].
      elim Hnotin. rewrite <- Hname. apply in_map, Hin.
Qed.

Lemma formatEnhancedNodeEntriesOf_unbounded_cons (prefix : string)
  (c : EnhancedTreeNode.t) (rest : list EnhancedTreeNode.t) :
  formatEnhancedNodeEntriesOf prefix None (c :: rest)
  = ((prefix ++ (if match rest with [] => true | _ :: _ => false end
                 then connectorLast else connectorMiddle))%string, c)
      :: (formatEnhancedNodeEntries c
            (prefix ++ (if match rest with [] => true | _ :: _ => false end
                        then childPrefixLast else childPrefixMiddle)) None
          ++ formatEnhancedNodeEntriesOf prefix None rest)%list.
Proof. reflexivity. Qed.

Lemma formatEnhancedNodeEntries_nodes_both :
  (forall node,
      uniqueEnhancedNames node ->
      forall prefix x,
        In x (map snd (formatEnhancedNodeEntries node prefix None))
        <-> exists p, lookupEnhancedNode (EnhancedTreeNode.children node) p = Some x)
  /\ (forall cs,
         NoDup (map EnhancedTreeNode.name cs) -> Forall uniqueEnhancedNames cs ->
         forall prefix x,
           In x (map snd (formatEnhancedNodeEntriesOf prefix None cs))
           <-> exists p, lookupEnhancedNode cs p = Some x).
Proof.
  apply EnhancedTreeNode_forest_ind.
  - intros _ _ prefix x. simpl. split; [tauto|]. intros [[|k p] H]; discriminate.
  - intros c rest IHc IHr Hnd Hall prefix x.
    inversion Hnd as [|? ? Hnotin Hnd']; subst.
    inversion Hall as [|? ? Hc Hrest]; subst.
    rewrite formatEnhancedNodeEntriesOf_unbounded_cons. cbn [map snd]. rewrite map_app.
    cbn [In]. rewrite in_app_iff.
    rewrite (IHc Hc), (IHr Hnd' Hrest), (lookupEnhancedNode_split c rest x Hnotin).
    intuition congruence.
  - intros name isDirectory size cs depth IH Hu prefix x.
    rewrite formatEnhancedNodeEntries_of. apply uniqueEnhancedNames_children in Hu.
    destruct Hu as [Hnd Hall]. apply (IH Hnd Hall).
Qed.

Lemma formatSubTreeEntries_nodes (cs : list EnhancedTreeNode.t) :
  NoDup (map EnhancedTreeNode.name cs) -> Forall uniqueEnhancedNames cs ->
  forall x,
    In x (map snd (formatSubTreeEntries cs None))
    <-> exists p, lookupEnhancedNode cs p = Some x.
Proof.
  induction cs as [|c rest IH]; intros Hnd Hall x.
  - simpl. split; [tauto|]. intros [[|k p] H]; discriminate.
  - inversion Hnd as [|? ? Hnotin Hnd']; subst.
    inversion Hall as [|? ? Hc Hrest]; subst.
    cbn [formatSubTreeEntries depthBelow map snd]. rewrite map_app.
    cbn [In]. rewrite in_app_iff.
    rewrite (proj1 formatEnhancedNodeEntries_nodes_both c Hc), (IH Hnd' Hrest),
      (lookupEnhancedNode_split c rest x Hnotin).
    intuition congruence.
Qed.

(** ** The two renderers show the same names *)

Lemma displayName_shownName (c : TreeNode.t) :
  displayName c = shownName (TreeNode.name c) (TreeNode.isDirectory c).
Proof. reflexivity. Qed.

Lemma enhancedBaseName_shownName (c : EnhancedTreeNode.t) :
  enhancedBaseName c
  = shownName (EnhancedTreeNode.name c) (EnhancedTreeNode.isDirectory c).
Proof. reflexivity. Qed.

Lemma plain_names_by_flag (cs : list TreeNode.t) (shown : string) :
  NoDup (map TreeNode.name cs) -> Forall uniqueNames cs ->
  In shown (map (fun e => displayName (snd e)) (formatTreeEntries cs))
  <-> exists p d,
      p <> [] /\ directoryFlag cs p = Some d /\ shown = shownName (last p ""%string) d.
Proof.
  intros Hnd Hall. rewrite <- (map_map snd displayName), in_map_iff. split.
  - intros [x [Hx Hin]]. apply (formatTreeEntries_nodes cs Hnd Hall) in Hin.
    destruct Hin as [p Hp]. exists p, (TreeNode.isDirectory x).
    split; [intros ->; discriminate|]. split.
    + unfold directoryFlag. rewrite Hp. reflexivity.
    + rewrite <- Hx, displayName_shownName, (lookupNode_name p cs x Hp). reflexivity.
  - intros [p [d [Hp [Hflag ->]]]]. unfold directoryFlag in Hflag.
    destruct (lookupNode cs p) as [x|] eqn:Hlook; [|discriminate].
    injection Hflag as <-. exists x. split.
    + rewrite displayName_shownName, (lookupNode_name p cs x Hlook). reflexivity.
    + apply (formatTreeEntries_nodes cs Hnd Hall). exists p. exact Hlook.
Qed.

Lemma enhanced_names_by_flag (cs : list EnhancedTreeNode.t) (shown : string) :
  NoDup (map EnhancedTreeNode.name cs) -> Forall uniqueEnhancedNames cs ->
  In shown (map (fun e => enhancedBaseName (snd e)) (formatSubTreeEntries cs None))
  <-> exists p d,
      p <> [] /\ enhancedDirectoryFlag cs p = Some d
      /\ shown = shownName (last p ""%string) d.
Proof.
  intros Hnd Hall. rewrite <- (map_map snd enhancedBaseName), in_map_iff. split.
  - intros [x [Hx Hin]]. apply (formatSubTreeEntries_nodes cs Hnd Hall) in Hin.
    destruct Hin as [p Hp]. exists p, (EnhancedTreeNode.isDirectory x).
    split; [intros ->; discriminate|]. split.
    + unfold enhancedDirectoryFlag. rewrite Hp. reflexivity.
    + rewrite <- Hx, enhancedBaseName_shownName, (lookupEnhancedNode_name p cs x Hp).
      reflexivity.
  - intros [p [d [Hp [Hflag ->]]]]. unfold enhancedDirectoryFlag in Hflag.
    destruct (lookupEnhancedNode cs p) as [x|] eqn:Hlook; [|discriminate].
    injection Hflag as <-. exists x. split.
    + rewrite enhancedBaseName_shownName, (lookupEnhancedNode_name p cs x Hlook).
      reflexivity.
    + apply (formatSubTreeEntries_nodes cs Hnd Hall). exists p. exact Hlook.
Qed.

Lemma flagOf_ext (nd : string) (keeps keeps' : list string -> GitHubTreeItem -> bool)
  (items : list GitHubTreeItem) (p : list string) :
  (forall parts item, keeps parts item = keeps' parts item) ->
  flagOf nd keeps items p = flagOf nd keeps' items p.
Proof.
  intros Hext. unfold flagOf. generalize (@None bool).
  induction items as [|item items IH]; intros old; simpl; [reflexivity|].
  rewrite IH. f_equal. unfold flagStep.
  destruct (entryParts nd item); [|reflexivity]. rewrite Hext. reflexivity.
Qed.

Lemma enhancedKeeps_bare (parts : list string) (item : GitHubTreeItem) :
  enhancedKeeps bareOptions parts item = plainKeeps parts item.
Proof.
  unfold enhancedKeeps, filteredOut, plainKeeps. simpl.
  destruct (ItemType_eqb (type item) blob); reflexivity.
Qed.

Lemma formatTree_entries (localeCompare : string -> string -> Z)
  (items : list GitHubTreeItem) (dirPath : string) :
  formatTree localeCompare items dirPath
  = linesOrEmpty
      (map plainEntryLine
         (formatTreeEntries (TreeNode.children (buildTree localeCompare items dirPath)))).
Proof.
  unfold formatTree. destruct items as [|item items']; [reflexivity|].
  destruct (TreeNode.children (buildTree localeCompare (item :: items') dirPath))
    as [|c cs]; [reflexivity|].
  rewrite (proj1 (formatTreeLines_entries (c :: cs))). reflexivity.
Qed.

Lemma formatSubTree_bare_entries (localeCompare : string -> string -> Z)
  (items : list GitHubTreeItem) (dirPath : string) :
  formatSubTree localeCompare items dirPath bareOptions
  = linesOrEmpty
      (map (fun e => fst e ++ enhancedBaseName (snd e))%string
         (formatSubTreeEntries
            (EnhancedTreeNode.children
               (buildEnhancedTree localeCompare items dirPath bareOptions)) None)).
Proof.
  unfold formatSubTree. destruct items as [|item items']; [reflexivity|].
  set (t := buildEnhancedTree localeCompare (item :: items') dirPath bareOptions).
  destruct (EnhancedTreeNode.children t) as [|c cs] eqn:Hc.
  - unfold renderEnhancedTree. rewrite Hc. reflexivity.
  - rewrite renderEnhancedTree_entries by (rewrite Hc; discriminate).
    rewrite Hc. unfold summaryTail. cbn [showStats bareOptions maxDepth].
    rewrite append_nil_r. reflexivity.
Qed.

(** C10: the plain renderer and the enhanced renderer called with
    [showStats: false], [showSize: false], no extension filter and no depth
    bound print, line by line, the nodes of their trees (or the literal
    [(empty directory)] when there is none), and the same names appear in
    both results: a name is printed by one exactly when it is printed by the
    other; only the order of the lines may differ. *)
Theorem renderers_agree_on_names (localeCompare : string -> string -> Z)
  (items : list GitHubTreeItem) (dirPath : string) :
  formatTree localeCompare items dirPath
  = linesOrEmpty
      (map plainEntryLine
         (formatTreeEntries (TreeNode.children (buildTree localeCompare items dirPath))))
  /\ formatSubTree localeCompare items dirPath bareOptions
     = linesOrEmpty
         (map (fun e => fst e ++ enhancedBaseName (snd e))%string
            (formatSubTreeEntries
               (EnhancedTreeNode.children
                  (buildEnhancedTree localeCompare items dirPath bareOptions)) None))
  /\ (forall shown,
         In shown (plainNames localeCompare items dirPath)
         <-> In shown (enhancedNames localeCompare items dirPath bareOptions)).
Proof.
  split; [apply formatTree_entries|]. split; [apply formatSubTree_bare_entries|].
  intros shown. unfold plainNames, enhancedNames. cbn [maxDepth bareOptions].
  pose proof (uniqueNames_children _ (buildTree_uniqueNames localeCompare items dirPath))
    as [Hnd Hall].
  pose proof (uniqueEnhancedNames_children _
                (buildEnhancedTree_uniqueNames localeCompare items dirPath bareOptions))
    as [Hnd' Hall'].
  rewrite (plain_names_by_flag _ shown Hnd Hall).
  rewrite (enhanced_names_by_flag _ shown Hnd' Hall').
  split; intros [p [d [Hp [Hflag Hshown]]]]; exists p, d; (split; [exact Hp|]);
    (split; [|exact Hshown]).
  - rewrite enhancedDirectoryFlag_buildEnhancedTree by exact Hp.
    rewrite directoryFlag_buildTree in Hflag by exact Hp.
    rewrite <- Hflag. apply flagOf_ext. apply enhancedKeeps_bare.
  - rewrite directoryFlag_buildTree by exact Hp.
    rewrite enhancedDirectoryFlag_buildEnhancedTree in Hflag by exact Hp.
    rewrite <- Hflag. symmetry. apply flagOf_ext. apply enhancedKeeps_bare.
Qed.

(** ** The summary *)

Lemma formatStats_summaryLine (stats : TreeStats) :
  formatStats stats
  = summaryLine summaryIcon (totalDirs stats) (totalFiles stats) (totalSize stats)
      (filteredExtensions stats) (depthLimited stats).
Proof.
  unfold formatStats, summaryLine.
  destruct (0 <? totalSize stats);
    destruct (filteredExtensions stats) as [[|ext exts]|];
    destruct (depthLimited stats) as [n|];
    cbn [app]; unfold join at 1; cbn [concat];
    rewrite ?append_assoc, ?append_nil_r; reflexivity.
Qed.

Lemma filteredExtensions_unfiltered_both (options : SubTreeOptions) :
  match fileExtFilter options with Some (_ :: _) => False | _ => True end ->
  (forall node stats,
      filteredExtensions (calculateStats node options stats) = filteredExtensions stats)
  /\ (forall cs stats,
         filteredExtensions (calculateStatsLoop options cs stats)
         = filteredExtensions stats).
Proof.
  intros Hfilter. apply EnhancedTreeNode_forest_ind.
  - intros stats. reflexivity.
  - intros c rest IHc IHr stats. cbn [calculateStatsLoop].
    destruct (depthExceeds _ _); [apply IHr|].
    destruct (EnhancedTreeNode.isDirectory c); rewrite IHr; [rewrite IHc|]; reflexivity.
  - intros name isDirectory size cs depth IH stats.
    rewrite calculateStats_loop. unfold echoOptions.
    destruct (fileExtFilter options) as [[|ext exts]|]; try contradiction;
      destruct (maxDepth options); simpl; apply IH.
Qed.

(** The two echoes of [calculateStats]. *)
Lemma calculateStats_echoes (t : EnhancedTreeNode.t) (options : SubTreeOptions) :
  filteredExtensions (calculateStats t options emptyStats)
  = match fileExtFilter options with
    | Some (ext :: exts) => Some (ext :: exts)
    | _ => None
    end
  /\ depthLimited (calculateStats t options emptyStats) = maxDepth options.
Proof.
  split.
  - destruct (fileExtFilter options) as [[|ext exts]|] eqn:Hf.
    + rewrite (proj1 (filteredExtensions_unfiltered_both options
                        ltac:(rewrite Hf; exact I))). reflexivity.
    + rewrite calculateStats_loop. unfold echoOptions. rewrite Hf.
      destruct (maxDepth options); reflexivity.
    + rewrite (proj1 (filteredExtensions_unfiltered_both options
                        ltac:(rewrite Hf; exact I))). reflexivity.
  - destruct (maxDepth options) as [n|] eqn:Hm.
    + rewrite calculateStats_loop. unfold echoOptions. rewrite Hm. reflexivity.
    + rewrite (proj1 (depthLimited_unbounded_both options Hm)). reflexivity.
Qed.

(** Apart from the icon, the summary has the announced shape: after the
    tree body come a blank line and one line with the counts, each worded
    in the singular exactly when it is 1, the total size when positive, the
    filter when one was given and the depth bound when one was given; with
    [showStats: false] nothing follows the body. *)
Lemma summary_shape (localeCompare : string -> string -> Z)
  (items : list GitHubTreeItem) (dirPath : string) (options : SubTreeOptions) :
  EnhancedTreeNode.children (buildEnhancedTree localeCompare items dirPath options) <> [] ->
  formatSubTree localeCompare items dirPath options
  = (join nl
       (formatSubTreeLines
          (EnhancedTreeNode.children (buildEnhancedTree localeCompare items dirPath options))
          options (maxDepth options))
     ++ match showStats options with
        | Some false => ""
        | _ =>
            nl ++ nl
            ++ summaryLine summaryIcon
                 (totalDirs (calculateStats
                               (buildEnhancedTree localeCompare items dirPath options)
                               options emptyStats))
                 (totalFiles (calculateStats
                                (buildEnhancedTree localeCompare items dirPath options)
                                options emptyStats))
                 (totalSize (calculateStats
                               (buildEnhancedTree localeCompare items dirPath options)
                               options emptyStats))
                 match fileExtFilter options with
                 | Some (ext :: exts) => Some (ext :: exts)
                 | _ => None
                 end
                 (maxDepth options)
        end)%string.
Proof.
  intros Hne.
  set (t := buildEnhancedTree localeCompare items dirPath options) in *.
  assert (Hrender : formatSubTree localeCompare items dirPath options
                    = renderEnhancedTree t options).
  { unfold formatSubTree. destruct items; reflexivity. }
  rewrite Hrender. unfold renderEnhancedTree.
  destruct (EnhancedTreeNode.children t) as [|c cs]; [congruence|].
  destruct (calculateStats_echoes t options) as [Hf Hm].
  rewrite <- Hf, <- Hm, <- formatStats_summaryLine.
  destruct (showStats options) as [[|]|]; try reflexivity.
  rewrite append_nil_r. reflexivity.
Qed.

(** C7 (the code at the failing input): on the entries of the unit test
    "should format tree with basic statistics" the summary line starts with
    the four characters the source file holds, not with the chart emoji the
    test expects. *)
Theorem summary_icon_is_garbled :
  formatSubTree codepointCompare basicStatisticsItems "" defaultOptions
  = join nl [ "file1.ts"; "file2.ts"; "";
              summaryIcon ++ " Summary: 0 directories, 2 files, 3.0KB total" ]
  /\ includes (formatSubTree codepointCompare basicStatisticsItems "" defaultOptions)
       "📊 Summary" = false
  /\ summaryIcon <> "📊"%string.
Proof.
  split; [vm_compute; reflexivity|]. split; [vm_compute; reflexivity|].
  vm_compute. discriminate.
Qed.

(** * Further properties of the code *)

(** ** String operations *)

Lemma prefix_iff (p s : string) :
  String.prefix p s = true <-> exists t, s = (p ++ t)%string.
Proof.
  revert s. induction p as [|c p IH]; intros s; simpl.
  - split; [intros _; exists s; reflexivity|intros _; destruct s; reflexivity].
  - destruct s as [|c' s].
    + split; [discriminate|]. intros [t H]. discriminate.
    + simpl. destruct (ascii_dec c c') as [->|Hne].
      * rewrite IH. split; intros [t H]; exists t; [rewrite H; reflexivity|].
        injection H as H. exact H.
      * split; [discriminate|]. intros [t H]. injection H as H _. congruence.
Qed.

Lemma rev_string_onto_app (s acc : string) :
  rev_string_onto s acc = (rev_string s ++ acc)%string.
Proof.
  unfold rev_string. revert acc. induction s as [|c s IH]; intros acc; simpl.
  - reflexivity.
  - rewrite IH, (IH (String c "")), append_assoc. reflexivity.
Qed.

Lemma rev_string_cons (c : ascii) (s : string) :
  rev_string (String c s) = (rev_string s ++ String c "")%string.
Proof. unfold rev_string at 1. simpl. apply rev_string_onto_app. Qed.

Lemma rev_string_app (s t : string) :
  rev_string (s ++ t) = (rev_string t ++ rev_string s)%string.
Proof.
  induction s as [|c s IH]; simpl.
  - rewrite append_nil_r. reflexivity.
  - rewrite !rev_string_cons, IH, append_assoc. reflexivity.
Qed.

Lemma rev_string_involutive (s : string) : rev_string (rev_string s) = s.
Proof.
  induction s as [|c s IH]; [reflexivity|].
  rewrite rev_string_cons, rev_string_app, IH. reflexivity.
Qed.

(** [endsWith] is the suffix test. *)
Lemma endsWith_iff (s p : string) :
  endsWith s p = true <-> exists pre, s = (pre ++ p)%string.
Proof.
  unfold endsWith. rewrite prefix_iff. split.
  - intros [t H]. exists (rev_string t).
    rewrite <- (rev_string_involutive s), H, rev_string_app, rev_string_involutive.
    reflexivity.
  - intros [pre ->]. exists (rev_string pre). apply rev_string_app.
Qed.

(** [includes] is the substring test. *)
Lemma includes_iff (hay needle : string) :
  includes hay needle = true <-> exists a b, hay = (a ++ needle ++ b)%string.
Proof.
  induction hay as [|c hay IH].
  - cbn [includes]. rewrite orb_false_r, prefix_iff. split.
    + intros [t H]. exists ""%string, t. exact H.
    + intros [a [b H]]. destruct a; [exists b; exact H|discriminate].
  - cbn [includes]. rewrite orb_true_iff, IH, prefix_iff. split.
    + intros [[t H]|[a [b H]]].
      * exists ""%string, t. exact H.
      * exists (String c a), b. rewrite H. reflexivity.
    + intros [a [b H]]. destruct a as [|c' a].
      * left. exists b. exact H.
      * right. injection H as _ H. exists a, b. exact H.
Qed.

Lemma startsWith_char (s : string) (c : ascii) :
  startsWith s (String c "")
  = match s with
    | EmptyString => false
    | String c' _ => Ascii.eqb c' c
    end.
Proof.
  unfold startsWith. destruct s as [|c' s]; [reflexivity|]. simpl.
  destruct (ascii_dec c c') as [->|Hne].
  - rewrite Ascii.eqb_refl. destruct s; reflexivity.
  - symmetry. apply Ascii.eqb_neq. congruence.
Qed.

Lemma lastChar_app_char (s : string) (c : ascii) :
  lastChar (s ++ String c "") = Some c.
Proof.
  induction s as [|x s IH]; [reflexivity|].
  simpl append. destruct s as [|y s]; [reflexivity|]. exact IH.
Qed.

Lemma lastChar_Some (s : string) (c : ascii) :
  lastChar s = Some c -> exists pre, s = (pre ++ String c "")%string.
Proof.
  induction s as [|x s IH]; [discriminate|].
  destruct s as [|y s].
  - simpl. intros H. injection H as ->. exists ""%string. reflexivity.
  - intros H. destruct (IH H) as [pre Hpre]. exists (String x pre).
    simpl. rewrite <- Hpre. reflexivity.
Qed.

Lemma endsWith_char (s : string) (c : ascii) :
  endsWith s (String c "") = true <-> lastChar s = Some c.
Proof.
  rewrite endsWith_iff. split.
  - intros [pre ->]. apply lastChar_app_char.
  - apply lastChar_Some.
Qed.

Lemma endsWith_char_false (s : string) (c : ascii) :
  endsWith s (String c "") = false <-> lastChar s <> Some c.
Proof.
  rewrite <- endsWith_char. destruct (endsWith s (String c "")); split; congruence.
Qed.

Lemma includes_char (s : string) (c : ascii) :
  includes s (String c "") = false <-> countChar c s = O.
Proof.
  induction s as [|x s IH].
  - simpl. tauto.
  - cbn [includes countChar].
    change (String.prefix (String c "") (String x s)) with (startsWith (String x s) (String c "")).
    rewrite startsWith_char.
    destruct (Ascii.eqb x c); simpl; [split; discriminate|exact IH].
Qed.

Lemma includes_double (s : string) (c x : ascii) :
  includes (String x s) (String c (String c ""))
  = (Ascii.eqb x c && startsWith s (String c "")) || includes s (String c (String c "")).
Proof.
  cbn [includes]. f_equal. simpl.
  destruct (ascii_dec c x) as [->|Hne].
  - rewrite Ascii.eqb_refl. reflexivity.
  - replace (Ascii.eqb x c) with false by (symmetry; apply Ascii.eqb_neq; congruence).
    reflexivity.
Qed.

(** ** utils/path-utils.ts *)

Lemma backslashesToSlashes_clean (s : string) :
  countChar backslash (backslashesToSlashes s) = O.
Proof.
  induction s as [|c s IH]; [reflexivity|]. simpl.
  destruct (Ascii.eqb c backslash) eqn:E; simpl; [exact IH|]. rewrite E. exact IH.
Qed.

Lemma backslashesToSlashes_id (s : string) :
  countChar backslash s = O -> backslashesToSlashes s = s.
Proof.
  induction s as [|c s IH]; [reflexivity|]. simpl.
  destruct (Ascii.eqb c backslash); [discriminate|]. intros H. rewrite IH; auto.
Qed.

Lemma stripLeadingSlashes_count (c : ascii) (s : string) :
  (countChar c (stripLeadingSlashes s) <= countChar c s)%nat.
Proof.
  induction s as [|x s IH]; [reflexivity|]. simpl.
  destruct (Ascii.eqb x slash); [|reflexivity].
  destruct (Ascii.eqb x c); lia.
Qed.

Lemma stripTrailingSlashes_count (c : ascii) (s : string) :
  (countChar c (stripTrailingSlashes s) <= countChar c s)%nat.
Proof.
  induction s as [|x s IH]; [reflexivity|]. simpl.
  destruct (stripTrailingSlashes s) as [|y t] eqn:E.
  - destruct (Ascii.eqb x slash); simpl; destruct (Ascii.eqb x c); lia.
  - cbn [countChar] in *. destruct (Ascii.eqb x c); lia.
Qed.

Lemma collapseSlashesFrom_count (c : ascii) (s : string) :
  forall afterSlash,
    (countChar c (collapseSlashesFrom afterSlash s) <= countChar c s)%nat.
Proof.
  induction s as [|x s IH]; intros afterSlash; [reflexivity|].
  cbn [collapseSlashesFrom countChar].
  destruct (Ascii.eqb x slash) eqn:E.
  - destruct afterSlash.
    + specialize (IH true). destruct (Ascii.eqb x c); lia.
    + apply Ascii.eqb_eq in E. subst x. specialize (IH true).
      cbn [countChar]. destruct (Ascii.eqb slash c); lia.
  - cbn [countChar]. specialize (IH false). destruct (Ascii.eqb x c); lia.
Qed.

Lemma stripLeadingSlashes_first (s : string) :
  startsWith (stripLeadingSlashes s) "/" = false.
Proof.
  induction s as [|x s IH]; [reflexivity|]. simpl.
  destruct (Ascii.eqb x slash) eqn:E; [exact IH|].
  change "/"%string with (String slash ""). rewrite startsWith_char. exact E.
Qed.

Lemma stripLeadingSlashes_id (s : string) :
  startsWith s "/" = false -> stripLeadingSlashes s = s.
Proof.
  change "/"%string with (String slash ""). rewrite startsWith_char.
  destruct s as [|x s]; [reflexivity|]. simpl. intros ->. reflexivity.
Qed.

Lemma stripTrailingSlashes_first (s : string) :
  startsWith s "/" = false -> startsWith (stripTrailingSlashes s) "/" = false.
Proof.
  change "/"%string with (String slash ""). rewrite !startsWith_char.
  destruct s as [|x s]; [reflexivity|]. simpl. intros E.
  destruct (stripTrailingSlashes s); [rewrite E; exact E|exact E].
Qed.

Lemma stripTrailingSlashes_last (s : string) :
  lastChar (stripTrailingSlashes s) <> Some slash.
Proof.
  induction s as [|x s IH]; [discriminate|]. simpl.
  destruct (stripTrailingSlashes s) as [|y t] eqn:E.
  - destruct (Ascii.eqb x slash) eqn:Ex; [discriminate|].
    simpl. apply Ascii.eqb_neq in Ex. congruence.
  - exact IH.
Qed.

Lemma stripTrailingSlashes_id (s : string) :
  lastChar s <> Some slash -> stripTrailingSlashes s = s.
Proof.
  induction s as [|x s IH]; [reflexivity|]. intros H. simpl.
  destruct s as [|y s].
  - simpl. destruct (Ascii.eqb x slash) eqn:E; [|reflexivity].
    apply Ascii.eqb_eq in E. subst x. elim H. reflexivity.
  - rewrite IH by exact H. reflexivity.
Qed.

Lemma collapseSlashesFrom_first (s : string) :
  startsWith s "/" = false -> startsWith (collapseSlashesFrom false s) "/" = false.
Proof.
  change "/"%string with (String slash ""). rewrite !startsWith_char.
  destruct s as [|x s]; [reflexivity|]. simpl. intros E. rewrite E. exact E.
Qed.

Lemma collapseSlashesFrom_cons (afterSlash : bool) (c : ascii) (rest : string) :
  collapseSlashesFrom afterSlash (String c rest)
  = if Ascii.eqb c slash
    then if afterSlash then collapseSlashesFrom true rest
         else String slash (collapseSlashesFrom true rest)
    else String c (collapseSlashesFrom false rest).
Proof. reflexivity. Qed.

Lemma lastChar_cons (c : ascii) (s : string) :
  s <> ""%string -> lastChar (String c s) = lastChar s.
Proof. destruct s; [congruence|reflexivity]. Qed.

Lemma collapseSlashesFrom_last (s : string) (x : ascii) :
  lastChar s = Some x -> x <> slash ->
  forall afterSlash, lastChar (collapseSlashesFrom afterSlash s) = Some x.
Proof.
  intros Hlast Hx. induction s as [|c s IH]; [discriminate|].
  intros afterSlash. destruct s as [|y s].
  - simpl in Hlast. injection Hlast as ->. simpl.
    replace (Ascii.eqb x slash) with false by (symmetry; apply Ascii.eqb_neq, Hx).
    reflexivity.
  - change (lastChar (String y s) = Some x) in Hlast.
    rewrite collapseSlashesFrom_cons.
    assert (Hne : forall b, collapseSlashesFrom b (String y s) <> ""%string).
    { intros b Hnil. pose proof (IH Hlast b) as H. rewrite Hnil in H. discriminate. }
    destruct (Ascii.eqb c slash); [destruct afterSlash|].
    + apply (IH Hlast true).
    + rewrite lastChar_cons by apply Hne. apply (IH Hlast true).
    + rewrite lastChar_cons by apply Hne. apply (IH Hlast false).
Qed.

Lemma collapseSlashesFrom_single (s : string) :
  forall afterSlash,
    includes (collapseSlashesFrom afterSlash s) "//" = false
    /\ (afterSlash = true -> startsWith (collapseSlashesFrom afterSlash s) "/" = false).
Proof.
  change "//"%string with (String slash (String slash "")).
  change "/"%string with (String slash "").
  induction s as [|x s IH]; intros afterSlash; [split; reflexivity|].
  cbn [collapseSlashesFrom].
  destruct (Ascii.eqb x slash) eqn:E.
  - destruct (IH true) as [H1 H2]. destruct afterSlash.
    + split; [exact H1|]. intros _. apply H2. reflexivity.
    + split; [|discriminate].
      rewrite includes_double, H1, (H2 eq_refl), andb_false_r. reflexivity.
  - destruct (IH false) as [H1 _]. split.
    + rewrite includes_double, H1, E. reflexivity.
    + intros _. rewrite startsWith_char. exact E.
Qed.

Lemma collapseSlashesFrom_id (s : string) :
  includes s "//" = false ->
  forall afterSlash,
    (afterSlash = true -> startsWith s "/" = false) ->
    collapseSlashesFrom afterSlash s = s.
Proof.
  change "//"%string with (String slash (String slash "")).
  change "/"%string with (String slash "").
  induction s as [|x s IH]; intros Hinc afterSlash Hfirst; [reflexivity|].
  rewrite includes_double in Hinc. apply orb_false_iff in Hinc.
  destruct Hinc as [Hhead Htail].
  cbn [collapseSlashesFrom]. destruct (Ascii.eqb x slash) eqn:E.
  - destruct afterSlash.
    + specialize (Hfirst eq_refl). rewrite startsWith_char, E in Hfirst. discriminate.
    + apply Ascii.eqb_eq in E. subst x. f_equal.
      apply IH; [exact Htail|]. intros _. exact Hhead.
  - f_equal. apply IH; [exact Htail|discriminate].
Qed.

Lemma normalizePath_no_backslash (path : string) :
  includes (normalizePath path) "\" = false.
Proof.
  unfold normalizePath.
  set (a := backslashesToSlashes path).
  set (b := stripLeadingSlashes a).
  set (c := stripTrailingSlashes b).
  change "\"%string with (String backslash ""). apply includes_char.
  pose proof (backslashesToSlashes_clean path) as Ha. fold a in Ha.
  pose proof (stripLeadingSlashes_count backslash a) as Hb. fold b in Hb.
  pose proof (stripTrailingSlashes_count backslash b) as Hc. fold c in Hc.
  pose proof (collapseSlashesFrom_count backslash c false). lia.
Qed.

Lemma normalizePath_no_leading_slash (path : string) :
  startsWith (normalizePath path) "/" = false.
Proof.
  unfold normalizePath.
  apply collapseSlashesFrom_first, stripTrailingSlashes_first,
    stripLeadingSlashes_first.
Qed.

Lemma normalizePath_no_trailing_slash (path : string) :
  endsWith (normalizePath path) "/" = false.
Proof.
  unfold normalizePath.
  set (b := stripLeadingSlashes (backslashesToSlashes path)).
  set (c := stripTrailingSlashes b).
  change "/"%string with (String slash ""). apply endsWith_char_false.
  pose proof (stripTrailingSlashes_last b) as Hc. fold c in Hc.
  destruct (lastChar c) as [x|] eqn:E.
  - rewrite (collapseSlashesFrom_last c x E) by congruence. exact Hc.
  - destruct c as [|y t]; [discriminate|].
    exfalso. clear -E. revert y E. induction t as [|z t IH]; intros y E.
    + discriminate.
    + apply (IH z). exact E.
Qed.

Lemma normalizePath_no_double_slash (path : string) :
  includes (normalizePath path) "//" = false.
Proof. unfold normalizePath. apply collapseSlashesFrom_single. Qed.

(** A path in normal form is left as it is. *)
Lemma normalizePath_fixed (path : string) :
  includes path "\" = false ->
  startsWith path "/" = false ->
  endsWith path "/" = false ->
  includes path "//" = false ->
  normalizePath path = path.
Proof.
  intros H1 H2 H3 H4. unfold normalizePath.
  change "\"%string with (String backslash "") in H1. apply includes_char in H1.
  change "/"%string with (String slash "") in H3. apply endsWith_char_false in H3.
  rewrite (backslashesToSlashes_id path H1), (stripLeadingSlashes_id path H2),
    (stripTrailingSlashes_id path H3).
  apply collapseSlashesFrom_id; [exact H4|discriminate].
Qed.

Lemma normalizePath_twice (path : string) :
  normalizePath (normalizePath path) = normalizePath path.
Proof.
  apply normalizePath_fixed.
  - apply normalizePath_no_backslash.
  - apply normalizePath_no_leading_slash.
  - apply normalizePath_no_trailing_slash.
  - apply normalizePath_no_double_slash.
Qed.

(** X1: whatever the input, the result of [normalizePath] holds no
    backslash, neither starts nor ends with a slash, and holds no two
    slashes in a row. *)
Theorem normalizePath_normal_form (path : string) :
  includes (normalizePath path) "\" = false
  /\ startsWith (normalizePath path) "/" = false
  /\ endsWith (normalizePath path) "/" = false
  /\ includes (normalizePath path) "//" = false.
Proof.
  split; [|split; [|split]].
  - apply normalizePath_no_backslash.
  - apply normalizePath_no_leading_slash.
  - apply normalizePath_no_trailing_slash.
  - apply normalizePath_no_double_slash.
Qed.

(** X2: the paths [normalizePath] leaves unchanged are exactly those in
    that normal form; in particular [normalizePath] is idempotent. *)
Theorem normalizePath_fixed_iff (path : string) :
  (normalizePath path = path
   <-> includes path "\" = false
       /\ startsWith path "/" = false
       /\ endsWith path "/" = false
       /\ includes path "//" = false)
  /\ normalizePath (normalizePath path) = normalizePath path.
Proof.
  split; [split|apply normalizePath_twice].
  - intros H. rewrite <- H. split; [|split; [|split]].
    + apply normalizePath_no_backslash.
    + apply normalizePath_no_leading_slash.
    + apply normalizePath_no_trailing_slash.
    + apply normalizePath_no_double_slash.
  - intros (H1 & H2 & H3 & H4). apply normalizePath_fixed; assumption.
Qed.

Lemma stripLeading_backslashes_nil (s : string) :
  stripLeadingSlashes (backslashesToSlashes s) = ""%string <-> onlySlashes s = true.
Proof.
  induction s as [|c s IH]; [simpl; tauto|].
  cbn [backslashesToSlashes stripLeadingSlashes onlySlashes].
  destruct (Ascii.eqb c backslash) eqn:Eb.
  - rewrite Ascii.eqb_refl, orb_true_r. exact IH.
  - rewrite orb_false_r. destruct (Ascii.eqb c slash); [exact IH|].
    simpl. split; discriminate.
Qed.

(** X3: [normalizePath] returns the empty string exactly for the inputs
    made of slashes and backslashes only (the empty input among them). *)
Theorem normalizePath_empty_iff (path : string) :
  normalizePath path = ""%string <-> onlySlashes path = true.
Proof.
  rewrite <- stripLeading_backslashes_nil. unfold normalizePath.
  set (b := stripLeadingSlashes (backslashesToSlashes path)).
  pose proof (stripLeadingSlashes_first (backslashesToSlashes path)) as Hfirst.
  fold b in Hfirst. split.
  - intros H. destruct b as [|x t]; [reflexivity|]. exfalso.
    change "/"%string with (String slash "") in Hfirst.
    rewrite startsWith_char in Hfirst.
    cbn [stripTrailingSlashes] in H.
    destruct (stripTrailingSlashes t); [rewrite Hfirst in H|];
      rewrite collapseSlashesFrom_cons, Hfirst in H; discriminate.
  - intros ->. reflexivity.
Qed.

(** ** config/arguments.ts *)

Lemma join_cons_char (sep : string) (c : ascii) (hd : string) (tl : list string) :
  join sep (String c hd :: tl) = String c (join sep (hd :: tl)).
Proof. destruct tl; reflexivity. Qed.

(** [s.split('/').join('/')] gives [s] back. *)
Lemma join_split (s : string) : join "/" (split slash s) = s.
Proof.
  induction s as [|c s IH]; [reflexivity|]. cbn [split].
  destruct (Ascii.eqb c slash) eqn:E.
  - apply Ascii.eqb_eq in E. subst c.
    destruct (split slash s) as [|hd tl] eqn:Hs; [elim (split_not_nil slash s Hs)|].
    change (join "/" (""%string :: hd :: tl)) with (String slash (join "/" (hd :: tl))).
    rewrite IH. reflexivity.
  - destruct (split slash s) as [|hd tl] eqn:Hs; [elim (split_not_nil slash s Hs)|].
    rewrite join_cons_char, IH. reflexivity.
Qed.

Lemma split_length (s : string) : List.length (split slash s) = S (countChar slash s).
Proof.
  induction s as [|c s IH]; [reflexivity|]. cbn [split countChar].
  destruct (Ascii.eqb c slash).
  - simpl. rewrite IH. reflexivity.
  - destruct (split slash s); [discriminate|exact IH].
Qed.

Lemma not_In_countChar (c : ascii) (s : string) :
  ~ In c (list_ascii_of_string s) <-> countChar c s = O.
Proof.
  induction s as [|x s IH]; [simpl; tauto|]. cbn [list_ascii_of_string In countChar].
  destruct (Ascii.eqb x c) eqn:E.
  - apply Ascii.eqb_eq in E. split; [intros H; elim H; auto|discriminate].
  - apply Ascii.eqb_neq in E. rewrite <- IH. tauto.
Qed.

Lemma slash_free_iff (s : string) :
  includes s "/" = false <-> ~ In slash (list_ascii_of_string s).
Proof.
  change "/"%string with (String slash ""). rewrite includes_char, not_In_countChar.
  tauto.
Qed.

Lemma eqb_empty_false (s : string) : String.eqb s "" = false <-> s <> ""%string.
Proof. apply String.eqb_neq. Qed.

(** X4: [parseRepoIdentifier] succeeds exactly on the strings
    [owner/repo/branch] whose three parts are non-empty and hold no slash,
    and then returns these three parts: printing the parts back with
    slashes gives the input. *)
Theorem parseRepoIdentifier_ok_iff (repoIdentifier : string) (parsed : RepoIdentifier) :
  parseRepoIdentifier repoIdentifier = inr parsed
  <-> repoIdentifier = (owner parsed ++ "/" ++ repo parsed ++ "/" ++ branch parsed)%string
      /\ owner parsed <> ""%string /\ repo parsed <> ""%string
      /\ branch parsed <> ""%string
      /\ includes (owner parsed) "/" = false
      /\ includes (repo parsed) "/" = false
      /\ includes (branch parsed) "/" = false.
Proof.
  unfold parseRepoIdentifier. split.
  - pose proof (join_split repoIdentifier) as Hjoin.
    pose proof (split_parts_no_sep slash repoIdentifier) as Hfree.
    destruct (split slash repoIdentifier) as [|o [|r [|b [|x l]]]]; try discriminate.
    destruct (String.eqb o "") eqn:Eo; [discriminate|].
    destruct (String.eqb r "") eqn:Er; [discriminate|].
    destruct (String.eqb b "") eqn:Eb; [discriminate|].
    simpl. intros H. injection H as <-. simpl.
    inversion Hfree as [|? ? Ho Hfree1]; subst.
    inversion Hfree1 as [|? ? Hr Hfree2]; subst.
    inversion Hfree2 as [|? ? Hb _]; subst.
    rewrite !slash_free_iff. rewrite <- !eqb_empty_false.
    repeat split; try assumption; reflexivity.
  - intros (Hs & Ho & Hr & Hb & Fo & Fr & Fb).
    rewrite slash_free_iff in Fo, Fr, Fb.
    assert (Hsplit : split slash repoIdentifier
                     = [owner parsed; repo parsed; branch parsed]).
    { rewrite Hs.
      change (owner parsed ++ "/" ++ repo parsed ++ "/" ++ branch parsed)%string
        with (join "/" [owner parsed; repo parsed; branch parsed]).
      apply split_join; [discriminate|]. repeat constructor; assumption. }
    rewrite Hsplit.
    apply eqb_empty_false in Ho, Hr, Hb. rewrite Ho, Hr, Hb. simpl.
    destruct parsed. reflexivity.
Qed.

(** X5: [parseRepoIdentifier] fails with the format message exactly when
    the input does not hold two slashes, and with the empty-part message
    exactly when it holds two slashes and one of the three parts between
    them is empty. *)
Theorem parseRepoIdentifier_errors (repoIdentifier : string) :
  (parseRepoIdentifier repoIdentifier = inl invalidFormatError
   <-> countChar slash repoIdentifier <> 2%nat)
  /\ (parseRepoIdentifier repoIdentifier = inl emptyPartError
      <-> countChar slash repoIdentifier = 2%nat
          /\ exists o r b,
              split slash repoIdentifier = [o; r; b]
              /\ (o = ""%string \/ r = ""%string \/ b = ""%string)).
Proof.
  unfold parseRepoIdentifier.
  pose proof (split_length repoIdentifier) as Hlen.
  destruct (split slash repoIdentifier) as [|o [|r [|b [|x l]]]]; simpl in Hlen.
  1-3, 5: split; [split; [lia|reflexivity]|];
    (split; [discriminate|]);
    intros [H [o' [r' [b' [Hs _]]]]]; discriminate.
  assert (Hcount : countChar slash repoIdentifier = 2%nat) by lia.
  destruct (String.eqb o "") eqn:Eo; [|destruct (String.eqb r "") eqn:Er;
                                        [|destruct (String.eqb b "") eqn:Eb]]; simpl.
  - split; [split; [discriminate|congruence]|]. split; [|reflexivity].
    intros _. split; [exact Hcount|]. exists o, r, b. split; [reflexivity|].
    left. apply String.eqb_eq, Eo.
  - split; [split; [discriminate|congruence]|]. split; [|reflexivity].
    intros _. split; [exact Hcount|]. exists o, r, b. split; [reflexivity|].
    right. left. apply String.eqb_eq, Er.
  - split; [split; [discriminate|congruence]|]. split; [|reflexivity].
    intros _. split; [exact Hcount|]. exists o, r, b. split; [reflexivity|].
    right. right. apply String.eqb_eq, Eb.
  - split; [split; [discriminate|congruence]|]. split; [discriminate|].
    intros [_ [o' [r' [b' [Hs Hempty]]]]]. injection Hs as <- <- <-.
    apply String.eqb_neq in Eo, Er, Eb. tauto.
Qed.

Lemma findIndex_None {A : Type} (p : A -> bool) (l : list A) :
  findIndex p l = None <-> forall x, In x l -> p x = false.
Proof.
  induction l as [|x l IH]; simpl.
  - split; [intros _ x []|reflexivity].
  - destruct (p x) eqn:E.
    + split; [discriminate|]. intros H. rewrite (H x (or_introl eq_refl)) in E.
      discriminate.
    + destruct (findIndex p l).
      * split; [discriminate|]. intros H.
        assert (Hl : forall y, In y l -> p y = false) by (intros y Hy; apply H; auto).
        apply IH in Hl. discriminate.
      * split; [|reflexivity]. intros _ y [<-|Hy]; [exact E|].
        apply (proj1 IH eq_refl y Hy).
Qed.

Lemma findIndex_first {A : Type} (p : A -> bool) (pre : list A) (x : A) (post : list A) :
  (forall y, In y pre -> p y = false) -> p x = true ->
  findIndex p (pre ++ x :: post) = Some (List.length pre).
Proof.
  induction pre as [|y pre IH]; intros Hpre Hx; simpl.
  - rewrite Hx. reflexivity.
  - rewrite (Hpre y (or_introl eq_refl)), IH; auto.
    intros z Hz. apply Hpre. right. exact Hz.
Qed.

Lemma flag_absent (l : list string) :
  ~ In "--repoIdentifier"%string l ->
  forall y, In y l -> String.eqb y "--repoIdentifier" = false.
Proof.
  intros H y Hy. apply String.eqb_neq. intros ->. contradiction.
Qed.

(** X6: [parseArgs] returns [undefined] when the flag is absent; otherwise
    the first occurrence of the flag decides: the argument after it is
    parsed by [parseRepoIdentifier], unless it is missing, empty or starts
    with [--], which fails with the missing-value message; whatever follows
    is ignored. *)
Theorem parseArgs_first_flag (args : list string) :
  (~ In "--repoIdentifier"%string args -> parseArgs args = inr None)
  /\ (forall pre value post,
         args = (pre ++ "--repoIdentifier"%string :: value :: post)%list ->
         ~ In "--repoIdentifier"%string pre ->
         parseArgs args
         = if String.eqb value "" || startsWith value "--"
           then inl missingValueError
           else match parseRepoIdentifier value with
                | inl message => inl message
                | inr parsed => inr (Some parsed)
                end)
  /\ (forall pre,
         args = (pre ++ ["--repoIdentifier"%string])%list ->
         ~ In "--repoIdentifier"%string pre ->
         parseArgs args = inl missingValueError).
Proof.
  unfold parseArgs. split; [|split].
  - intros H0. pose proof (flag_absent _ H0) as H.
    rewrite (proj2 (findIndex_None _ args) H). reflexivity.
  - intros pre value post -> H0. pose proof (flag_absent _ H0) as H.
    rewrite (findIndex_first (fun arg => String.eqb arg "--repoIdentifier") pre
               "--repoIdentifier"%string (value :: post) H eq_refl).
    rewrite nth_error_app2 by lia.
    replace (List.length pre + 1 - List.length pre)%nat with 1%nat by lia. reflexivity.
  - intros pre -> H0. pose proof (flag_absent _ H0) as H.
    rewrite (findIndex_first (fun arg => String.eqb arg "--repoIdentifier") pre
               "--repoIdentifier"%string [] H eq_refl).
    rewrite nth_error_app2 by lia.
    replace (List.length pre + 1 - List.length pre)%nat with 1%nat by lia. reflexivity.
Qed.

Lemma parseArgs_first_flag_witness :
  parseArgs ["node"; "server.js"; "--port"; "3000"; "--repoIdentifier";
             "microsoft/vscode/develop"; "--verbose"]%string
  = inr (Some (mkRepoIdentifier "microsoft" "vscode" "develop")).
Proof.
  rewrite (proj1 (proj2 (parseArgs_first_flag
                           ["node"; "server.js"; "--port"; "3000"; "--repoIdentifier";
                            "microsoft/vscode/develop"; "--verbose"]%string))
             ["node"; "server.js"; "--port"; "3000"]%string
             "microsoft/vscode/develop"%string ["--verbose"]%string eq_refl).
  - reflexivity.
  - simpl. intros [H|[H|[H|[H|[]]]]]; discriminate.
Defined.

(** ** services/enhanced-tree-formatter.ts: filter and statistics *)

(** A file name passes the extension filter exactly when no filter is
    given, the filter is the empty list, or the name ends with one of the
    listed extensions. *)
Lemma matchesExtFilter_iff (fileName : string) (extFilter : option (list string)) :
  matchesExtFilter fileName extFilter = true
  <-> extFilter = None
      \/ extFilter = Some []
      \/ exists exts ext pre,
          extFilter = Some exts /\ In ext exts /\ fileName = (pre ++ ext)%string.
Proof.
  destruct extFilter as [[|e exts]|]; cbn [matchesExtFilter].
  - split; auto.
  - rewrite existsb_exists. split.
    + intros [ext [Hin Hends]]. apply endsWith_iff in Hends. destruct Hends as [pre ->].
      right. right. exists (e :: exts), ext, pre. auto.
    + intros [H|[H|[exts' [ext [pre [H [Hin ->]]]]]]]; try discriminate.
      injection H as <-. exists ext. split; [exact Hin|].
      apply endsWith_iff. exists pre. reflexivity.
  - split; auto.
Qed.

Lemma countDirFilesLoop_shift maxDepth (cs : list EnhancedTreeNode.t) :
  forall count, countDirFilesLoop maxDepth cs count = count + countDirFilesLoop maxDepth cs 0.
Proof.
  induction cs as [|c cs IH]; intros count; cbn [countDirFilesLoop]; [lia|].
  destruct (depthExceeds _ _); [apply IH|].
  destruct (EnhancedTreeNode.isDirectory c).
  - rewrite (IH (count + _)), (IH (0 + _)). lia.
  - rewrite (IH (count + 1)), (IH (0 + 1)). lia.
Qed.

Lemma calculateDirSizeLoop_shift maxDepth (cs : list EnhancedTreeNode.t) :
  forall total,
    calculateDirSizeLoop maxDepth cs total = total + calculateDirSizeLoop maxDepth cs 0.
Proof.
  induction cs as [|c cs IH]; intros total; cbn [calculateDirSizeLoop]; [lia|].
  destruct (depthExceeds _ _); [apply IH|].
  destruct (EnhancedTreeNode.isDirectory c).
  - rewrite (IH (total + _)), (IH (0 + _)). lia.
  - rewrite (IH (total + _)), (IH (0 + _)). lia.
Qed.

Lemma echoOptions_counts options stats :
  totalFiles (echoOptions options stats) = totalFiles stats
  /\ totalDirs (echoOptions options stats) = totalDirs stats
  /\ totalSize (echoOptions options stats) = totalSize stats.
Proof.
  unfold echoOptions.
  destruct (fileExtFilter options) as [[|e exts]|], (maxDepth options); simpl; auto.
Qed.

Lemma calculateStats_aggregates_both (options : SubTreeOptions) :
  (forall node stats,
      totalFiles (calculateStats node options stats)
      = totalFiles stats + countDirFiles node (maxDepth options)
      /\ totalSize (calculateStats node options stats)
         = totalSize stats + calculateDirSize node (maxDepth options))
  /\ (forall cs stats,
         totalFiles (calculateStatsLoop options cs stats)
         = totalFiles stats + countDirFilesLoop (maxDepth options) cs 0
         /\ totalSize (calculateStatsLoop options cs stats)
            = totalSize stats + calculateDirSizeLoop (maxDepth options) cs 0).
Proof.
  apply EnhancedTreeNode_forest_ind.
  - intros stats. simpl. lia.
  - intros c rest IHc IHr stats.
    cbn [calculateStatsLoop countDirFilesLoop calculateDirSizeLoop].
    destruct (depthExceeds _ _); [apply IHr|].
    destruct (EnhancedTreeNode.isDirectory c).
    + destruct (IHr (calculateStats c options (countDir stats))) as [H1 H2].
      destruct (IHc (countDir stats)) as [H3 H4].
      rewrite H1, H2, H3, H4.
      rewrite (countDirFilesLoop_shift _ rest (0 + _)),
        (calculateDirSizeLoop_shift _ rest (0 + _)).
      unfold countDir. cbn [totalFiles totalSize]. lia.
    + destruct (IHr (countFile (EnhancedTreeNode.size c) stats)) as [H1 H2].
      rewrite H1, H2.
      rewrite (countDirFilesLoop_shift _ rest (0 + 1)),
        (calculateDirSizeLoop_shift _ rest (0 + _)).
      unfold countFile. cbn [totalFiles totalSize]. lia.
  - intros name isDirectory size cs depth IH stats.
    rewrite calculateStats_loop, countDirFiles_loop, calculateDirSize_loop.
    destruct (echoOptions_counts options
                (calculateStatsLoop options
                   (EnhancedTreeNode.children
                      (EnhancedTreeNode.mk name isDirectory size cs depth)) stats))
      as (E1 & _ & E3).
    rewrite E1, E3. apply IH.
Qed.

(** X7: the totals of the summary are the aggregates of the root: for every
    tree and every depth bound, [calculateStats] counts as many files as
    [countDirFiles] and adds up the same size as [calculateDirSize]. *)
Theorem stats_match_root_aggregates (t : EnhancedTreeNode.t) (options : SubTreeOptions) :
  totalFiles (calculateStats t options emptyStats) = countDirFiles t (maxDepth options)
  /\ totalSize (calculateStats t options emptyStats)
     = calculateDirSize t (maxDepth options).
Proof.
  destruct (proj1 (calculateStats_aggregates_both options) t emptyStats) as [H1 H2].
  rewrite H1, H2. simpl. split; reflexivity.
Qed.

(** ** Invariants of the built trees *)

Section LeafInvariant.
Variable localeCompare : string -> string -> Z.

Lemma filesAreLeaves_children (n : TreeNode.t) :
  filesAreLeaves n -> Forall filesAreLeaves (TreeNode.children n).
Proof. intros H. inversion H; subst. assumption. Qed.

Lemma insertChild_leaves (isTree : bool) (parts : list string) :
  forall cs,
    Forall filesAreLeaves cs ->
    Forall filesAreLeaves (insertChild localeCompare cs parts isTree).
Proof.
  induction parts as [|k rest IH]; intros cs Hall; simpl; [exact Hall|].
  assert (H1 : Forall filesAreLeaves
                 (match findChild k cs with
                  | Some _ => cs
                  | None => cs ++ [TreeNode.mk k
                              (match rest with [] => false | _ :: _ => true end || isTree) []]
                  end)%list).
  { destruct (findChild k cs); [exact Hall|].
    apply Forall_app. split; [exact Hall|]. repeat constructor. }
  destruct rest as [|k2 rest2]; [exact H1|].
  apply updateNamed_Forall; [exact H1|].
  intros c Hc. rewrite addNestedNode_insertChild.
  constructor; [discriminate|].
  apply sort_Forall, IH. apply filesAreLeaves_children in Hc. exact Hc.
Qed.

Lemma buildTree_leaves (items : list GitHubTreeItem) (dirPath : string) :
  filesAreLeaves (buildTree localeCompare items dirPath).
Proof.
  unfold buildTree. rewrite buildTree_values by constructor.
  constructor; [discriminate|]. apply sort_Forall.
  simpl. generalize (@nil TreeNode.t) (Forall_nil filesAreLeaves).
  induction items as [|item items IH]; intros cs Hall; simpl; [exact Hall|].
  apply IH. unfold insertItem.
  destruct (entryParts (normalizePath dirPath) item); [|exact Hall].
  apply insertChild_leaves, Hall.
Qed.

Lemma enhancedFilesAreLeaves_children (n : EnhancedTreeNode.t) :
  enhancedFilesAreLeaves n ->
  Forall enhancedFilesAreLeaves (EnhancedTreeNode.children n).
Proof. intros H. inversion H; subst. assumption. Qed.

Lemma insertEnhancedChild_leaves (item : GitHubTreeItem) (options : SubTreeOptions)
  (parts : list string) :
  forall cs depth,
    Forall enhancedFilesAreLeaves cs ->
    Forall enhancedFilesAreLeaves
      (insertEnhancedChild localeCompare cs parts item depth options).
Proof.
  induction parts as [|k rest IH]; intros cs depth Hall; simpl; [exact Hall|].
  destruct (filteredOut k _ item options); [exact Hall|].
  assert (H1 : Forall enhancedFilesAreLeaves
                 (match findEnhancedChild k cs with
                  | Some _ => cs
                  | None => cs ++ [newEnhancedNode k
                              (match rest with [] => false | _ :: _ => true end)
                              item depth]
                  end)%list).
  { destruct (findEnhancedChild k cs); [exact Hall|].
    apply Forall_app. split; [exact Hall|]. repeat constructor. }
  destruct rest as [|k2 rest2]; [exact H1|].
  apply updateNamed_Forall; [exact H1|].
  intros c Hc. rewrite addNestedEnhancedNode_insertEnhancedChild.
  pose proof (enhancedFilesAreLeaves_children c Hc) as Hchildren.
  destruct (filteredOut k2 _ item options).
  - destruct c. constructor; [discriminate|exact Hchildren].
  - constructor; [discriminate|]. apply sort_Forall, IH. exact Hchildren.
Qed.

Lemma buildEnhancedTree_leaves items dirPath options :
  enhancedFilesAreLeaves (buildEnhancedTree localeCompare items dirPath options).
Proof.
  unfold buildEnhancedTree. rewrite buildEnhancedTree_values by constructor.
  constructor; [discriminate|]. apply sort_Forall.
  simpl. generalize (@nil EnhancedTreeNode.t) (Forall_nil enhancedFilesAreLeaves).
  induction items as [|item items IH]; intros cs Hall; simpl; [exact Hall|].
  apply IH. unfold insertEnhancedItem.
  destruct (entryParts (normalizePath dirPath) item); [|exact Hall].
  apply insertEnhancedChild_leaves, Hall.
Qed.
End LeafInvariant.

(** X8: in the trees both builders return, the names of the children of a
    node are pairwise distinct, at every level. *)
Theorem sibling_names_are_distinct (localeCompare : string -> string -> Z)
  (items : list GitHubTreeItem) (dirPath : string) (options : SubTreeOptions) :
  uniqueNames (buildTree localeCompare items dirPath)
  /\ uniqueEnhancedNames (buildEnhancedTree localeCompare items dirPath options).
Proof.
  split; [apply buildTree_uniqueNames|apply buildEnhancedTree_uniqueNames].
Qed.

(** X9: in the trees both builders return, only directories have
    children: a node whose [isDirectory] is false is a leaf. *)
Theorem only_directories_have_children (localeCompare : string -> string -> Z)
  (items : list GitHubTreeItem) (dirPath : string) (options : SubTreeOptions) :
  filesAreLeaves (buildTree localeCompare items dirPath)
  /\ enhancedFilesAreLeaves (buildEnhancedTree localeCompare items dirPath options).
Proof.
  split; [apply buildTree_leaves|apply buildEnhancedTree_leaves].
Qed.

Lemma lookupEnhancedNode_depth (p : list string) :
  forall cs d c,
    Forall (depthFrom d) cs -> lookupEnhancedNode cs p = Some c ->
    EnhancedTreeNode.depth c = d + Z.of_nat (List.length p) - 1.
Proof.
  induction p as [|k p IH]; intros cs d c Hall; [discriminate|].
  rewrite lookupEnhancedNode_cons.
  destruct (findNamed EnhancedTreeNode.name k cs) as [c'|] eqn:F; [|discriminate].
  apply findNamed_Some in F. destruct F as [Hin _].
  rewrite Forall_forall in Hall. pose proof (Hall c' Hin) as Hc'.
  destruct p as [|k2 p2].
  - intros H. injection H as <-. rewrite (depthFrom_depth d c' Hc'). simpl. lia.
  - intros H. apply (IH _ (d + 1)) in H; [|apply depthFrom_children, Hc'].
    rewrite H. cbn [List.length]. lia.
Qed.

(** X10: in the tree the enhanced builder returns, the node reached by
    following a path of segments carries the last segment as its name and
    the number of segments as its depth. *)
Theorem node_name_and_depth_follow_path (localeCompare : string -> string -> Z)
  (items : list GitHubTreeItem) (dirPath : string) (options : SubTreeOptions)
  (p : list string) (node : EnhancedTreeNode.t) :
  lookupEnhancedNode
    (EnhancedTreeNode.children (buildEnhancedTree localeCompare items dirPath options)) p
  = Some node ->
  EnhancedTreeNode.name node = last p ""%string
  /\ EnhancedTreeNode.depth node = Z.of_nat (List.length p).
Proof.
  intros H. split; [apply (lookupEnhancedNode_name p _ _ H)|].
  pose proof (depthFrom_children 0 _
                (buildEnhancedTree_depthFrom localeCompare items dirPath options)) as Hd.
  rewrite (lookupEnhancedNode_depth p _ (0 + 1) node Hd H). lia.
Qed.

Lemma node_name_and_depth_follow_path_witness :
  EnhancedTreeNode.name (EnhancedTreeNode.mk "index.ts" false (Some 100) [] 2)
  = last ["src"; "index.ts"]%string ""%string
  /\ EnhancedTreeNode.depth (EnhancedTreeNode.mk "index.ts" false (Some 100) [] 2)
     = Z.of_nat (List.length ["src"; "index.ts"]%string).
Proof.
  apply (node_name_and_depth_follow_path codepointCompare sampleItems "" defaultOptions).
  vm_compute. reflexivity.
Defined.

(** ** The summary counts what is printed *)

Lemma formatEnhancedNodeEntriesOf_exceeding prefix maxDepth d (cs : list EnhancedTreeNode.t) :
  Forall (depthFrom d) cs -> depthExceeds d maxDepth = true ->
  formatEnhancedNodeEntriesOf prefix maxDepth cs = [].
Proof.
  intros Hall Hd. induction Hall as [|c cs Hc _ IH]; [reflexivity|].
  cbn [formatEnhancedNodeEntriesOf].
  rewrite (depthFrom_depth d c Hc), Hd. exact IH.
Qed.

Lemma depthBelow_false_exceeds d maxDepth :
  depthBelow d maxDepth = false -> depthExceeds (d + 1) maxDepth = true.
Proof.
  destruct maxDepth as [m|]; simpl; [|discriminate].
  intros H. apply Z.ltb_ge in H. apply Z.ltb_lt. lia.
Qed.

(** Under the depth invariant the test [node.depth < maxDepth] before the
    recursive call changes nothing: the call would print nothing. *)
Lemma formatEnhancedNodeEntries_guard prefix maxDepth d (c : EnhancedTreeNode.t) :
  depthFrom d c ->
  (if depthBelow (EnhancedTreeNode.depth c) maxDepth
   then formatEnhancedNodeEntries c prefix maxDepth else [])
  = formatEnhancedNodeEntries c prefix maxDepth.
Proof.
  intros Hc. destruct (depthBelow _ _) eqn:Hb; [reflexivity|].
  rewrite formatEnhancedNodeEntries_of. symmetry.
  apply (formatEnhancedNodeEntriesOf_exceeding _ _ (d + 1));
    [apply depthFrom_children, Hc|].
  apply depthBelow_false_exceeds. rewrite <- (depthFrom_depth d c Hc). exact Hb.
Qed.

Lemma tally_app (f : EnhancedTreeNode.t -> Z)
  (l l' : list (string * EnhancedTreeNode.t)) :
  tally f (l ++ l') = tally f l + tally f l'.
Proof.
  unfold tally. induction l as [|e l IH]; [simpl; lia|]. simpl. rewrite IH. lia.
Qed.

Lemma tally_cons (f : EnhancedTreeNode.t -> Z) (e : string * EnhancedTreeNode.t)
  (l : list (string * EnhancedTreeNode.t)) :
  tally f (e :: l) = f (snd e) + tally f l.
Proof. reflexivity. Qed.

Lemma countsAdd_nil (stats : TreeStats) : countsAdd stats [] stats.
Proof. unfold countsAdd, printedDirs, printedFiles, printedSize. simpl. lia. Qed.

Lemma countsAdd_echo options stats0 entries stats :
  countsAdd stats0 entries stats -> countsAdd stats0 entries (echoOptions options stats).
Proof.
  unfold countsAdd. destruct (echoOptions_counts options stats) as [H1 [H2 H3]].
  rewrite H1, H2, H3. exact (fun H => H).
Qed.

(** A directory entry, what is printed below it, and the rest. *)
Lemma countsAdd_directory stats0 prefix (c : EnhancedTreeNode.t) below rest stats1 stats :
  EnhancedTreeNode.isDirectory c = true ->
  countsAdd (countDir stats0) below stats1 ->
  countsAdd stats1 rest stats ->
  countsAdd stats0 ((prefix, c) :: below ++ rest) stats.
Proof.
  unfold countsAdd, printedDirs, printedFiles, printedSize.
  intros Hdir (H1 & H2 & H3) (H4 & H5 & H6).
  rewrite !tally_cons, !tally_app. cbn [snd]. rewrite Hdir.
  unfold countDir in H1, H2, H3. cbn [totalDirs totalFiles totalSize] in H1, H2, H3. lia.
Qed.

(** A file entry and the rest. *)
Lemma countsAdd_file stats0 prefix (c : EnhancedTreeNode.t) rest stats :
  EnhancedTreeNode.isDirectory c = false ->
  countsAdd (countFile (EnhancedTreeNode.size c) stats0) rest stats ->
  countsAdd stats0 ((prefix, c) :: rest) stats.
Proof.
  unfold countsAdd, printedDirs, printedFiles, printedSize.
  intros Hdir (H1 & H2 & H3).
  rewrite !tally_cons. cbn [snd]. rewrite Hdir.
  unfold countFile in H1, H2, H3. cbn [totalDirs totalFiles totalSize] in H1, H2, H3. lia.
Qed.

Lemma leaf_prints_nothing prefix maxDepth (c : EnhancedTreeNode.t) :
  enhancedFilesAreLeaves c -> EnhancedTreeNode.isDirectory c = false ->
  formatEnhancedNodeEntries c prefix maxDepth = [].
Proof.
  intros Hl Hdir. rewrite formatEnhancedNodeEntries_of.
  inversion Hl as [? ? ? ? ? Hleaf _]; subst. cbn [EnhancedTreeNode.children].
  rewrite Hleaf by exact Hdir. reflexivity.
Qed.

Lemma printed_entries_counted_both (options : SubTreeOptions) :
  (forall node d prefix stats,
      depthFrom d node -> enhancedFilesAreLeaves node ->
      countsAdd stats (formatEnhancedNodeEntries node prefix (maxDepth options))
        (calculateStats node options stats))
  /\ (forall cs d prefix stats,
         Forall (depthFrom d) cs -> Forall enhancedFilesAreLeaves cs ->
         countsAdd stats (formatEnhancedNodeEntriesOf prefix (maxDepth options) cs)
           (calculateStatsLoop options cs stats)).
Proof.
  apply EnhancedTreeNode_forest_ind.
  - intros d prefix stats _ _. apply countsAdd_nil.
  - intros c rest IHc IHr d prefix stats Hd Hl.
    inversion Hd as [|? ? Hdc Hdr]; subst. inversion Hl as [|? ? Hlc Hlr]; subst.
    cbn [calculateStatsLoop formatEnhancedNodeEntriesOf].
    destruct (depthExceeds _ _); [apply (IHr d); assumption|].
    rewrite (formatEnhancedNodeEntries_guard _ _ d c Hdc).
    destruct (EnhancedTreeNode.isDirectory c) eqn:Hdir.
    + eapply countsAdd_directory; [exact Hdir| |].
      * apply (IHc d); assumption.
      * apply (IHr d); assumption.
    + rewrite (leaf_prints_nothing _ _ c Hlc Hdir). cbn [app].
      apply countsAdd_file; [exact Hdir|]. apply (IHr d); assumption.
  - intros name isDirectory size cs depth IH d prefix stats Hd Hl.
    rewrite calculateStats_loop, formatEnhancedNodeEntries_of.
    cbn [EnhancedTreeNode.children]. apply countsAdd_echo.
    apply (IH (d + 1)).
    + apply (depthFrom_children d _ Hd).
    + apply (enhancedFilesAreLeaves_children _ Hl).
Qed.

Lemma formatSubTreeEntries_counted (options : SubTreeOptions)
  (cs : list EnhancedTreeNode.t) :
  Forall (depthFrom 1) cs -> Forall enhancedFilesAreLeaves cs ->
  depthExceeds 1 (maxDepth options) = false ->
  forall stats,
    countsAdd stats (formatSubTreeEntries cs (maxDepth options))
      (calculateStatsLoop options cs stats).
Proof.
  intros Hd Hl Hm. induction cs as [|c cs IH]; intros stats; [apply countsAdd_nil|].
  inversion Hd as [|? ? Hdc Hdr]; subst. inversion Hl as [|? ? Hlc Hlr]; subst.
  cbn [calculateStatsLoop formatSubTreeEntries].
  rewrite (depthFrom_depth 1 c Hdc), Hm. rewrite <- (depthFrom_depth 1 c Hdc).
  rewrite (formatEnhancedNodeEntries_guard _ _ 1 c Hdc).
  destruct (EnhancedTreeNode.isDirectory c) eqn:Hdir.
  - eapply countsAdd_directory; [exact Hdir| |].
    + apply (proj1 (printed_entries_counted_both options) c 1); assumption.
    + apply IH; assumption.
  - rewrite (leaf_prints_nothing _ _ c Hlc Hdir). cbn [app].
    apply countsAdd_file; [exact Hdir|]. apply IH; assumption.
Qed.

(** X11: when the depth bound is absent or at least 1, the summary counts
    what [formatSubTree] prints above it: the text is one line per printed
    entry, followed by the summary, and the summary's directory count, file
    count and total size are the number of directories, the number of files
    and the summed file sizes among the printed entries. *)
Theorem summary_counts_printed_entries (localeCompare : string -> string -> Z)
  (item : GitHubTreeItem) (items : list GitHubTreeItem) (dirPath : string)
  (options : SubTreeOptions) :
  depthExceeds 1 (maxDepth options) = false ->
  formatSubTree localeCompare (item :: items) dirPath options
  = match printedEntries localeCompare (item :: items) dirPath options with
    | [] => "(empty directory)"
    | entries =>
        join nl (map (enhancedEntryLine options (maxDepth options)) entries)
        ++ summaryTail (buildEnhancedTree localeCompare (item :: items) dirPath options)
             options
    end%string
  /\ totalDirs (summaryStats localeCompare (item :: items) dirPath options)
     = printedDirs (printedEntries localeCompare (item :: items) dirPath options)
  /\ totalFiles (summaryStats localeCompare (item :: items) dirPath options)
     = printedFiles (printedEntries localeCompare (item :: items) dirPath options)
  /\ totalSize (summaryStats localeCompare (item :: items) dirPath options)
     = printedSize (printedEntries localeCompare (item :: items) dirPath options).
Proof.
  intros Hm. unfold printedEntries, summaryStats.
  set (t := buildEnhancedTree localeCompare (item :: items) dirPath options).
  split.
  - unfold formatSubTree. fold t.
    destruct (EnhancedTreeNode.children t) as [|c cs] eqn:Hc.
    + unfold renderEnhancedTree. rewrite Hc. reflexivity.
    + rewrite renderEnhancedTree_entries by congruence. rewrite Hc. reflexivity.
  - rewrite calculateStats_loop.
    assert (H : countsAdd emptyStats
                  (formatSubTreeEntries (EnhancedTreeNode.children t) (maxDepth options))
                  (echoOptions options
                     (calculateStatsLoop options (EnhancedTreeNode.children t)
                        emptyStats))).
    { apply countsAdd_echo, formatSubTreeEntries_counted; [| |exact Hm].
      - apply (depthFrom_children 0 t), buildEnhancedTree_depthFrom.
      - apply enhancedFilesAreLeaves_children, buildEnhancedTree_leaves. }
    destruct H as (H1 & H2 & H3). rewrite H1, H2, H3. simpl. lia.
Qed.

Lemma summary_counts_printed_entries_witness :
  totalDirs (summaryStats codepointCompare sampleItems "" defaultOptions)
  = printedDirs (printedEntries codepointCompare sampleItems "" defaultOptions).
Proof.
  apply (summary_counts_printed_entries codepointCompare
           (mkItem "src" tree None) (tl sampleItems) "" defaultOptions).
  reflexivity.
Defined.

(** ** The filter path *)

Lemma updateNamed_ext {A : Type} (nameOf : A -> string) (k : string) (f g : A -> A)
  (l : list A) :
  (forall c, f c = g c) -> updateNamed nameOf k f l = updateNamed nameOf k g l.
Proof.
  intros H. induction l as [|c l IH]; [reflexivity|]. simpl.
  rewrite H, IH. reflexivity.
Qed.

Section FilterPath.
Variable localeCompare : string -> string -> Z.









End FilterPath.


(** X13: the directory path is read up to normalisation: a path and its
    normal form select the same listing, in both renderers. *)
Theorem dirPath_read_up_to_normalisation (localeCompare : string -> string -> Z)
  (items : list GitHubTreeItem) (dirPath : string) (options : SubTreeOptions) :
  formatTree localeCompare items (normalizePath dirPath)
  = formatTree localeCompare items dirPath
  /\ formatSubTree localeCompare items (normalizePath dirPath) options
     = formatSubTree localeCompare items dirPath options.
Proof.
  unfold formatTree, formatSubTree, buildTree, buildEnhancedTree.
  rewrite normalizePath_twice. split; reflexivity.
Qed.

(** ** The order of the entries *)

Lemma substringFrom_app (p t : string) :
  substringFrom (String.length p) (p ++ t) = t.
Proof. induction p as [|c p IH]; [reflexivity|exact IH]. Qed.

Lemma string_length_app (p t : string) :
  String.length (p ++ t) = (String.length p + String.length t)%nat.
Proof. induction p as [|c p IH]; [reflexivity|]. simpl. rewrite IH. reflexivity. Qed.

(** The path of a selected entry is the filter path, a slash and the
    relative path. *)
Lemma relativePath_Some (nd : string) (item : GitHubTreeItem) (relPath : string) :
  relativePath nd item = Some relPath ->
  path item = (if String.eqb nd "" then relPath else nd ++ "/" ++ relPath)%string.
Proof.
  unfold relativePath. destruct (String.eqb nd "").
  - intros H. injection H as <-. reflexivity.
  - destruct (startsWith (path item) (nd ++ "/")) eqn:Hs.
    + cbn [orb]. destruct (String.eqb (path item) nd); [discriminate|].
      intros H. injection H as <-.
      apply prefix_iff in Hs. destruct Hs as [t Ht]. rewrite Ht at 2.
      replace (String.length nd + 1)%nat with (String.length (nd ++ "/")).
      * rewrite substringFrom_app, Ht, append_assoc. reflexivity.
      * rewrite string_length_app. reflexivity.
    + cbn [orb]. destruct (String.eqb (path item) nd); discriminate.
Qed.

Lemma entryParts_inj (nd : string) (a b : GitHubTreeItem) (parts : list string) :
  entryParts nd a = Some parts -> entryParts nd b = Some parts -> path a = path b.
Proof.
  unfold entryParts. intros Ha Hb.
  destruct (relativePath nd a) as [ra|] eqn:Ea; [|discriminate].
  destruct (relativePath nd b) as [rb|] eqn:Eb; [|discriminate].
  cbn [option_map] in Ha, Hb. injection Ha as Ha. injection Hb as Hb.
  assert (Hr : ra = rb).
  { rewrite <- (join_split ra), <- (join_split rb), Ha, Hb. reflexivity. }
  subst rb. rewrite (relativePath_Some nd a ra Ea), (relativePath_Some nd b ra Eb).
  reflexivity.
Qed.

Lemma stripPrefix_nil (p parts : list string) :
  stripPrefix p parts = Some [] -> parts = p.
Proof. intros H. apply stripPrefix_Some in H. rewrite H, app_nil_r. reflexivity. Qed.

Lemma typedByPath_Permutation (items items' : list GitHubTreeItem) :
  Permutation items items' -> typedByPath items -> typedByPath items'.
Proof.
  intros Hp H a b Ha Hb. apply H; apply (Permutation_in _ (Permutation_sym Hp)); assumption.
Qed.

Lemma typedByPath_tail (item : GitHubTreeItem) (items : list GitHubTreeItem) :
  typedByPath (item :: items) -> typedByPath items.
Proof. intros H a b Ha Hb. apply H; right; assumption. Qed.

Section FlagOrder.
Variable nd : string.
Variable keeps : list string -> GitHubTreeItem -> bool.
Hypothesis keeps_type :
  forall parts a b, type a = type b -> keeps parts a = keeps parts b.
Variable p : list string.



End FlagOrder.

Section TreeExtensionality.
Variable localeCompare : string -> string -> Z.
Hypothesis localeCompare_antisym :
  forall a b, localeCompare a b <= 0 -> localeCompare b a <= 0 -> a = b.









End TreeExtensionality.




(** ** The empty extension filter *)

Section EmptyFilter.
Variable localeCompare : string -> string -> Z.
Variable options : SubTreeOptions.

Lemma addNestedEnhancedNode_empty_filter (item : GitHubTreeItem) (parts : list string) :
  forall parent depth,
    addNestedEnhancedNode localeCompare parent parts item depth
      (withFileExtFilter options (Some []))
    = addNestedEnhancedNode localeCompare parent parts item depth
        (withFileExtFilter options None).
Proof.
  induction parts as [|k rest IH]; intros parent depth; [reflexivity|].
  cbn [addNestedEnhancedNode].
  change (filteredOut k (match rest with [] => false | _ :: _ => true end) item
            (withFileExtFilter options (Some [])))
    with (filteredOut k (match rest with [] => false | _ :: _ => true end) item
            (withFileExtFilter options None)).
  unfold updateEnhancedChild.
  rewrite (updateNamed_ext EnhancedTreeNode.name k
             (fun child => addNestedEnhancedNode localeCompare
                             (EnhancedTreeNode.setDirectory child) rest item
                             (depth + 1) (withFileExtFilter options (Some [])))
             (fun child => addNestedEnhancedNode localeCompare
                             (EnhancedTreeNode.setDirectory child) rest item
                             (depth + 1) (withFileExtFilter options None))).
  - reflexivity.
  - intros c. apply IH.
Qed.

Lemma buildEnhancedTree_empty_filter (items : list GitHubTreeItem) (dirPath : string) :
  buildEnhancedTree localeCompare items dirPath (withFileExtFilter options (Some []))
  = buildEnhancedTree localeCompare items dirPath (withFileExtFilter options None).
Proof.
  unfold buildEnhancedTree. do 2 f_equal.
  generalize (@nil (string * EnhancedTreeNode.t)).
  induction items as [|item items IH]; intros m; [reflexivity|].
  cbn [fold_left]. rewrite IH. f_equal.
  unfold buildEnhancedTreeStep.
  destruct (relativePath (normalizePath dirPath) item) as [relPath|]; [|reflexivity].
  destruct (split slash relPath) as [|k rest]; [reflexivity|].
  change (filteredOut k (match rest with [] => false | _ :: _ => true end) item
            (withFileExtFilter options (Some [])))
    with (filteredOut k (match rest with [] => false | _ :: _ => true end) item
            (withFileExtFilter options None)).
  destruct (filteredOut _ _ _ _); [reflexivity|].
  destruct rest as [|k2 rest2]; [reflexivity|].
  destruct (Map_get k _); [|reflexivity].
  rewrite addNestedEnhancedNode_empty_filter. reflexivity.
Qed.

Lemma calculateStats_empty_filter_both :
  (forall node stats,
      calculateStats node (withFileExtFilter options (Some [])) stats
      = calculateStats node (withFileExtFilter options None) stats)
  /\ (forall cs stats,
         calculateStatsLoop (withFileExtFilter options (Some [])) cs stats
         = calculateStatsLoop (withFileExtFilter options None) cs stats).
Proof.
  apply EnhancedTreeNode_forest_ind.
  - reflexivity.
  - intros c rest IHc IHr stats. cbn [calculateStatsLoop].
    rewrite !IHr, IHc. reflexivity.
  - intros name isDirectory size cs depth IH stats.
    rewrite !calculateStats_loop. cbn [EnhancedTreeNode.children]. rewrite IH.
    reflexivity.
Qed.

Lemma renderEnhancedTree_empty_filter (t : EnhancedTreeNode.t) :
  renderEnhancedTree t (withFileExtFilter options (Some []))
  = renderEnhancedTree t (withFileExtFilter options None).
Proof.
  destruct (EnhancedTreeNode.children t) as [|c cs] eqn:Hc.
  - unfold renderEnhancedTree. rewrite Hc. reflexivity.
  - rewrite !renderEnhancedTree_entries by congruence.
    unfold summaryTail. rewrite (proj1 calculateStats_empty_filter_both). reflexivity.
Qed.
End EmptyFilter.

(** X15: an empty extension list is no filter: with [fileExtFilter: []]
    the enhanced builder and [formatSubTree] return what they return
    without [fileExtFilter]. *)
Theorem empty_filter_is_no_filter (localeCompare : string -> string -> Z)
  (items : list GitHubTreeItem) (dirPath : string) (options : SubTreeOptions) :
  buildEnhancedTree localeCompare items dirPath (withFileExtFilter options (Some []))
  = buildEnhancedTree localeCompare items dirPath (withFileExtFilter options None)
  /\ formatSubTree localeCompare items dirPath (withFileExtFilter options (Some []))
     = formatSubTree localeCompare items dirPath (withFileExtFilter options None).
Proof.
  split; [apply buildEnhancedTree_empty_filter|].
  unfold formatSubTree. destruct items as [|item items]; [reflexivity|].
  rewrite buildEnhancedTree_empty_filter. apply renderEnhancedTree_empty_filter.
Qed.

(** ** The plain tree, path by path *)

Section PlainPaths.
Variable nd : string.
Variable p : list string.

Lemma flagStep_directory (old : option bool) (item : GitHubTreeItem) :
  flagStep nd plainKeeps p old item = Some true ->
  old = Some true
  \/ exists q, entryParts nd item = Some (p ++ q)%list /\ (q <> [] \/ type item = tree).
Proof.
  unfold flagStep.
  destruct (entryParts nd item) as [parts|] eqn:He; [|auto].
  destruct (stripPrefix p parts) as [[|k rest]|] eqn:Hs; cbn [flagAfter plainKeeps].
  - apply stripPrefix_Some in Hs. destruct old as [d|]; [auto|].
    intros H. injection H as H. right. exists []. split; [congruence|]. right.
    destruct (type item); [discriminate|reflexivity].
  - apply stripPrefix_Some in Hs. intros _. right. exists (k :: rest).
    split; [congruence|]. left. discriminate.
  - auto.
Qed.

Lemma flagSteps_directory (items : list GitHubTreeItem) :
  forall old,
    fold_left (flagStep nd plainKeeps p) items old = Some true ->
    old = Some true
    \/ exists item q,
         In item items /\ entryParts nd item = Some (p ++ q)%list
         /\ (q <> [] \/ type item = tree).
Proof.
  induction items as [|item items IH]; intros old; cbn [fold_left]; [auto|].
  intros H. apply IH in H. destruct H as [H|(item' & q & Hin & He & Hq)].
  - apply flagStep_directory in H. destruct H as [H|(q & He & Hq)]; [auto|].
    right. exists item, q. split; [left; reflexivity|auto].
  - right. exists item', q. split; [right; exact Hin|auto].
Qed.

Lemma flagOf_directory_iff (items : list GitHubTreeItem) :
  typedByPath items ->
  flagOf nd plainKeeps items p = Some true
  <-> exists item q,
        In item items /\ entryParts nd item = Some (p ++ q)%list
        /\ (q <> [] \/ type item = tree).
Proof.
  intros Htyped. split.
  - intros H. apply flagSteps_directory in H. destruct H as [H|H]; [discriminate|exact H].
  - intros (item & q & Hin & He & [Hq|Ht]).
    + apply (flagOf_below nd plainKeeps p items item q Hin He Hq).
    + destruct q as [|k q]; [|apply (flagOf_below nd plainKeeps p items item (k :: q) Hin He);
                               discriminate].
      rewrite app_nil_r in He.
      pose proof Hin as Hsplit. apply in_split in Hsplit.
      destruct Hsplit as (before & after & ->).
      apply flagOf_first_tree; [exact He|exact Ht|reflexivity|].
      intros b Hb Heb. rewrite <- Ht. apply Htyped.
      * apply in_or_app. left. exact Hb.
      * exact Hin.
      * apply (entryParts_inj nd b item p Heb He).
Qed.

Lemma contributes_plain (item : GitHubTreeItem) :
  contributes nd plainKeeps p item <-> exists q, entryParts nd item = Some (p ++ q)%list.
Proof.
  unfold contributes, plainKeeps. split.
  - intros (parts & rest & He & Hs & _). apply stripPrefix_Some in Hs.
    exists rest. congruence.
  - intros [q He]. exists (p ++ q)%list, q.
    split; [exact He|]. split; [apply stripPrefix_app|auto].
Qed.
End PlainPaths.

(** X16: the tree of [buildTree] has a node at a non-empty path exactly
    when that path starts the relative path of an entry below [dirPath]. *)
Theorem plain_tree_nodes (localeCompare : string -> string -> Z)
  (items : list GitHubTreeItem) (dirPath : string) (p : list string) :
  p <> [] ->
  directoryFlag (TreeNode.children (buildTree localeCompare items dirPath)) p <> None
  <-> exists item q,
        In item items /\ entryParts (normalizePath dirPath) item = Some (p ++ q)%list.
Proof.
  intros Hp. rewrite directoryFlag_buildTree by exact Hp.
  rewrite flagOf_present. split.
  - intros (item & Hin & Hc). apply contributes_plain in Hc. destruct Hc as [q Hq].
    exists item, q. auto.
  - intros (item & q & Hin & Hq). exists item. split; [exact Hin|].
    apply contributes_plain. exists q. exact Hq.
Qed.

Lemma plain_tree_nodes_witness :
  directoryFlag (TreeNode.children (buildTree codepointCompare sampleItems "")) ["src"]%string
  <> None
  <-> exists item q,
        In item sampleItems
        /\ entryParts (normalizePath "") item = Some (["src"]%string ++ q)%list.
Proof.
  apply (plain_tree_nodes codepointCompare sampleItems "" ["src"]%string).
  discriminate.
Defined.

(** X17: when the entries of one path have one type, the node [buildTree]
    puts at a non-empty path is a directory exactly when some entry lies
    strictly below that path or some entry of exactly that path is a
    directory entry. *)
Theorem plain_tree_directories (localeCompare : string -> string -> Z)
  (items : list GitHubTreeItem) (dirPath : string) (p : list string) :
  p <> [] ->
  typedByPath items ->
  directoryFlag (TreeNode.children (buildTree localeCompare items dirPath)) p = Some true
  <-> exists item q,
        In item items /\ entryParts (normalizePath dirPath) item = Some (p ++ q)%list
        /\ (q <> [] \/ type item = tree).
Proof.
  intros Hp Htyped. rewrite directoryFlag_buildTree by exact Hp.
  apply flagOf_directory_iff, Htyped.
Qed.

Lemma plain_tree_directories_witness :
  directoryFlag (TreeNode.children (buildTree codepointCompare sampleItems "")) ["src"]%string
  = Some true
  <-> exists item q,
        In item sampleItems
        /\ entryParts (normalizePath "") item = Some (["src"]%string ++ q)%list
        /\ (q <> [] \/ type item = tree).
Proof.
  apply (plain_tree_directories codepointCompare sampleItems "" ["src"]%string).
  - discriminate.
  - intros a b [<-|[<-|[<-|[<-|[]]]]] [<-|[<-|[<-|[<-|[]]]]]; simpl; intros H;
      (reflexivity || discriminate).
Defined.

(** ** Sizes, path by path *)

Section EnhancedSizes.
Variable localeCompare : string -> string -> Z.

Lemma addNestedEnhancedNode_size parent parts item depth options :
  EnhancedTreeNode.size (addNestedEnhancedNode localeCompare parent parts item depth options)
  = EnhancedTreeNode.size parent.
Proof.
  rewrite addNestedEnhancedNode_insertEnhancedChild.
  destruct parts as [|k rest]; [reflexivity|].
  destruct (filteredOut k _ item options); reflexivity.
Qed.

Lemma enhancedSizeAt_sort (compare : EnhancedTreeNode.t -> EnhancedTreeNode.t -> Z)
  (cs : list EnhancedTreeNode.t) (p : list string) :
  NoDup (map EnhancedTreeNode.name cs) ->
  enhancedSizeAt (sort compare cs) p = enhancedSizeAt cs p.
Proof. intros Hnd. unfold enhancedSizeAt. rewrite lookupEnhancedNode_sort; auto. Qed.

Lemma enhancedSizeAt_cons (cs : list EnhancedTreeNode.t) (k : string) (p : list string) :
  enhancedSizeAt cs (k :: p)
  = match findNamed EnhancedTreeNode.name k cs with
    | None => None
    | Some c =>
        match p with
        | [] => Some (EnhancedTreeNode.size c)
        | _ :: _ => enhancedSizeAt (EnhancedTreeNode.children c) p
        end
    end.
Proof.
  unfold enhancedSizeAt. simpl.
  destruct (findNamed EnhancedTreeNode.name k cs); [|reflexivity].
  destruct p; reflexivity.
Qed.

Lemma enhancedSizeAt_nil (p : list string) : enhancedSizeAt [] p = None.
Proof. destruct p; reflexivity. Qed.

Lemma sizeAfter_dropped (old : option (option Z)) (rest : option (list string))
  (isTree : bool) (size : option Z) :
  match rest with Some (_ :: _) => False | _ => True end ->
  sizeAfter old rest false isTree size = old.
Proof.
  destruct rest as [[|? ?]|]; simpl; try tauto.
  destruct old; reflexivity.
Qed.

Lemma enhancedSizeAt_addNested parent parts item depth options p :
  NoDup (map EnhancedTreeNode.name (EnhancedTreeNode.children parent)) ->
  Forall uniqueEnhancedNames (EnhancedTreeNode.children parent) ->
  enhancedSizeAt
    (EnhancedTreeNode.children
       (addNestedEnhancedNode localeCompare parent parts item depth options)) p
  = enhancedSizeAt
      (insertEnhancedChild localeCompare (EnhancedTreeNode.children parent)
         parts item depth options) p.
Proof.
  intros Hnd Hall. rewrite addNestedEnhancedNode_insertEnhancedChild.
  destruct parts as [|k rest]; [reflexivity|].
  destruct (filteredOut k _ item options) eqn:E.
  - cbn [insertEnhancedChild]. rewrite E. reflexivity.
  - cbn [EnhancedTreeNode.children EnhancedTreeNode.setChildren].
    apply enhancedSizeAt_sort.
    apply insertEnhancedChild_unique; assumption.
Qed.

(** The size at any path after one insertion. *)
Lemma enhancedSizeAt_insertEnhancedChild (item : GitHubTreeItem)
  (options : SubTreeOptions) (parts : list string) :
  forall cs depth p,
    NoDup (map EnhancedTreeNode.name cs) -> Forall uniqueEnhancedNames cs -> p <> [] ->
    enhancedSizeAt (insertEnhancedChild localeCompare cs parts item depth options) p
    = sizeAfter (enhancedSizeAt cs p) (stripPrefix p parts)
        (enhancedKeeps options parts item) (ItemType_eqb (type item) tree) (size item).
Proof.
  induction parts as [|k rest IH]; intros cs depth p Hnd Hall Hp;
    destruct p as [|k' p']; try congruence.
  - reflexivity.
  - cbn [insertEnhancedChild stripPrefix].
    destruct (filteredOut k (match rest with [] => false | _ :: _ => true end)
                item options) eqn:Hfilt.
    { destruct rest as [|k3 rest3]; [|discriminate].
      unfold enhancedKeeps. cbn [last]. rewrite Hfilt. cbn [negb].
      symmetry. apply sizeAfter_dropped.
      destruct (String.eqb k' k); [|exact I].
      destruct p'; exact I. }
    set (more := match rest with [] => false | _ :: _ => true end) in *.
    set (new := newEnhancedNode k more item depth).
    assert (Hnew : EnhancedTreeNode.name new = k) by reflexivity.
    pose proof (findNamed_pushed_enhanced k k' cs new Hnew) as Hpush.
    assert (Hf : forall c, EnhancedTreeNode.name
                   (addNestedEnhancedNode localeCompare (EnhancedTreeNode.setDirectory c)
                      rest item (depth + 1) options)
                 = EnhancedTreeNode.name c).
    { intros c. rewrite addNestedEnhancedNode_name. reflexivity. }
    rewrite !enhancedSizeAt_cons.
    destruct (String.eqb k' k) eqn:E.
    + apply String.eqb_eq in E. subst k'.
      destruct rest as [|k3 rest3].
      * subst more. cbv iota. rewrite Hpush.
        unfold enhancedKeeps. cbn [last]. rewrite Hfilt. cbn [negb].
        subst new. unfold findEnhancedChild, newEnhancedNode.
        destruct (findNamed EnhancedTreeNode.name k cs) as [c|] eqn:F.
        -- destruct p' as [|k2 p2]; reflexivity.
        -- destruct p' as [|k2 p2]; [reflexivity|].
           cbn [EnhancedTreeNode.children]. rewrite enhancedSizeAt_nil.
           reflexivity.
      * subst more. cbv iota.
        unfold updateEnhancedChild. rewrite findNamed_updateNamed_same by exact Hf.
        rewrite Hpush. cbn [option_map].
        set (c1 := match findEnhancedChild k cs with Some c => c | None => new end).
        assert (Hc1 : uniqueEnhancedNames c1).
        { subst c1. unfold findEnhancedChild.
          destruct (findNamed EnhancedTreeNode.name k cs) as [c|] eqn:F.
          - apply findNamed_Some in F. destruct F as [Hin _].
            rewrite Forall_forall in Hall. apply Hall, Hin.
          - subst new. repeat constructor. }
        apply uniqueEnhancedNames_children in Hc1. destruct Hc1 as [Hu1 Hu2].
        destruct p' as [|k2 p2].
        -- rewrite addNestedEnhancedNode_size.
           subst c1. unfold findEnhancedChild.
           destruct (findNamed EnhancedTreeNode.name k cs) as [c|] eqn:F;
             [destruct c|]; reflexivity.
        -- rewrite enhancedSizeAt_addNested by assumption.
           cbn [EnhancedTreeNode.children EnhancedTreeNode.setDirectory].
           rewrite IH by (assumption || discriminate).
           change (enhancedKeeps options (k :: k3 :: rest3) item)
             with (enhancedKeeps options (k3 :: rest3) item).
           subst c1. unfold findEnhancedChild.
           destruct (findNamed EnhancedTreeNode.name k cs) as [c|] eqn:F; [reflexivity|].
           subst new. cbn [EnhancedTreeNode.children newEnhancedNode].
           rewrite enhancedSizeAt_nil. reflexivity.
    + assert (Hother : findNamed EnhancedTreeNode.name k'
                         (if more
                          then updateEnhancedChild k
                                 (fun child => addNestedEnhancedNode localeCompare
                                    (EnhancedTreeNode.setDirectory child) rest item
                                    (depth + 1) options)
                                 (match findEnhancedChild k cs with
                                  | Some _ => cs | None => cs ++ [new] end)%list
                          else (match findEnhancedChild k cs with
                                | Some _ => cs | None => cs ++ [new] end)%list)
                       = findNamed EnhancedTreeNode.name k' cs).
      { destruct more; [|exact Hpush].
        unfold updateEnhancedChild.
        rewrite findNamed_updateNamed_other; [exact Hpush|exact Hf|].
        apply String.eqb_neq, E. }
      rewrite Hother. reflexivity.
Qed.

Lemma enhancedSizeAt_insertItems nd options (p : list string)
  (items : list GitHubTreeItem) :
  p <> [] ->
  forall cs,
    NoDup (map EnhancedTreeNode.name cs) -> Forall uniqueEnhancedNames cs ->
    enhancedSizeAt (fold_left (insertEnhancedItem localeCompare nd options) items cs) p
    = fold_left (sizeStep nd (enhancedKeeps options) p) items (enhancedSizeAt cs p).
Proof.
  intros Hp. induction items as [|item items IH]; intros cs Hnd Hall; simpl;
    [reflexivity|].
  destruct (insertEnhancedItem_unique localeCompare nd options cs item Hnd Hall) as [H1 H2].
  rewrite IH by assumption. f_equal.
  unfold insertEnhancedItem, sizeStep.
  destruct (entryParts nd item) as [parts|]; [|reflexivity].
  apply enhancedSizeAt_insertEnhancedChild; assumption.
Qed.

(** The sizes of the tree [buildEnhancedTree] returns are those read off
    the entry list. *)
Lemma enhancedSizeAt_buildEnhancedTree items dirPath options (p : list string) :
  p <> [] ->
  enhancedSizeAt
    (EnhancedTreeNode.children (buildEnhancedTree localeCompare items dirPath options)) p
  = sizeOf (normalizePath dirPath) (enhancedKeeps options) items p.
Proof.
  intros Hp. rewrite buildEnhancedTree_children.
  destruct (insertEnhancedItems_unique localeCompare (normalizePath dirPath) options items [])
    as [H1 H2]; [constructor|constructor|].
  rewrite enhancedSizeAt_sort by exact H1.
  rewrite enhancedSizeAt_insertItems by (assumption || constructor).
  rewrite enhancedSizeAt_nil. reflexivity.
Qed.
End EnhancedSizes.

(** An entry whose segments extend those of another lies below it. *)
Lemma entryParts_below (nd : string) (x y : GitHubTreeItem) (p : list string)
  (k : string) (r : list string) :
  entryParts nd x = Some p -> entryParts nd y = Some (p ++ k :: r)%list ->
  startsWith (path y) (path x ++ "/") = true.
Proof.
  unfold entryParts. intros Hx Hy.
  destruct (relativePath nd x) as [rx|] eqn:Ex; [|discriminate].
  destruct (relativePath nd y) as [ry|] eqn:Ey; [|discriminate].
  cbn [option_map] in Hx, Hy. injection Hx as Hx. injection Hy as Hy.
  assert (Hry : ry = (rx ++ "/" ++ join "/" (k :: r))%string).
  { rewrite <- (join_split ry), Hy, join_app.
    - rewrite <- Hx, join_split. reflexivity.
    - rewrite <- Hx. apply split_not_nil. }
  rewrite (relativePath_Some nd x rx Ex), (relativePath_Some nd y ry Ey), Hry.
  apply prefix_iff. exists (join "/" (k :: r)).
  destruct (String.eqb nd ""); rewrite ?append_assoc; reflexivity.
Qed.

Lemma sizedByPath_Permutation (items items' : list GitHubTreeItem) :
  Permutation items items' -> sizedByPath items -> sizedByPath items'.
Proof.
  intros Hp H a b Ha Hb. apply H; apply (Permutation_in _ (Permutation_sym Hp)); assumption.
Qed.

Lemma filesAreLeafEntries_Permutation (items items' : list GitHubTreeItem) :
  Permutation items items' -> filesAreLeafEntries items -> filesAreLeafEntries items'.
Proof.
  intros Hp H a b Ha Hb. apply H; apply (Permutation_in _ (Permutation_sym Hp)); assumption.
Qed.

Section SizeOrder.
Variable nd : string.
Variable keeps : list string -> GitHubTreeItem -> bool.
Hypothesis keeps_type :
  forall parts a b, type a = type b -> keeps parts a = keeps parts b.
Variable p : list string.

Lemma sizeAfter_below_file (x y : GitHubTreeItem) (k : string) (r : list string)
  (old : option (option Z)) :
  entryParts nd x = Some p -> entryParts nd y = Some (p ++ k :: r)%list ->
  (type x = blob -> startsWith (path y) (path x ++ "/") = false) ->
  sizeAfter (sizeAfter old (Some []) (keeps p x) (ItemType_eqb (type x) tree) (size x))
    (Some (k :: r)) (keeps (p ++ k :: r) y) (ItemType_eqb (type y) tree) (size y)
  = sizeAfter (sizeAfter old (Some (k :: r)) (keeps (p ++ k :: r) y)
                 (ItemType_eqb (type y) tree) (size y))
      (Some []) (keeps p x) (ItemType_eqb (type x) tree) (size x).
Proof.
  intros Ex Ey Hleaf. cbn [sizeAfter]. destruct old as [s|]; [reflexivity|].
  destruct (keeps p x); [|reflexivity].
  destruct (type x) eqn:Ht; [|reflexivity].
  rewrite (entryParts_below nd x y p k r Ex Ey) in Hleaf.
  specialize (Hleaf eq_refl). discriminate.
Qed.

Lemma sizeStep_commute (x y : GitHubTreeItem) (old : option (option Z)) :
  (path x = path y -> type x = type y /\ size x = size y) ->
  (type x = blob -> startsWith (path y) (path x ++ "/") = false) ->
  (type y = blob -> startsWith (path x) (path y ++ "/") = false) ->
  sizeStep nd keeps p (sizeStep nd keeps p old x) y
  = sizeStep nd keeps p (sizeStep nd keeps p old y) x.
Proof.
  intros Hsame Hxy Hyx. unfold sizeStep.
  destruct (entryParts nd x) as [px|] eqn:Ex; [|reflexivity].
  destruct (entryParts nd y) as [py|] eqn:Ey; [|reflexivity].
  destruct (stripPrefix p px) as [[|kx rx]|] eqn:Sx;
    destruct (stripPrefix p py) as [[|ky ry]|] eqn:Sy;
    try reflexivity; try (cbn [sizeAfter]; destruct old; reflexivity).
  - apply stripPrefix_nil in Sx, Sy. subst px py.
    destruct (Hsame (entryParts_inj nd x y p Ex Ey)) as [Ht Hs].
    rewrite (keeps_type p x y Ht), Ht, Hs. cbn [sizeAfter].
    destruct old; [reflexivity|]. destruct (keeps p y); reflexivity.
  - apply stripPrefix_nil in Sx. apply stripPrefix_Some in Sy. subst px py.
    apply sizeAfter_below_file; assumption.
  - apply stripPrefix_nil in Sy. apply stripPrefix_Some in Sx. subst px py.
    symmetry. apply sizeAfter_below_file; assumption.
Qed.

Lemma sizeSteps_Permutation (items items' : list GitHubTreeItem) :
  Permutation items items' ->
  typedByPath items -> sizedByPath items -> filesAreLeafEntries items ->
  forall old,
    fold_left (sizeStep nd keeps p) items old
    = fold_left (sizeStep nd keeps p) items' old.
Proof.
  induction 1 as [|x l l' Hp IH|x y l|l l' l'' Hp1 IH1 Hp2 IH2];
    intros Ht Hs Hl old.
  - reflexivity.
  - cbn [fold_left]. apply IH.
    + apply (typedByPath_tail x), Ht.
    + intros a b Ha Hb. apply Hs; right; assumption.
    + intros a b Ha Hb. apply Hl; right; assumption.
  - cbn [fold_left]. f_equal. apply sizeStep_commute.
    + intros Hpath. split.
      * apply Ht; [left; reflexivity|right; left; reflexivity|exact Hpath].
      * apply Hs; [left; reflexivity|right; left; reflexivity|exact Hpath].
    + apply Hl; [left; reflexivity|right; left; reflexivity].
    + apply Hl; [right; left; reflexivity|left; reflexivity].
  - rewrite IH1 by assumption. apply IH2.
    + apply (typedByPath_Permutation l l'); assumption.
    + apply (sizedByPath_Permutation l l'); assumption.
    + apply (filesAreLeafEntries_Permutation l l'); assumption.
Qed.

Lemma sizeOf_Permutation (items items' : list GitHubTreeItem) :
  Permutation items items' ->
  typedByPath items -> sizedByPath items -> filesAreLeafEntries items ->
  sizeOf nd keeps items p = sizeOf nd keeps items' p.
Proof. intros Hp Ht Hs Hl. apply sizeSteps_Permutation; assumption. Qed.
End SizeOrder.

Section EnhancedTreeExtensionality.
Variable localeCompare : string -> string -> Z.
Hypothesis localeCompare_antisym :
  forall a b, localeCompare a b <= 0 -> localeCompare b a <= 0 -> a = b.










End EnhancedTreeExtensionality.

Lemma enhancedKeeps_type (options : SubTreeOptions) (parts : list string)
  (a b : GitHubTreeItem) :
  type a = type b -> enhancedKeeps options parts a = enhancedKeeps options parts b.
Proof. unfold enhancedKeeps, filteredOut. intros ->. reflexivity. Qed.



Section SizeClosedForm.
Variable nd : string.
Variable keeps : list string -> GitHubTreeItem -> bool.
Hypothesis keeps_type :
  forall parts a b, type a = type b -> keeps parts a = keeps parts b.
Variable p : list string.

(** A node keeps the size it was created with. *)
Lemma sizeSteps_kept (items : list GitHubTreeItem) (s : option Z) :
  fold_left (sizeStep nd keeps p) items (Some s) = Some s.
Proof.
  induction items as [|item items IH]; [reflexivity|]. cbn [fold_left].
  replace (sizeStep nd keeps p (Some s) item) with (Some s); [exact IH|].
  unfold sizeStep. destruct (entryParts nd item) as [parts|]; [|reflexivity].
  destruct (stripPrefix p parts) as [[|k r]|]; reflexivity.
Qed.

Lemma sizeStep_sized (old : option (option Z)) (item : GitHubTreeItem) (s : Z) :
  sizeStep nd keeps p old item = Some (Some s) ->
  old = Some (Some s)
  \/ (entryParts nd item = Some p /\ type item = blob /\ keeps p item = true
      /\ size item = Some s).
Proof.
  unfold sizeStep.
  destruct (entryParts nd item) as [parts|] eqn:He; [|auto].
  destruct (stripPrefix p parts) as [[|k r]|] eqn:Hs; cbn [sizeAfter].
  - apply stripPrefix_nil in Hs. subst parts. destruct old as [x|]; [auto|].
    destruct (keeps p item); [|discriminate].
    destruct (type item); cbn [ItemType_eqb]; [|discriminate].
    intros H. injection H as H. right. auto.
  - destruct old as [x|]; [auto|discriminate].
  - auto.
Qed.

Lemma sizeSteps_sized (items : list GitHubTreeItem) (s : Z) :
  forall old,
    fold_left (sizeStep nd keeps p) items old = Some (Some s) ->
    old = Some (Some s)
    \/ exists item,
         In item items /\ entryParts nd item = Some p /\ type item = blob
         /\ keeps p item = true /\ size item = Some s.
Proof.
  induction items as [|item items IH]; intros old; cbn [fold_left]; [auto|].
  intros H. apply IH in H. destruct H as [H|(item' & Hin & H)].
  - apply sizeStep_sized in H. destruct H as [H|H]; [auto|].
    right. exists item. split; [left; reflexivity|exact H].
  - right. exists item'. split; [right; exact Hin|exact H].
Qed.

Lemma sizeOf_sized_iff (items : list GitHubTreeItem) (s : Z) :
  typedByPath items -> sizedByPath items -> filesAreLeafEntries items ->
  sizeOf nd keeps items p = Some (Some s)
  <-> exists item,
        In item items /\ entryParts nd item = Some p /\ type item = blob
        /\ keeps p item = true /\ size item = Some s.
Proof.
  intros Ht Hs Hl. split.
  - intros H. apply sizeSteps_sized in H. destruct H as [H|H]; [discriminate|exact H].
  - intros (item & Hin & He & Hb & Hk & Hsz).
    pose proof Hin as Hsplit. apply in_split in Hsplit.
    destruct Hsplit as (before & after & ->).
    rewrite (sizeOf_Permutation nd keeps keeps_type p (before ++ item :: after)
               (item :: before ++ after));
      [|apply Permutation_sym, Permutation_middle|assumption..].
    unfold sizeOf. cbn [fold_left].
    replace (sizeStep nd keeps p None item) with (Some (Some s)); [apply sizeSteps_kept|].
    unfold sizeStep. rewrite He.
    replace (stripPrefix p p) with (Some (@nil string))
      by (symmetry; rewrite <- (app_nil_r p) at 2; apply stripPrefix_app).
    cbn [sizeAfter]. rewrite Hk, Hb, Hsz. reflexivity.
Qed.
End SizeClosedForm.

Lemma enhancedKeeps_blob (options : SubTreeOptions) (parts : list string)
  (item : GitHubTreeItem) :
  type item = blob ->
  enhancedKeeps options parts item
  = matchesExtFilter (last parts "") (fileExtFilter options).
Proof.
  unfold enhancedKeeps, filteredOut. intros ->. cbn [negb andb ItemType_eqb].
  apply negb_involutive.
Qed.

(** X19: in the tree of [buildEnhancedTree], for a listing of a real tree
    (one type and one size per path, nothing below a file entry), the node
    at a non-empty path carries a size exactly when a file entry of exactly
    that path carries it and its name passes the extension filter. *)
Theorem enhanced_tree_sizes (localeCompare : string -> string -> Z)
  (items : list GitHubTreeItem) (dirPath : string) (options : SubTreeOptions)
  (p : list string) (s : Z) :
  p <> [] ->
  typedByPath items -> sizedByPath items -> filesAreLeafEntries items ->
  enhancedSizeAt
    (EnhancedTreeNode.children (buildEnhancedTree localeCompare items dirPath options)) p
  = Some (Some s)
  <-> exists item,
        In item items /\ entryParts (normalizePath dirPath) item = Some p
        /\ type item = blob
        /\ matchesExtFilter (last p "") (fileExtFilter options) = true
        /\ size item = Some s.
Proof.
  intros Hp Ht Hs Hl. rewrite enhancedSizeAt_buildEnhancedTree by exact Hp.
  rewrite (sizeOf_sized_iff _ _ (enhancedKeeps_type options) p items s Ht Hs Hl).
  split; intros (item & Hin & He & Hb & Hk & Hsz); exists item;
    rewrite (enhancedKeeps_blob options p item Hb) in *; auto.
Qed.

Lemma enhanced_tree_sizes_witness :
  enhancedSizeAt
    (EnhancedTreeNode.children
       (buildEnhancedTree codepointCompare sampleItems "" defaultOptions))
    ["src"; "index.ts"]%string
  = Some (Some 100)
  <-> exists item,
        In item sampleItems
        /\ entryParts (normalizePath "") item = Some ["src"; "index.ts"]%string
        /\ type item = blob
        /\ matchesExtFilter (last ["src"; "index.ts"]%string "")
             (fileExtFilter defaultOptions) = true
        /\ size item = Some 100.
Proof.
  apply (enhanced_tree_sizes codepointCompare sampleItems "" defaultOptions
           ["src"; "index.ts"]%string 100).
  - discriminate.
  - intros a b [<-|[<-|[<-|[<-|[]]]]] [<-|[<-|[<-|[<-|[]]]]]; simpl; intros H;
      (reflexivity || discriminate).
  - intros a b [<-|[<-|[<-|[<-|[]]]]] [<-|[<-|[<-|[<-|[]]]]]; simpl; intros H;
      (reflexivity || discriminate).
  - intros a b [<-|[<-|[<-|[<-|[]]]]] [<-|[<-|[<-|[<-|[]]]]]; simpl; intros H;
      (reflexivity || discriminate).
Defined.
